(** * Verification of the WAV segment labelling tool

    A shallow embedding of the application code ([App] and its helper
    functions: [baseName], [audioBufferToWav], [sliceBuffer], [pickColor],
    [ensureUniqueColors], [updateRow], [addRow], ...) together with the
    properties that the specification states about them.

    Conventions of the embedding:
    - a JavaScript number is a value of [num]: a rational, one of the two
      infinities, or NaN.  Arithmetic on finite values is exact (the rounding
      of IEEE doubles is not modelled, and the two zeros are identified);
      the behaviour of [Math.min], [Math.max], [<], [||] and [isFinite] on
      the special values is the one of ECMAScript;
    - a JavaScript string is the list of its UTF-16 code units;
    - React state and refs are fields of one record [App]; every handler is
      a function on it, and [setRows (prev => f prev)] is applied at once. *)

From Stdlib Require Import ZArith QArith Qround Lqa Lia List String Ascii DecimalString.
From Stdlib Require DecimalZ.
From stdpp Require Import base list gmap.

Local Open Scope Z_scope.

(** ** JavaScript numbers *)

Module JS.

Inductive num : Type :=
  | NaN
  | NInf
  | Fin (q : Q)
  | PInf.

Definition Qltb (a b : Q) : bool := negb (Qle_bool b a).

(** [x + y] *)
Definition add (x y : num) : num :=
  match x, y with
  | NaN, _ | _, NaN => NaN
  | PInf, NInf | NInf, PInf => NaN
  | PInf, _ | _, PInf => PInf
  | NInf, _ | _, NInf => NInf
  | Fin a, Fin b => Fin (a + b)
  end.

(** [-x] *)
Definition neg (x : num) : num :=
  match x with
  | NaN => NaN
  | NInf => PInf
  | PInf => NInf
  | Fin a => Fin (- a)
  end.

(** [x - y] *)
Definition sub (x y : num) : num := add x (neg y).

Definition Qsgn (a : Q) : Z := Z.sgn (Qnum a).

(** the sign of a number that is not NaN *)
Definition sgn (x : num) : Z :=
  match x with
  | NaN => 0
  | NInf => -1
  | PInf => 1
  | Fin a => Qsgn a
  end.

Definition inf_of_sign (s : Z) : num :=
  if (s =? 0)%Z then NaN else if (0 <? s)%Z then PInf else NInf.

(** [x * y] *)
Definition mul (x y : num) : num :=
  match x, y with
  | NaN, _ | _, NaN => NaN
  | Fin a, Fin b => Fin (a * b)
  | _, _ => inf_of_sign (sgn x * sgn y)
  end.

(** [x < y] *)
Definition lt (x y : num) : bool :=
  match x, y with
  | NaN, _ | _, NaN => false
  | _, NInf => false
  | NInf, _ => true
  | PInf, _ => false
  | _, PInf => true
  | Fin a, Fin b => Qltb a b
  end.

(** [x > y] *)
Definition gt (x y : num) : bool := lt y x.

(** [x >= y] *)
Definition ge (x y : num) : bool :=
  match x, y with
  | NaN, _ | _, NaN => false
  | _, _ => negb (lt x y)
  end.

(** [Math.min(x, y)] *)
Definition Math_min (x y : num) : num :=
  match x, y with
  | NaN, _ | _, NaN => NaN
  | _, _ => if lt y x then y else x
  end.

(** [Math.max(x, y)] *)
Definition Math_max (x y : num) : num :=
  match x, y with
  | NaN, _ | _, NaN => NaN
  | _, _ => if lt x y then y else x
  end.

(** [Math.floor(x)] *)
Definition Math_floor (x : num) : num :=
  match x with
  | Fin a => Fin (inject_Z (Qfloor a))
  | _ => x
  end.

(** [isFinite(x)] *)
Definition isFinite (x : num) : bool :=
  match x with
  | Fin _ => true
  | _ => false
  end.

(** ToBoolean on a number: [0] and [NaN] are falsy. *)
Definition truthy (x : num) : bool :=
  match x with
  | NaN => false
  | Fin a => negb (Qeq_bool a 0)
  | _ => true
  end.

(** [x || y] on numbers *)
Definition or (x y : num) : num := if truthy x then x else y.

Definition of_Z (z : Z) : num := Fin (inject_Z z).

(** Truncation of a rational towards zero. *)
Definition Qtrunc (a : Q) : Z := Z.quot (Qnum a) (Z.pos (Qden a)).

(** ToIntegerOrInfinity followed by the reduction modulo [2^w]
    (ToUint8, ToUint16, ToUint32; ToInt16 is the same bit pattern). *)
Definition to_uint (w : Z) (x : num) : Z :=
  match x with
  | Fin a => Qtrunc a mod 2 ^ w
  | _ => 0
  end.

(** The order of the numbers as a proposition: [x <= y], false as soon
    as one side is NaN. *)
Definition le (x y : num) : Prop :=
  match x, y with
  | NaN, _ | _, NaN => False
  | NInf, _ => True
  | _, PInf => True
  | Fin a, Fin b => (a <= b)%Q
  | _, _ => False
  end.

(** Equality of numbers as values ([Fin] up to equality of rationals). *)
Definition eqv (x y : num) : Prop :=
  match x, y with
  | NaN, NaN | NInf, NInf | PInf, PInf => True
  | Fin a, Fin b => (a == b)%Q
  | _, _ => False
  end.

Definition is_nan (x : num) : bool :=
  match x with NaN => true | _ => false end.

End JS.

Import JS.


(** ** JavaScript strings

    A string is the list of its UTF-16 code units.  [lit] embeds an ASCII
    literal of the source. *)

Abbreviation jsstring := (list N).

Definition lit (s : string) : jsstring :=
  List.map N_of_ascii (list_ascii_of_string s).

(** Number.prototype.toString on an integer (decimal digits, a leading
    minus sign for negatives). *)
Definition Z_toString (z : Z) : jsstring :=
  lit (NilZero.string_of_int (Z.to_int z)).

(** [s.lastIndexOf(c)] for a one-character search string: the index of the
    last occurrence, [-1] when there is none. *)
Fixpoint lastIndexOf_from (i : Z) (acc : Z) (s : jsstring) (c : N) : Z :=
  match s with
  | [] => acc
  | x :: s' => lastIndexOf_from (i + 1) (if (x =? c)%N then i else acc) s' c
  end.

Definition lastIndexOf (s : jsstring) (c : N) : Z := lastIndexOf_from 0 (-1) s c.

(** [s.slice(0, i)] for [0 <= i] *)
Definition slice0 (s : jsstring) (i : Z) : jsstring := take (Z.to_nat i) s.

(** The class [\s] of ECMAScript regular expressions: WhiteSpace and
    LineTerminator code points. *)
Definition is_space (c : N) : bool :=
  ((9 <=? c) && (c <=? 13) || (c =? 32) || (c =? 160) || (c =? 5760)
   || (8192 <=? c) && (c <=? 8202) || (c =? 8232) || (c =? 8233)
   || (c =? 8239) || (c =? 8287) || (c =? 12288) || (c =? 65279))%N.

(** [s.replace(/\s+/g, "_")]: every maximal run of white space becomes one
    underscore.  [in_run] tells that the previous character was white
    space, replaced already. *)
Fixpoint replace_spaces_from (in_run : bool) (s : jsstring) : jsstring :=
  match s with
  | [] => []
  | c :: s' =>
      if is_space c
      then (if in_run then replace_spaces_from true s'
            else 95%N :: replace_spaces_from true s')
      else c :: replace_spaces_from false s'
  end.

Definition replace_spaces (s : jsstring) : jsstring := replace_spaces_from false s.

(** [s || d] on strings: the empty string is falsy. *)
Definition str_or (s d : jsstring) : jsstring :=
  match s with [] => d | _ => s end.

(** ** Helpers of the source *)

Definition LS_PREFIX : jsstring := lit "wavseg:rows:".

Arguments lit : simpl never.
Arguments LS_PREFIX : simpl never.

Definition COLORS : list jsstring :=
  [ lit "#22c55e55"; lit "#3b82f655"; lit "#ef444455"; lit "#eab30855";
    lit "#a855f755"; lit "#06b6d455"; lit "#f9731655" ].

Definition baseName (name : jsstring) : jsstring :=
  let i := lastIndexOf name 46%N in
  if (0 <? i)%Z then slice0 name i else name.

(** ** Data model *)

(** A segment, as held in the [rows] state:
    [{id, label, maxLen, start, end, color}]. *)
Module Row.
Record t : Type := mk {
  id : jsstring;
  label : jsstring;
  maxLen : num;
  start : num;
  end_ : num;
  color : jsstring
}.
End Row.

(** A partial update of a segment: each property is present or absent. *)
Module Patch.
Record t : Type := mk {
  id : option jsstring;
  label : option jsstring;
  maxLen : option num;
  start : option num;
  end_ : option num;
  color : option jsstring
}.
End Patch.

(** A region of the waveform view (the options given to [addRegion]). *)
Module Region.
Record t : Type := mk {
  id : jsstring;
  start : num;
  end_ : num;
  color : jsstring;
  drag : bool;
  resize : bool
}.
End Region.

(** A [File] of the browser, as far as the application reads it. *)
Module File.
Record t : Type := mk {
  webkitRelativePath : jsstring;
  name : jsstring;
  size : Z;
  lastModified : Z
}.
End File.

(** A decoded [AudioBuffer]: [channels] holds the sample array of every
    channel ([getChannelData]). *)
Module AudioBuffer.
Record t : Type := mk {
  numberOfChannels : nat;
  sampleRate : num;
  length : nat;
  channels : list (list num)
}.

(** [ab.getChannelData(ch)]; IndexSizeError when there is no such
    channel. *)
Definition getChannelData (ab : t) (ch : nat) : option (list num) :=
  channels ab !! ch.

(** The invariant of an [AudioBuffer] of the Web Audio API: at least one
    channel, every channel holds [length] samples, [length] is an
    [unsigned long], and the sample rate is a positive finite number. *)
Definition wf (ab : t) : Prop :=
  (0 < numberOfChannels ab)%nat
  /\ List.length (channels ab) = numberOfChannels ab
  /\ Forall (fun d => List.length d = length ab) (channels ab)
  /\ Z.of_nat (length ab) < 2 ^ 32
  /\ exists r, sampleRate ab = Fin r /\ (0 < r)%Q.

(** A buffer of silence, as [createBuffer] returns it. *)
Definition silent (c n : nat) (r : num) : t :=
  mk c r n (replicate c (replicate n (Fin 0))).

(** [out.copyToChannel(src, ch, off)]: the samples of [src] that fit are
    written into channel [ch] from index [off]; IndexSizeError when
    there is no such channel. *)
Definition copyToChannel (out : t) (src : list num) (ch off : nat) : option t :=
  match channels out !! ch with
  | Some data =>
      Some (mk (numberOfChannels out) (sampleRate out) (length out)
               (<[ch := list_inserts off src data]> (channels out)))
  | None => None
  end.
End AudioBuffer.

(** The part of a [BaseAudioContext] that the application uses.
    [createBuffer c n r] receives the channel count, the frame count after
    its conversion to [unsigned long], and the sample rate. *)
Module AudioContext.
Record t : Type := mk {
  createBuffer : nat -> nat -> num -> option AudioBuffer.t
}.

(** The context of the Web Audio API: [createBuffer] raises
    NotSupportedError when the channel count or the frame count is zero
    or the sample rate is not a positive finite number, and returns a
    buffer of silence otherwise (limits of an implementation on large
    arguments are not modelled). *)
Definition webaudio : t :=
  mk (fun c n r =>
        if (0 <? c)%nat && (0 <? n)%nat && isFinite r && lt (Fin 0) r
        then Some (AudioBuffer.silent c n r) else None).


(** What the proofs need of a context: a request for at least one
    channel and one frame at a positive finite rate is served with a
    buffer of silence. *)
Definition allocates (ctx : t) : Prop :=
  forall c n r, (0 < c)%nat -> (0 < n)%nat -> isFinite r = true ->
    lt (Fin 0) r = true ->
    createBuffer ctx c n r = Some (AudioBuffer.silent c n r).
End AudioContext.

(** The outcome of a [Blob] constructor: the bytes and the media type. *)
Module Blob.
Record t : Type := mk {
  bytes : list Z;
  type : jsstring
}.
End Blob.

(** ** Loops and typed arrays *)

(** A [for] loop over the elements of [l] whose body may raise. *)
Fixpoint for_each {A S : Type} (l : list A) (body : S -> A -> option S) (s : S)
  : option S :=
  match l with
  | [] => Some s
  | x :: l' =>
      match body s x with
      | Some s' => for_each l' body s'
      | None => None
      end
  end.

(** [arr[i]] read from a typed array and stored into a [Float32Array]: a
    read out of range is [undefined], which is stored as NaN. *)
Definition sample_at (data : list num) (i : nat) : num :=
  match data !! i with Some x => x | None => NaN end.

(** The relative index of [subarray] and [slice]: ToIntegerOrInfinity,
    a negative index counts from the end, and the result is clamped to
    [0, len]. *)
Definition rel_index (x : num) (len : nat) : nat :=
  match x with
  | NaN | NInf => 0%nat
  | PInf => len
  | Fin q =>
      let k := Qtrunc q in
      if (k <? 0)%Z then Z.to_nat (Z.max (Z.of_nat len + k) 0)
      else Z.to_nat (Z.min k (Z.of_nat len))
  end.

(** [data.subarray(b, e)] *)
Definition subarray (data : list num) (b e : num) : list num :=
  let bi := rel_index b (List.length data) in
  let ei := rel_index e (List.length data) in
  take (ei - bi) (drop bi data).

(** ** DataView *)

(** The [n] bytes of [v], least significant first. *)
Definition le_bytes (n : nat) (v : Z) : list Z :=
  List.map (fun k => (v / 256 ^ Z.of_nat k) mod 256) (seq 0 n).

Definition ordered (littleEndian : bool) (bs : list Z) : list Z :=
  if littleEndian then bs else rev bs.

(** Writing bytes at an offset; RangeError when they do not fit. *)
Definition set_bytes (view : list Z) (off : nat) (bs : list Z) : option (list Z) :=
  if (off + List.length bs <=? List.length view)%nat
  then Some (list_inserts off bs view) else None.

Definition setUint8 (view : list Z) (off : nat) (v : num) : option (list Z) :=
  set_bytes view off [to_uint 8 v].

Definition setUint16 (view : list Z) (off : nat) (v : num) (littleEndian : bool)
  : option (list Z) :=
  set_bytes view off (ordered littleEndian (le_bytes 2 (to_uint 16 v))).

Definition setUint32 (view : list Z) (off : nat) (v : num) (littleEndian : bool)
  : option (list Z) :=
  set_bytes view off (ordered littleEndian (le_bytes 4 (to_uint 32 v))).

(** ToInt16 and ToUint16 give the same two bytes (two's complement). *)
Definition setInt16 (view : list Z) (off : nat) (v : num) (littleEndian : bool)
  : option (list Z) :=
  set_bytes view off (ordered littleEndian (le_bytes 2 (to_uint 16 v))).

(** Reading back: the unsigned value of [n] bytes, least significant
    first, and the readers of a [DataView]. *)
Fixpoint le_value (bs : list Z) : Z :=
  match bs with
  | [] => 0
  | b :: bs' => b + 256 * le_value bs'
  end.

Definition get_bytes (view : list Z) (off n : nat) : option (list Z) :=
  if (off + n <=? List.length view)%nat
  then Some (take n (drop off view)) else None.

Definition getUint (n : nat) (view : list Z) (off : nat) (littleEndian : bool)
  : option Z :=
  match get_bytes view off n with
  | Some bs => Some (le_value (ordered littleEndian bs))
  | None => None
  end.

Definition getUint16 := getUint 2.
Definition getUint32 := getUint 4.

Definition getInt16 (view : list Z) (off : nat) (littleEndian : bool) : option Z :=
  match getUint 2 view off littleEndian with
  | Some u => Some (if (u <? 32768)%Z then u else u - 65536)
  | None => None
  end.

(** ** WAV encoder (PCM16) *)

(** [writeString(offset, str)] of [audioBufferToWav]. *)
Fixpoint writeString (view : list Z) (offset : nat) (str : jsstring)
  : option (list Z) :=
  match str with
  | [] => Some view
  | c :: str' =>
      match setUint8 view offset (of_Z (Z.of_N c)) with
      | Some view' => writeString view' (S offset) str'
      | None => None
      end
  end.

(** The body of the inner loop of the interleaving:
    [interleaved[i * numChannels + ch] = data[i]]. *)
Definition store_sample (numChannels ch : nat) (data interleaved : list num)
    (i : nat) : list num :=
  <[(i * numChannels + ch)%nat := sample_at data i]> interleaved.

(** The inner loop, over the frames. *)
Definition interleave_channel (numChannels numFrames ch : nat)
    (data interleaved : list num) : list num :=
  foldl (store_sample numChannels ch data) interleaved (seq 0 numFrames).

(** The interleaving loop over the channels. *)
Definition interleave (ab : AudioBuffer.t) : option (list num) :=
  let numChannels := AudioBuffer.numberOfChannels ab in
  let numFrames := AudioBuffer.length ab in
  for_each (seq 0 numChannels)
    (fun interleaved ch =>
       match AudioBuffer.getChannelData ab ch with
       | Some data => Some (interleave_channel numChannels numFrames ch data interleaved)
       | None => None
       end)
    (replicate (numFrames * numChannels) (Fin 0)).

(** One step of the conversion loop: the sample is clamped, scaled and
    written at [offset], which advances by two. *)
Definition write_sample (interleaved : list num) (st : list Z * nat) (i : nat)
  : option (list Z * nat) :=
  let '(view, offset) := st in
  let s := Math_max (Fin (-1)) (Math_min (Fin 1) (sample_at interleaved i)) in
  match setInt16 view offset
          (if lt s (Fin 0) then mul s (Fin 32768) else mul s (Fin 32767)) true with
  | Some view' => Some (view', (offset + 2)%nat)
  | None => None
  end.

Definition of_nat (n : nat) : num := of_Z (Z.of_nat n).

Definition bind {A B : Type} (m : option A) (k : A -> option B) : option B :=
  match m with Some a => k a | None => None end.

Notation "'do' x <- m ; k" := (bind m (fun x => k))
  (at level 10, x name, m at level 100, k at level 200).

Definition audioBufferToWav (ab : AudioBuffer.t) : option Blob.t :=
  let numChannels := AudioBuffer.numberOfChannels ab in
  let sampleRate := AudioBuffer.sampleRate ab in
  do interleaved <- interleave ab;
  let len := List.length interleaved in
  let buffer := replicate (44 + len * 2) 0 in
  do view <- writeString buffer 0 (lit "RIFF");
  do view <- setUint32 view 4 (add (Fin 36) (mul (of_nat len) (Fin 2))) true;
  do view <- writeString view 8 (lit "WAVE");
  do view <- writeString view 12 (lit "fmt ");
  do view <- setUint32 view 16 (Fin 16) true;
  do view <- setUint16 view 20 (Fin 1) true;
  do view <- setUint16 view 22 (of_nat numChannels) true;
  do view <- setUint32 view 24 sampleRate true;
  let byteRate := mul (mul sampleRate (of_nat numChannels)) (Fin 2) in
  do view <- setUint32 view 28 byteRate true;
  do view <- setUint16 view 32 (mul (of_nat numChannels) (Fin 2)) true;
  do view <- setUint16 view 34 (Fin 16) true;
  do view <- writeString view 36 (lit "data");
  do view <- setUint32 view 40 (mul (of_nat len) (Fin 2)) true;
  do st <- for_each (seq 0 len) (write_sample interleaved) (view, 44%nat);
  Some (Blob.mk (fst st) (lit "audio/wav")).

(** ** Buffer slicer *)

(** The conversion of a number to the [unsigned long] of Web IDL. *)
Definition to_unsigned_long (x : num) : nat := Z.to_nat (to_uint 32 x).

(** One step of the copy loop of [sliceBuffer]. *)
Definition copy_channel (ab : AudioBuffer.t) (start end_ : num)
    (out : AudioBuffer.t) (ch : nat) : option AudioBuffer.t :=
  do data <- AudioBuffer.getChannelData ab ch;
  AudioBuffer.copyToChannel out (subarray data start end_) ch 0.

Definition sliceBuffer (ctx : AudioContext.t) (ab : AudioBuffer.t)
    (startSec endSec : num) : option AudioBuffer.t :=
  let start := Math_max (Fin 0) (Math_floor (mul startSec (AudioBuffer.sampleRate ab))) in
  let end_ := Math_min (Math_floor (mul endSec (AudioBuffer.sampleRate ab)))
                       (of_nat (AudioBuffer.length ab)) in
  let frames := Math_max (Fin 0) (sub end_ start) in
  do out <- AudioContext.createBuffer ctx (AudioBuffer.numberOfChannels ab)
              (to_unsigned_long frames) (AudioBuffer.sampleRate ab);
  for_each (seq 0 (AudioBuffer.numberOfChannels ab)) (copy_channel ab start end_) out.

(** ** Colors *)

(** [COLORS[0]] *)
Definition COLORS_0 : jsstring :=
  match COLORS !! 0%nat with Some c => c | None => [] end.

(** [COLORS.find(c => !used.has(c)) || COLORS[0]] *)
Definition first_free (used : gset jsstring) : jsstring :=
  match List.find (fun c => negb (bool_decide (c ∈ used))) COLORS with
  | Some c => c
  | None => COLORS_0
  end.

(** [pickColor(rowsArr)]; a null argument stands for the empty list. *)
Definition pickColor (rowsArr : option (list Row.t)) : jsstring :=
  let used : gset jsstring :=
    list_to_set (List.map Row.color (match rowsArr with Some l => l | None => [] end)) in
  first_free used.

Definition with_color (r : Row.t) (c : jsstring) : Row.t :=
  Row.mk (Row.id r) (Row.label r) (Row.maxLen r) (Row.start r) (Row.end_ r) c.

(** The color that the callback of [ensureUniqueColors] gives to [r]
    when the colors of [used] are taken. *)
Definition unique_color (used : gset jsstring) (r : Row.t) : jsstring :=
  if negb (bool_decide (Row.color r = []))
     && bool_decide (Row.color r ∈ COLORS)
     && negb (bool_decide (Row.color r ∈ used))
  then Row.color r
  else first_free used.

(** The [map] of [ensureUniqueColors], with the set [used] that its
    callback updates passed along. *)
Fixpoint ensureUniqueColors_from (used : gset jsstring) (rowsArr : list Row.t)
  : list Row.t :=
  match rowsArr with
  | [] => []
  | r :: rest =>
      let c := unique_color used r in
      with_color r c :: ensureUniqueColors_from ({[c]} ∪ used) rest
  end.

Definition ensureUniqueColors (rowsArr : list Row.t) : list Row.t :=
  ensureUniqueColors_from ∅ rowsArr.

(** ** The platform *)

(** A value read back from the durable storage by [JSON.parse]. *)
Inductive json : Type :=
  | JNull
  | JArray (rows : list Row.t)
  | JOther.

(** What the application uses of the browser and is not fixed by the
    source: the JSON serialisation of a segment list, its parser
    ([None] for a syntax error), the quota of the storage ([fits] tells
    whether a content may be stored), and the audio context that
    [new AudioContext()] yields. *)
Module Platform.
Record t : Type := mk {
  JSON_stringify : list Row.t -> jsstring;
  JSON_parse : jsstring -> option json;
  fits : gmap jsstring jsstring -> bool;
  newAudioContext : AudioContext.t
}.
End Platform.

(** The waveform player, as far as the application reads it. *)
Module WaveSurfer.
Record t : Type := mk { getDuration : num }.
End WaveSurfer.

(** ** The application state *)

Definition DEFAULT_MAX_LEN : num := Fin 1.
Definition MIN_LEN : num := Fin (1 # 2).
Definition MAX_LEN : num := Fin 5.
Definition MAX_REGIONS : nat := 7.

(** The text of the notice of [addRow]. *)
Definition MAX_REGIONS_NOTICE : jsstring :=
  [44396; 44036; 51008; 32; 52572; 45824; 32; 55; 44060; 44620; 51648; 47564;
   32; 52628; 44032; 54624; 32; 49688; 32; 51080; 50612; 50836; 46]%N.

(** The React state of [App], its refs, and what it has done to its
    environment (storage, notices, downloads). *)
Record App : Type := mkApp {
  files : list File.t;
  current : nat;
  audioBuffer : option AudioBuffer.t;
  duration : num;
  rows : list Row.t;
  wsRef : option WaveSurfer.t;
  regionsRef : option (list Region.t);
  acRef : option AudioContext.t;
  seedOnReadyRef : bool;
  rowsShadowRef : list Row.t;
  isRestoringRef : bool;
  pendingRowsRef : option (list Row.t);
  fileRowsRef : gmap jsstring (list Row.t);
  localStorage : gmap jsstring jsstring;
  warnings : nat;
  alerts : list jsstring;
  downloads : list (jsstring * Blob.t)
}.

(** The result of a handler: it returns, or an exception leaves it. The
    state tells what it had done until then. *)
Inductive outcome : Type :=
  | Returned (s : App)
  | Raised (s : App).

Definition state_of (o : outcome) : App :=
  match o with Returned s | Raised s => s end.

Definition set_rows (s : App) (v : list Row.t) : App :=
  mkApp (files s) (current s) (audioBuffer s) (duration s) v (wsRef s)
        (regionsRef s) (acRef s) (seedOnReadyRef s) (rowsShadowRef s)
        (isRestoringRef s) (pendingRowsRef s) (fileRowsRef s) (localStorage s)
        (warnings s) (alerts s) (downloads s).

Definition set_regions (s : App) (v : option (list Region.t)) : App :=
  mkApp (files s) (current s) (audioBuffer s) (duration s) (rows s) (wsRef s)
        v (acRef s) (seedOnReadyRef s) (rowsShadowRef s)
        (isRestoringRef s) (pendingRowsRef s) (fileRowsRef s) (localStorage s)
        (warnings s) (alerts s) (downloads s).

Definition set_isRestoring (s : App) (v : bool) : App :=
  mkApp (files s) (current s) (audioBuffer s) (duration s) (rows s) (wsRef s)
        (regionsRef s) (acRef s) (seedOnReadyRef s) (rowsShadowRef s)
        v (pendingRowsRef s) (fileRowsRef s) (localStorage s)
        (warnings s) (alerts s) (downloads s).

Definition set_files (s : App) (v : list File.t) : App :=
  mkApp v (current s) (audioBuffer s) (duration s) (rows s) (wsRef s)
        (regionsRef s) (acRef s) (seedOnReadyRef s) (rowsShadowRef s)
        (isRestoringRef s) (pendingRowsRef s) (fileRowsRef s) (localStorage s)
        (warnings s) (alerts s) (downloads s).

Definition set_current (s : App) (v : nat) : App :=
  mkApp (files s) v (audioBuffer s) (duration s) (rows s) (wsRef s)
        (regionsRef s) (acRef s) (seedOnReadyRef s) (rowsShadowRef s)
        (isRestoringRef s) (pendingRowsRef s) (fileRowsRef s) (localStorage s)
        (warnings s) (alerts s) (downloads s).

Definition set_audioBuffer (s : App) (v : option AudioBuffer.t) : App :=
  mkApp (files s) (current s) v (duration s) (rows s) (wsRef s)
        (regionsRef s) (acRef s) (seedOnReadyRef s) (rowsShadowRef s)
        (isRestoringRef s) (pendingRowsRef s) (fileRowsRef s) (localStorage s)
        (warnings s) (alerts s) (downloads s).

Definition set_duration (s : App) (v : num) : App :=
  mkApp (files s) (current s) (audioBuffer s) v (rows s) (wsRef s)
        (regionsRef s) (acRef s) (seedOnReadyRef s) (rowsShadowRef s)
        (isRestoringRef s) (pendingRowsRef s) (fileRowsRef s) (localStorage s)
        (warnings s) (alerts s) (downloads s).

Definition set_ws (s : App) (v : option WaveSurfer.t) : App :=
  mkApp (files s) (current s) (audioBuffer s) (duration s) (rows s) v
        (regionsRef s) (acRef s) (seedOnReadyRef s) (rowsShadowRef s)
        (isRestoringRef s) (pendingRowsRef s) (fileRowsRef s) (localStorage s)
        (warnings s) (alerts s) (downloads s).

Definition set_ac (s : App) (v : option AudioContext.t) : App :=
  mkApp (files s) (current s) (audioBuffer s) (duration s) (rows s) (wsRef s)
        (regionsRef s) v (seedOnReadyRef s) (rowsShadowRef s)
        (isRestoringRef s) (pendingRowsRef s) (fileRowsRef s) (localStorage s)
        (warnings s) (alerts s) (downloads s).

Definition set_seedOnReady (s : App) (v : bool) : App :=
  mkApp (files s) (current s) (audioBuffer s) (duration s) (rows s) (wsRef s)
        (regionsRef s) (acRef s) v (rowsShadowRef s)
        (isRestoringRef s) (pendingRowsRef s) (fileRowsRef s) (localStorage s)
        (warnings s) (alerts s) (downloads s).

Definition set_rowsShadow (s : App) (v : list Row.t) : App :=
  mkApp (files s) (current s) (audioBuffer s) (duration s) (rows s) (wsRef s)
        (regionsRef s) (acRef s) (seedOnReadyRef s) v
        (isRestoringRef s) (pendingRowsRef s) (fileRowsRef s) (localStorage s)
        (warnings s) (alerts s) (downloads s).

Definition set_pendingRows (s : App) (v : option (list Row.t)) : App :=
  mkApp (files s) (current s) (audioBuffer s) (duration s) (rows s) (wsRef s)
        (regionsRef s) (acRef s) (seedOnReadyRef s) (rowsShadowRef s)
        (isRestoringRef s) v (fileRowsRef s) (localStorage s)
        (warnings s) (alerts s) (downloads s).

Definition set_fileRows (s : App) (v : gmap jsstring (list Row.t)) : App :=
  mkApp (files s) (current s) (audioBuffer s) (duration s) (rows s) (wsRef s)
        (regionsRef s) (acRef s) (seedOnReadyRef s) (rowsShadowRef s)
        (isRestoringRef s) (pendingRowsRef s) v (localStorage s)
        (warnings s) (alerts s) (downloads s).

Definition set_localStorage (s : App) (v : gmap jsstring jsstring) : App :=
  mkApp (files s) (current s) (audioBuffer s) (duration s) (rows s) (wsRef s)
        (regionsRef s) (acRef s) (seedOnReadyRef s) (rowsShadowRef s)
        (isRestoringRef s) (pendingRowsRef s) (fileRowsRef s) v
        (warnings s) (alerts s) (downloads s).

Definition warn (s : App) : App :=
  mkApp (files s) (current s) (audioBuffer s) (duration s) (rows s) (wsRef s)
        (regionsRef s) (acRef s) (seedOnReadyRef s) (rowsShadowRef s)
        (isRestoringRef s) (pendingRowsRef s) (fileRowsRef s) (localStorage s)
        (S (warnings s)) (alerts s) (downloads s).

(** [alert(msg)] *)
Definition alert (s : App) (msg : jsstring) : App :=
  mkApp (files s) (current s) (audioBuffer s) (duration s) (rows s) (wsRef s)
        (regionsRef s) (acRef s) (seedOnReadyRef s) (rowsShadowRef s)
        (isRestoringRef s) (pendingRowsRef s) (fileRowsRef s) (localStorage s)
        (warnings s) (alerts s ++ [msg]) (downloads s).

(** A click on an anchor with a [download] attribute. *)
Definition download (s : App) (name : jsstring) (blob : Blob.t) : App :=
  mkApp (files s) (current s) (audioBuffer s) (duration s) (rows s) (wsRef s)
        (regionsRef s) (acRef s) (seedOnReadyRef s) (rowsShadowRef s)
        (isRestoringRef s) (pendingRowsRef s) (fileRowsRef s) (localStorage s)
        (warnings s) (alerts s) (downloads s ++ [(name, blob)]).

(** The state before the component is mounted, over a storage left by
    earlier sessions. *)
Definition initial (storage : gmap jsstring jsstring) : App :=
  mkApp [] 0 None (Fin 0) [] None None None false [] false None ∅ storage 0 [] [].

(** ** The handlers of [App] *)

(** [fileKey(f)] *)
Definition fileKey (f : option File.t) : jsstring :=
  match f with
  | Some f =>
      str_or (File.webkitRelativePath f) (File.name f)
        ++ lit "|" ++ Z_toString (File.size f)
        ++ lit "|" ++ Z_toString (File.lastModified f)
  | None => []
  end.

(** [rowsArr.find(r => r.id === id)] *)
Definition find_row (id : jsstring) (l : list Row.t) : option Row.t :=
  List.find (fun r => bool_decide (Row.id r = id)) l.

Definition find_region (id : jsstring) (l : list Region.t) : option Region.t :=
  List.find (fun r => bool_decide (Region.id r = id)) l.

(** [region.remove()] on the region found by its id: the first one that
    bears it leaves the list. *)
Fixpoint remove_region (id : jsstring) (l : list Region.t) : list Region.t :=
  match l with
  | [] => []
  | r :: l' => if bool_decide (Region.id r = id) then l' else r :: remove_region id l'
  end.

(** [reg.setOptions({start, end})] on the region found by its id. *)
Fixpoint setOptions (id : jsstring) (start end_ : num) (l : list Region.t)
  : list Region.t :=
  match l with
  | [] => []
  | r :: l' =>
      if bool_decide (Region.id r = id)
      then Region.mk (Region.id r) start end_ (Region.color r)
                     (Region.drag r) (Region.resize r) :: l'
      else r :: setOptions id start end_ l'
  end.

(** [patch.x ?? y] *)
Definition nullish {A : Type} (o : option A) (d : A) : A :=
  match o with Some a => a | None => d end.

(** [wsRef.current?.getDuration?.() || duration || Infinity] *)
Definition effective_duration (ws : option WaveSurfer.t) (duration : num) : num :=
  or (match ws with
      | Some w => or (WaveSurfer.getDuration w) duration
      | None => duration
      end) PInf.

(** The callback that [updateRow] maps over the rows. *)
Definition applyPatch (dur : num) (id : jsstring) (patch : Patch.t) (r : Row.t)
  : Row.t :=
  if negb (bool_decide (Row.id r = id)) then r else
  let maxAllowed := Math_min MAX_LEN (add dur (Fin 1)) in
  let maxLen := Math_min maxAllowed
                  (Math_max MIN_LEN (nullish (Patch.maxLen patch) (Row.maxLen r))) in
  let start := nullish (Patch.start patch) (Row.start r) in
  let latestStart := Math_max (Fin 0) (sub dur maxLen) in
  let start := if isFinite dur then Math_min start latestStart else start in
  let endCandidate := nullish (Patch.end_ patch) (Row.end_ r) in
  let end_ := Math_min (add start maxLen) (if isFinite dur then dur else endCandidate) in
  Row.mk (nullish (Patch.id patch) (Row.id r))
         (nullish (Patch.label patch) (Row.label r))
         maxLen start end_
         (nullish (Patch.color patch) (Row.color r)).

(** The bounds that [updateRow] gives to the region of the row. *)
Definition region_bounds (dur : num) (patch : Patch.t) (meta : option Row.t)
    (reg : Region.t) : num * num :=
  let maxLen := Math_min MAX_LEN
                  (Math_max MIN_LEN
                     (nullish (Patch.maxLen patch)
                        (match meta with
                         | Some m => Row.maxLen m
                         | None => DEFAULT_MAX_LEN
                         end))) in
  let start := nullish (Patch.start patch) (Region.start reg) in
  let latestStart := Math_max (Fin 0) (sub dur maxLen) in
  let start := if isFinite dur then Math_min start latestStart else start in
  let end_ := Math_min (add start maxLen)
                (if isFinite dur then dur
                 else nullish (Patch.end_ patch) (Region.end_ reg)) in
  (start, end_).

Definition region_of_row (r : Row.t) : Region.t :=
  Region.mk (Row.id r) (Row.start r)
            (Math_min (add (Row.start r) (Row.maxLen r)) (Row.end_ r))
            (Row.color r) true false.

(** [/\.wav$/i.test(name)] *)
Definition is_wav (name : jsstring) : bool :=
  match rev name with
  | v :: a :: w :: dot :: _ =>
      ((dot =? 46) && ((w =? 119) || (w =? 87)) && ((a =? 97) || (a =? 65))
       && ((v =? 118) || (v =? 86)))%N
  | _ => false
  end.

Section Handlers.

Variable P : Platform.t.

(** [loadRowsLS(key)] *)
Definition loadRowsLS (s : App) (key : jsstring) : json :=
  match localStorage s !! (LS_PREFIX ++ key) with
  | Some [] | None => JNull
  | Some str =>
      match Platform.JSON_parse P str with
      | Some v => v
      | None => JNull
      end
  end.

(** [saveRowsLS(key, rows)]: a failure of [setItem] is logged and
    swallowed. *)
Definition saveRowsLS (s : App) (key : jsstring) (rowsArr : list Row.t) : App :=
  let store := <[LS_PREFIX ++ key := Platform.JSON_stringify P rowsArr]> (localStorage s) in
  if Platform.fits P store then set_localStorage s store else warn s.

(** [deleteRowsLS(key)] *)
Definition deleteRowsLS (s : App) (key : jsstring) : App :=
  set_localStorage s (delete (LS_PREFIX ++ key) (localStorage s)).

Definition persistCurrent (s : App) : App :=
  match files s !! current s with
  | None => s
  | Some cur =>
      let key := fileKey (Some cur) in
      let s := set_fileRows s (<[key := rows s]> (fileRowsRef s)) in
      saveRowsLS s key (rows s)
  end.

(** The effect on [rows], [current] and [files] that keeps the cache up
    to date. *)
Definition persist_effect (s : App) : App :=
  if isRestoringRef s then s else persistCurrent s.

Definition clearAllRegions (s : App) : App :=
  match regionsRef s with
  | None => s
  | Some _ => set_rows (set_regions s (Some [])) []
  end.

(** [renderRowsToRegions(rowsToDraw)]; the callback that it leaves to
    [requestAnimationFrame] is the handler [animation_frame]. *)
Definition renderRowsToRegions (s : App) (rowsToDraw : list Row.t) : App :=
  let s := set_isRestoring s true in
  match regionsRef s with
  | None => s
  | Some _ =>
      let s := clearAllRegions s in
      let normalized := take MAX_REGIONS (ensureUniqueColors rowsToDraw) in
      let s := set_regions s
                 (Some (nullish (regionsRef s) [] ++ List.map region_of_row normalized)) in
      set_rows s normalized
  end.

(** The callback given to [requestAnimationFrame]. *)
Definition animation_frame (s : App) : App := set_isRestoring s false.

(** The effect that creates the player and its regions. *)
Definition mount (s : App) : App :=
  set_regions (set_ws s (Some (WaveSurfer.mk (Fin 0)))) (Some []).

(** The handler of [ready]: the player reports the duration [d] of the
    loaded file; [id] is the fresh identifier of the seeded segment. *)
Definition on_ready (s : App) (d : num) (id : jsstring) : App :=
  let s := set_ws s (match wsRef s with Some _ => Some (WaveSurfer.mk d) | None => None end) in
  let s := set_duration s d in
  match pendingRowsRef s with
  | Some (r :: l) =>
      let toDraw := r :: l in
      let s := set_pendingRows s None in
      let s := set_isRestoring s true in
      renderRowsToRegions s toDraw
  | _ =>
      let noRegions := match regionsRef s with
                       | None | Some [] => true
                       | Some _ => false
                       end in
      let noRows := match rowsShadowRef s with [] => true | _ => false end in
      if seedOnReadyRef s || (noRegions && noRows) then
        let s := set_seedOnReady s false in
        let s := set_isRestoring s true in
        let color := COLORS_0 in
        let start := Fin 0 in
        let end_ := Math_min DEFAULT_MAX_LEN d in
        let initial := [Row.mk id [] DEFAULT_MAX_LEN start end_ color] in
        renderRowsToRegions s initial
      else s
  end.

(** The handler of [destroy]. *)
Definition on_destroy (s : App) : App := set_duration s (Fin 0).

(** The handler of [region-updated]: the view reports the region [id]
    at its new bounds. *)
Definition on_region_updated (s : App) (id : jsstring) (start end_ : num) : App :=
  let cur := rowsShadowRef s in
  let maxLen := match find_row id cur with
                | Some meta => Row.maxLen meta
                | None => DEFAULT_MAX_LEN
                end in
  let capped := lt (add start maxLen) end_ in
  let reg_end := if capped then add start maxLen else end_ in
  let s := set_regions s
             (match regionsRef s with
              | Some l => Some (setOptions id start reg_end l)
              | None => None
              end) in
  set_rows s
    (List.map (fun r =>
                 if bool_decide (Row.id r = id)
                 then Row.mk (Row.id r) (Row.label r) (Row.maxLen r) start
                        (Math_min (add start (Row.maxLen r)) reg_end) (Row.color r)
                 else r)
              (rows s)).

(** The value that [loadFile] finds for a key: the in-memory map first,
    the durable storage next. *)
Definition restore (s : App) (key : jsstring) : json :=
  match fileRowsRef s !! key with
  | Some cached => JArray cached
  | None => loadRowsLS s key
  end.

(** [loadFile(file)] up to the decoding, which [on_decoded] completes. *)
Definition loadFile (s : App) (file : File.t) : outcome :=
  let s := set_isRestoring s true in
  let s := clearAllRegions s in
  let key := fileKey (Some file) in
  let cached := restore s key in
  let hasCached := match cached with JArray (_ :: _) => true | _ => false end in
  let s := set_seedOnReady s (negb hasCached) in
  let s := set_pendingRows s
             (match cached with JArray (r :: l) => Some (r :: l) | _ => None end) in
  match wsRef s with
  | None => Raised s
  | Some _ =>
      Returned (match acRef s with
                | None => set_ac s (Some (Platform.newAudioContext P))
                | Some _ => s
                end)
  end.

Definition on_decoded (s : App) (decoded : AudioBuffer.t) : App :=
  set_audioBuffer s (Some decoded).

(** The effect on [current] and [files]. *)
Definition load_effect (s : App) : App :=
  match files s !! current s with
  | Some f => state_of (loadFile s f)
  | None => s
  end.

(** The effect that keeps [rowsShadowRef] equal to [rows]. *)
Definition shadow_effect (s : App) : App := set_rowsShadow s (rows s).

Definition onPickFiles (s : App) (selected : list File.t) : App :=
  let picked := List.filter (fun f => is_wav (File.name f)) selected in
  match picked with
  | [] => s
  | _ =>
      let s' := set_files s (files s ++ picked) in
      match files s with
      | [] => set_current s' 0
      | _ => s'
      end
  end.

Definition canAddRegion (s : App) : bool :=
  match files s !! current s with
  | Some _ => lt (Fin 0) (duration s)
  | None => false
  end.

(** [addRow()]; [id] is the fresh identifier. *)
Definition addRow (s : App) (id : jsstring) : outcome :=
  match wsRef s with
  | None => Returned s
  | Some ws =>
      if negb (canAddRegion s) then Returned s else
      if (MAX_REGIONS <=? List.length (rows s))%nat
      then Returned (alert s MAX_REGIONS_NOTICE)
      else
        let color := pickColor (Some (rowsShadowRef s)) in
        let start := Fin 0 in
        let end_ := Math_min DEFAULT_MAX_LEN (WaveSurfer.getDuration ws) in
        match regionsRef s with
        | None => Raised s
        | Some l =>
            let s := set_regions s (Some (l ++ [Region.mk id start end_ color true false])) in
            Returned (set_rows s (rows s ++ [Row.mk id [] DEFAULT_MAX_LEN start end_ color]))
        end
  end.

Definition updateRow (s : App) (id : jsstring) (patch : Patch.t) : outcome :=
  let dur := effective_duration (wsRef s) (duration s) in
  let curMeta := find_row id (rowsShadowRef s) in
  let s := set_rows s (List.map (applyPatch dur id patch) (rows s)) in
  match regionsRef s with
  | None => Raised s
  | Some l =>
      match find_region id l with
      | None => Returned s
      | Some reg =>
          let meta := match find_row id (rowsShadowRef s) with
                      | Some m => Some m
                      | None => curMeta
                      end in
          let '(start, end_) := region_bounds dur patch meta reg in
          Returned (set_regions s (Some (setOptions id start end_ l)))
      end
  end.

Definition removeRow (s : App) (id : jsstring) : App :=
  match id with
  | [] => s
  | _ =>
      let s := match regionsRef s with
               | Some l => set_regions s (Some (remove_region id l))
               | None => s
               end in
      set_rows s (List.filter (fun r => negb (bool_decide (Row.id r = id))) (rows s))
  end.

(** The name of the file that [saveRow] offers for download. *)
Definition download_name (fileName : jsstring) (r : Row.t) : jsstring :=
  let base := baseName fileName in
  let label := replace_spaces (str_or (Row.label r) (lit "seg")) in
  base ++ lit "_" ++ label ++ lit ".wav".

Definition saveRow (s : App) (r : Row.t) : outcome :=
  match audioBuffer s, files s !! current s with
  | Some ab, Some f =>
      match acRef s with
      | None => Raised s
      | Some ctx =>
          match sliceBuffer ctx ab (Row.start r)
                  (Math_min (add (Row.start r) (Row.maxLen r)) (Row.end_ r)) with
          | None => Raised s
          | Some sliced =>
              match audioBufferToWav sliced with
              | None => Raised s
              | Some blob => Returned (download s (download_name (File.name f) r) blob)
              end
          end
      end
  | _, _ => Returned s
  end.

(** [saveAll()]: the rows are saved one after the other; an exception
    ends the loop. *)
Fixpoint saveRows (s : App) (l : list Row.t) : outcome :=
  match l with
  | [] => Returned s
  | r :: l' =>
      match saveRow s r with
      | Returned s' => saveRows s' l'
      | Raised s' => Raised s'
      end
  end.

Definition saveAll (s : App) : outcome := saveRows s (rows s).

Definition nextFile (s : App) : App :=
  if (current s <? List.length (files s) - 1)%nat then
    let s := persistCurrent s in
    let s := set_isRestoring s true in
    set_current s (current s + 1)
  else s.

(** The click on the entry [i] of the file list. *)
Definition selectFile (s : App) (i : nat) : App :=
  let s := persistCurrent s in
  let s := set_isRestoring s true in
  set_current s i.

(** [files.filter((_, i) => i !== current)] *)
Definition remove_at (i : nat) (l : list File.t) : list File.t :=
  take i l ++ drop (S i) l.

Definition completeAndNext (s : App) : App :=
  match files s with
  | [] => s
  | _ =>
      let curKey := fileKey (files s !! current s) in
      let s := set_fileRows s (delete curKey (fileRowsRef s)) in
      let s := deleteRowsLS s curKey in
      let s := set_isRestoring s true in
      let nextFiles := remove_at (current s) (files s) in
      let cur := current s in
      let s := set_files s nextFiles in
      match nextFiles with
      | [] => clearAllRegions (set_current s 0)
      | _ => set_current s (Nat.min cur (List.length nextFiles - 1))
      end
  end.

(** ** The events of a session *)

Inductive event : Type :=
  | Mount
  | PickFiles (selected : list File.t)
  | LoadEffect
  | Decoded (ab : AudioBuffer.t)
  | Ready (d : num) (id : jsstring)
  | Destroy
  | RegionUpdated (id : jsstring) (start end_ : num)
  | ShadowEffect
  | PersistEffect
  | BeforeUnload
  | AnimationFrame
  | AddRow (id : jsstring)
  | UpdateRow (id : jsstring) (patch : Patch.t)
  | RemoveRow (id : jsstring)
  | SaveRow (r : Row.t)
  | SaveAll
  | NextFile
  | SelectFile (i : nat)
  | CompleteAndNext.

Definition handle (s : App) (e : event) : App :=
  match e with
  | Mount => mount s
  | PickFiles selected => onPickFiles s selected
  | LoadEffect => load_effect s
  | Decoded ab => on_decoded s ab
  | Ready d id => on_ready s d id
  | Destroy => on_destroy s
  | RegionUpdated id start end_ => on_region_updated s id start end_
  | ShadowEffect => shadow_effect s
  | PersistEffect => persist_effect s
  | BeforeUnload => persistCurrent s
  | AnimationFrame => animation_frame s
  | AddRow id => state_of (addRow s id)
  | UpdateRow id patch => state_of (updateRow s id patch)
  | RemoveRow id => removeRow s id
  | SaveRow r => state_of (saveRow s r)
  | SaveAll => state_of (saveAll s)
  | NextFile => nextFile s
  | SelectFile i => selectFile s i
  | CompleteAndNext => completeAndNext s
  end.

(** The states of a session that starts over the storage [storage]. *)
Inductive reachable (storage : gmap jsstring jsstring) : App -> Prop :=
  | reachable_initial : reachable storage (initial storage)
  | reachable_step s e : reachable storage s -> reachable storage (handle s e).

End Handlers.

(** ** Statements of the specification *)


(** A platform for the examples: a storage without quota, a parser that
    reads no value back, and the audio context of the Web Audio API. *)
Definition example_platform : Platform.t :=
  Platform.mk (fun _ => lit "[]") (fun _ => None) (fun _ => true)
              AudioContext.webaudio.

(** The cap of the specification: the segment list of the open file and
    every list that the in-memory cache holds for a file have at most
    [MAX_REGIONS] segments. *)
Definition within_cap (s : App) : Prop :=
  (List.length (rows s) <= MAX_REGIONS)%nat
  /\ forall key cached, fileRowsRef s !! key = Some cached ->
       (List.length cached <= MAX_REGIONS)%nat.

(** The label of the specification: [seg] when the label is empty, and
    every run of white space replaced with one underscore.  The run is
    skipped as a whole; [fuel] bounds the number of characters. *)
Fixpoint skip_spaces (s : jsstring) : jsstring :=
  match s with
  | c :: s' => if is_space c then skip_spaces s' else s
  | [] => []
  end.

Fixpoint replace_runs (fuel : nat) (s : jsstring) : jsstring :=
  match fuel, s with
  | S fuel', c :: s' =>
      if is_space c then 95%N :: replace_runs fuel' (skip_spaces s')
      else c :: replace_runs fuel' s'
  | _, _ => []
  end.

Definition sanitized_label (label : jsstring) : jsstring :=
  let l := match label with [] => lit "seg" | _ => label end in
  replace_runs (List.length l) l.

(** The value that the specification gives for a sample: the sample is
    clamped to [-1, 1], scaled by 32768 when it is negative and by 32767
    otherwise, and converted to an integer (towards zero). An infinite
    sample is clamped like any other; NaN is written as 0. *)
Definition Qclamp (q : Q) : Q :=
  let m := if Qltb q 1 then q else 1%Q in
  if Qltb (-1) m then m else (-1)%Q.

Definition pcm16 (x : num) : Z :=
  match x with
  | NaN => 0
  | NInf => -32768
  | PInf => 32767
  | Fin q =>
      let c := Qclamp q in
      Qtrunc (if Qltb c 0 then c * 32768 else c * 32767)%Q
  end.

(** The number that [audioBufferToWav] gives to [setInt16] for the
    sample [x]. *)
Definition scaled_sample (x : num) : num :=
  let s := Math_max (Fin (-1)) (Math_min (Fin 1) x) in
  if lt s (Fin 0) then mul s (Fin 32768) else mul s (Fin 32767).

(** The bytes of the character codes of an ASCII literal. *)
Definition char_bytes (str : jsstring) : list Z :=
  List.map (fun c => to_uint 8 (of_Z (Z.of_N c))) str.

(** The header and the payload that [audioBufferToWav] builds, in closed
    form. *)
Definition wav_header (numChannels : nat) (sampleRate : num) (len : nat) : list Z :=
  char_bytes (lit "RIFF")
  ++ le_bytes 4 (to_uint 32 (add (Fin 36) (mul (of_nat len) (Fin 2))))
  ++ char_bytes (lit "WAVE")
  ++ char_bytes (lit "fmt ")
  ++ le_bytes 4 (to_uint 32 (Fin 16))
  ++ le_bytes 2 (to_uint 16 (Fin 1))
  ++ le_bytes 2 (to_uint 16 (of_nat numChannels))
  ++ le_bytes 4 (to_uint 32 sampleRate)
  ++ le_bytes 4 (to_uint 32 (mul (mul sampleRate (of_nat numChannels)) (Fin 2)))
  ++ le_bytes 2 (to_uint 16 (mul (of_nat numChannels) (Fin 2)))
  ++ le_bytes 2 (to_uint 16 (Fin 16))
  ++ char_bytes (lit "data")
  ++ le_bytes 4 (to_uint 32 (mul (of_nat len) (Fin 2))).

Definition wav_payload (interleaved : list num) : list Z :=
  List.flat_map (fun x => le_bytes 2 (to_uint 16 (scaled_sample x))) interleaved.

(** The byte of rank [k] of [v]. *)
Definition byte_at (v : Z) (k : nat) : Z := (v / 256 ^ Z.of_nat k) mod 256.

(** A position [x] in frames, clamped to [0, len]. *)
Definition clamp_index (x : num) (len : nat) : nat :=
  match x with
  | NaN | NInf => 0%nat
  | PInf => len
  | Fin q => Z.to_nat (Z.max 0 (Z.min (Qfloor q) (Z.of_nat len)))
  end.

(** The frame index of the specification for the time [t]:
    [floor(t * sampleRate)], clamped to [0, length]. *)
Definition frame_index (ab : AudioBuffer.t) (t : num) : nat :=
  clamp_index (Math_floor (mul t (AudioBuffer.sampleRate ab))) (AudioBuffer.length ab).

(** The slice of the specification: [frames] frames of every channel,
    from the frame [first] on. *)
Definition sliced (ab : AudioBuffer.t) (first frames : nat) : AudioBuffer.t :=
  AudioBuffer.mk (AudioBuffer.numberOfChannels ab) (AudioBuffer.sampleRate ab) frames
    (List.map (fun data => take frames (drop first data)) (AudioBuffer.channels ab)).

(** An integer as a number. *)
Definition zn (z : Z) : num := Fin (inject_Z z).

(** A number that is an integer or infinite. *)
Definition integral (x : num) : Prop :=
  x = NInf \/ x = PInf \/ exists z, x = zn z.

(** ** The export of a segment *)




(** ** The clock of the player *)







(** ** Values for the examples *)

(** Two files of a folder, and a file that is no WAV file. *)
Definition example_file : File.t := File.mk [] (lit "take.wav") 60 0.

Definition example_file2 : File.t := File.mk [] (lit "talk.WAV") 76 1.

Definition example_notes : File.t := File.mk [] (lit "notes.txt") 12 2.

(** Two segments with two colors of the palette. *)
Definition example_row : Row.t :=
  Row.mk (lit "a") (lit "hello") (Fin 1) (Fin 0) (Fin 1) (lit "#22c55e55").

Definition example_row2 : Row.t :=
  Row.mk (lit "b") [] (Fin (1 # 2)) (Fin 1) (Fin 2) (lit "#3b82f655").

Definition example_rows : list Row.t := [example_row; example_row2].

(** Two seconds of one channel at four frames a second. *)
Definition example_buffer : AudioBuffer.t :=
  AudioBuffer.mk 1 (Fin 4) 8
    [[Fin 0; Fin (1 # 2); Fin 1; Fin (-1); Fin (-2); Fin 0; Fin (1 # 4); Fin 3]].

(** A session with the two files, the first one open, decoded and
    ready, with the two segments and their regions. *)
Definition example_state : App :=
  mkApp [example_file; example_file2] 0 (Some example_buffer) (Fin 2) example_rows
        (Some (WaveSurfer.mk (Fin 2))) (Some (List.map region_of_row example_rows))
        (Some AudioContext.webaudio) false example_rows false None ∅ ∅ 0 [] [].

(** A platform whose parser reads the two segments back. *)
Definition example_reader : Platform.t :=
  Platform.mk (fun _ => lit "[a,b]") (fun _ => Some (JArray example_rows))
              (fun _ => true) AudioContext.webaudio.

(** The player and its regions are created together: where there is a
    player, there are regions. *)
Definition mounted_together (s : App) : Prop :=
  wsRef s <> None -> regionsRef s <> None.

(** ** The fields of a segment *)



(** * Properties *)

(** ** Numbers *)

Lemma Qltb_lt a b : Qltb a b = true <-> (a < b)%Q.
Proof.
  unfold Qltb. rewrite negb_true_iff.
  split; intros H.
  - apply Qnot_le_lt. intros Hle. apply Qle_bool_iff in Hle. congruence.
  - destruct (Qle_bool b a) eqn:E; [|reflexivity].
    apply Qle_bool_iff in E. lra.
Qed.

Lemma Qltb_ge a b : Qltb a b = false <-> (b <= a)%Q.
Proof.
  unfold Qltb. rewrite negb_false_iff. apply Qle_bool_iff.
Qed.

(** Case analysis on every comparison of rationals in the goal. *)
Ltac split_Qltb :=
  repeat match goal with
    | H : Qltb _ _ = true |- _ => apply Qltb_lt in H
    | H : Qltb _ _ = false |- _ => apply Qltb_ge in H
    | |- context [Qltb ?a ?b] => destruct (Qltb a b) eqn:?
    | H : context [Qltb ?a ?b] |- _ => destruct (Qltb a b) eqn:?
    end.

Ltac unfold_num :=
  cbv beta iota zeta delta
    [add sub neg Math_min Math_max lt gt ge le isFinite is_nan nullish
     MIN_LEN MAX_LEN DEFAULT_MAX_LEN] in *.

Ltac num_solve :=
  unfold_num; split_Qltb; unfold_num;
  try solve [ exact I | discriminate | contradiction | lra | tauto ].

Lemma le_refl x : is_nan x = false -> le x x.
Proof. destruct x; num_solve. Qed.

Lemma Math_min_le_l x y : is_nan x = false -> is_nan y = false -> le (Math_min x y) x.
Proof. destruct x, y; num_solve. Qed.

Lemma Math_min_le_r x y : is_nan x = false -> is_nan y = false -> le (Math_min x y) y.
Proof. destruct x, y; num_solve. Qed.


(** ** The segment constraints of [updateRow] *)

Lemma applyPatch_other dur id patch r :
  Row.id r <> id -> applyPatch dur id patch r = r.
Proof.
  intros H. unfold applyPatch. rewrite bool_decide_eq_false_2; auto.
Qed.





(** ** Colors *)

Lemma COLORS_NoDup : NoDup COLORS.
Proof. apply (bool_decide_unpack _). vm_compute. exact I. Qed.

Lemma COLORS_length : List.length COLORS = 7%nat.
Proof. reflexivity. Qed.

Lemma COLORS_0_in : COLORS_0 ∈ COLORS.
Proof. apply list_elem_of_lookup. exists 0%nat. reflexivity. Qed.

(** [find] returns the first element that satisfies the test. *)
Lemma find_first {A} (p : A -> bool) (l : list A) i c :
  l !! i = Some c -> p c = true ->
  (forall j c', (j < i)%nat -> l !! j = Some c' -> p c' = false) ->
  List.find p l = Some c.
Proof.
  revert i. induction l as [|x l IH]; intros i Hi Hp Hbefore; [discriminate|].
  destruct i as [|i]; simpl in *.
  - injection Hi as ->. rewrite Hp. reflexivity.
  - rewrite (Hbefore 0%nat x) by (lia || reflexivity).
    apply (IH i Hi Hp). intros j c' Hj Hc'.
    apply (Hbefore (S j) c'); [lia | exact Hc'].
Qed.

Lemma find_none_all {A} (p : A -> bool) (l : list A) :
  (forall c, c ∈ l -> p c = false) -> List.find p l = None.
Proof.
  induction l as [|x l IH]; intros H; [reflexivity|]. simpl.
  rewrite (H x) by constructor. apply IH. intros c Hc. apply H. now constructor.
Qed.

Lemma first_free_in used : first_free used ∈ COLORS.
Proof.
  unfold first_free.
  destruct (List.find _ COLORS) as [c|] eqn:E.
  - apply find_some in E as [E _]. now apply list_elem_of_In.
  - apply COLORS_0_in.
Qed.

(** Below seven colors in use, [first_free] finds one that is free. *)
Lemma first_free_fresh (used : gset jsstring) :
  (size used < 7)%nat -> first_free used ∉ used.
Proof.
  intros Hsize. unfold first_free.
  destruct (List.find _ COLORS) as [c|] eqn:E.
  - apply find_some in E as [_ E].
    rewrite negb_true_iff, bool_decide_eq_false in E. exact E.
  - exfalso.
    assert (Hsub : list_to_set (C := gset jsstring) COLORS ⊆ used).
    { intros c Hc. apply elem_of_list_to_set in Hc.
      apply list_elem_of_In in Hc.
      pose proof (find_none _ _ E c Hc) as Hn. simpl in Hn.
      rewrite negb_false_iff, bool_decide_eq_true in Hn. exact Hn. }
    apply subseteq_size in Hsub.
    rewrite (size_list_to_set COLORS COLORS_NoDup) in Hsub.
    rewrite COLORS_length in Hsub. lia.
Qed.

(** C8: [pickColor] returns the first color of the palette of seven that no
    segment of the list bears, and the first color of the palette when
    every one of them is borne. *)
Theorem pickColor_first_unused (rowsArr : list Row.t) :
  List.length COLORS = 7%nat
  /\ (forall i c,
        COLORS !! i = Some c ->
        c ∉ List.map Row.color rowsArr ->
        (forall j c', (j < i)%nat -> COLORS !! j = Some c' ->
                      c' ∈ List.map Row.color rowsArr) ->
        pickColor (Some rowsArr) = c)
  /\ ((forall c, c ∈ COLORS -> c ∈ List.map Row.color rowsArr) ->
      COLORS !! 0%nat = Some (pickColor (Some rowsArr))).
Proof.
  split; [reflexivity|]. split.
  - intros i c Hi Hc Hbefore. unfold pickColor, first_free.
    rewrite (find_first _ COLORS i c Hi); [reflexivity| |].
    + rewrite negb_true_iff, bool_decide_eq_false.
      now rewrite elem_of_list_to_set.
    + intros j c' Hj Hc'. rewrite negb_false_iff, bool_decide_eq_true.
      rewrite elem_of_list_to_set. eauto.
  - intros Hall. unfold pickColor, first_free.
    rewrite find_none_all; [reflexivity|].
    intros c Hc. rewrite negb_false_iff, bool_decide_eq_true.
    rewrite elem_of_list_to_set. auto.
Qed.

Lemma pickColor_first_unused_witness :
  pickColor (Some [Row.mk (lit "a") [] (Fin 1) (Fin 0) (Fin 1) (lit "#22c55e55")])
  = lit "#3b82f655".
Proof.
  apply (proj1 (proj2 (pickColor_first_unused
           [Row.mk (lit "a") [] (Fin 1) (Fin 0) (Fin 1) (lit "#22c55e55")])) 1%nat).
  - reflexivity.
  - apply (bool_decide_unpack _). vm_compute. exact I.
  - intros [|j] c' Hj Hc'; [|lia]. injection Hc' as <-.
    apply (bool_decide_unpack _). vm_compute. exact I.
Defined.

Lemma unique_color_in used r : unique_color used r ∈ COLORS.
Proof.
  unfold unique_color.
  destruct (bool_decide (Row.color r ∈ COLORS)) eqn:E.
  - rewrite bool_decide_eq_true in E.
    destruct (_ && _ && _); [exact E | apply first_free_in].
  - rewrite andb_false_r. apply first_free_in.
Qed.

Lemma unique_color_fresh (used : gset jsstring) r :
  (size used < 7)%nat -> unique_color used r ∉ used.
Proof.
  intros Hsize. unfold unique_color.
  destruct (bool_decide (Row.color r ∈ used)) eqn:E.
  - rewrite andb_false_r. now apply first_free_fresh.
  - rewrite bool_decide_eq_false in E.
    destruct (_ && _ && _); [exact E | now apply first_free_fresh].
Qed.

Lemma unique_color_keep (used : gset jsstring) r :
  Row.color r ∈ COLORS -> Row.color r ∉ used -> unique_color used r = Row.color r.
Proof.
  intros Hin Hfree. unfold unique_color.
  rewrite (bool_decide_eq_true_2 _ Hin), (bool_decide_eq_false_2 _ Hfree).
  destruct (bool_decide (Row.color r = [])) eqn:E; [|reflexivity].
  rewrite bool_decide_eq_true in E. rewrite E in Hin.
  exfalso. revert Hin. apply (bool_decide_unpack _). vm_compute. exact I.
Qed.

Lemma ensureUniqueColors_from_length used l :
  List.length (ensureUniqueColors_from used l) = List.length l.
Proof.
  revert used. induction l as [|r l IH]; intros used; simpl; [reflexivity|].
  now rewrite IH.
Qed.

Lemma ensureUniqueColors_from_palette used l r' :
  r' ∈ ensureUniqueColors_from used l -> Row.color r' ∈ COLORS.
Proof.
  revert used. induction l as [|r l IH]; intros used; simpl; intros H.
  - inversion H.
  - apply elem_of_cons in H as [-> | H]; [apply unique_color_in | eauto].
Qed.

Lemma ensureUniqueColors_from_NoDup (used : gset jsstring) l :
  (size used + List.length l <= 7)%nat ->
  NoDup (List.map Row.color (ensureUniqueColors_from used l))
  /\ forall c, c ∈ List.map Row.color (ensureUniqueColors_from used l) -> c ∉ used.
Proof.
  revert used. induction l as [|r l IH]; intros used Hsize; simpl.
  - split; [constructor | intros c Hc; inversion Hc].
  - simpl in Hsize.
    assert (Hfresh : unique_color used r ∉ used) by (apply unique_color_fresh; lia).
    assert (Hsz : (size ({[unique_color used r]} ∪ used) + List.length l <= 7)%nat).
    { rewrite size_union by (apply disjoint_singleton_l; exact Hfresh).
      rewrite size_singleton. lia. }
    pose proof (IH _ Hsz) as [Hnd Hout].
    split.
    + constructor; [|exact Hnd]. intros Hc. apply Hout in Hc.
      apply Hc, elem_of_union_l, elem_of_singleton. reflexivity.
    + intros c Hc. apply elem_of_cons in Hc as [-> | Hc]; [exact Hfresh|].
      apply Hout in Hc. intros Hu. apply Hc, elem_of_union_r, Hu.
Qed.

Lemma ensureUniqueColors_from_lookup (used : gset jsstring) l i r r' :
  l !! i = Some r -> ensureUniqueColors_from used l !! i = Some r' ->
  r' = with_color r (Row.color r')
  /\ (Row.color r ∈ COLORS -> Row.color r ∉ used ->
      Row.color r ∉ List.map Row.color (take i (ensureUniqueColors_from used l)) ->
      Row.color r' = Row.color r).
Proof.
  revert used i. induction l as [|x l IH]; intros used i Hl Hout; [discriminate|].
  destruct i as [|i]; simpl in *.
  - injection Hl as ->. injection Hout as <-. simpl. split; [reflexivity|].
    intros Hin Hfree _. now apply unique_color_keep.
  - destruct (IH _ _ Hl Hout) as [Heq Hkeep]. split; [exact Heq|].
    intros Hin Hfree Hearlier. apply Hkeep; [exact Hin| |].
    + intros Hc. apply elem_of_union in Hc as [Hc | Hc]; [|contradiction].
      apply elem_of_singleton in Hc. apply Hearlier. rewrite Hc. constructor.
    + intros Hc. apply Hearlier. now constructor.
Qed.

(** C10: on a list of at most seven segments, [ensureUniqueColors] keeps
    the length, gives every segment a color of the palette, gives no color
    twice, keeps the color of a segment when it is a color of the palette
    that no earlier segment of the result bears, and changes no other
    field. *)
Theorem ensureUniqueColors_spec (rowsArr : list Row.t) :
  (List.length rowsArr <= 7)%nat ->
  let out := ensureUniqueColors rowsArr in
  List.length out = List.length rowsArr
  /\ (forall r', r' ∈ out -> Row.color r' ∈ COLORS)
  /\ NoDup (List.map Row.color out)
  /\ (forall i r r', rowsArr !! i = Some r -> out !! i = Some r' ->
        (Row.color r ∈ COLORS ->
         Row.color r ∉ List.map Row.color (take i out) ->
         Row.color r' = Row.color r)
        /\ Row.id r' = Row.id r /\ Row.label r' = Row.label r
        /\ Row.maxLen r' = Row.maxLen r /\ Row.start r' = Row.start r
        /\ Row.end_ r' = Row.end_ r).
Proof.
  intros Hlen out. subst out. unfold ensureUniqueColors.
  split; [apply ensureUniqueColors_from_length|].
  split; [intros r'; apply ensureUniqueColors_from_palette|].
  split.
  - apply ensureUniqueColors_from_NoDup. rewrite size_empty. simpl. lia.
  - intros i r r' Hr Hr'.
    destruct (ensureUniqueColors_from_lookup ∅ rowsArr i r r' Hr Hr') as [Heq Hkeep].
    split.
    + intros Hin Hearlier. apply Hkeep; [exact Hin | set_solver | exact Hearlier].
    + rewrite Heq. simpl. repeat split; reflexivity.
Qed.

Lemma ensureUniqueColors_spec_witness :
  let rowsArr := [ Row.mk (lit "a") [] (Fin 1) (Fin 0) (Fin 1) (lit "#3b82f655");
                   Row.mk (lit "b") [] (Fin 1) (Fin 0) (Fin 1) (lit "#3b82f655") ] in
  NoDup (List.map Row.color (ensureUniqueColors rowsArr)).
Proof.
  intros rowsArr.
  assert (H : (List.length rowsArr <= 7)%nat) by (simpl; lia).
  exact (proj1 (proj2 (proj2 (ensureUniqueColors_spec rowsArr H)))).
Defined.

(** ** The cap on the number of segments: [addRow] *)

(** C5: with seven segments, [addRow] returns without an exception and
    leaves the segments and the regions as they are; called from its
    button (a player exists and [canAddRegion] holds) it does nothing but
    show the notice. *)
Theorem addRow_at_cap (s : App) (id : jsstring) :
  List.length (rows s) = 7%nat ->
  (is_Some (wsRef s) -> canAddRegion s = true ->
   addRow s id = Returned (alert s MAX_REGIONS_NOTICE))
  /\ exists s', addRow s id = Returned s'
       /\ rows s' = rows s /\ List.length (rows s') = 7%nat
       /\ regionsRef s' = regionsRef s
       /\ (s' = s \/ s' = alert s MAX_REGIONS_NOTICE).
Proof.
  intros Hlen. unfold addRow. split.
  - intros [ws Hws] Hcan. rewrite Hws, Hcan, Hlen. reflexivity.
  - destruct (wsRef s) as [ws|]; [|exists s; auto 6].
    destruct (canAddRegion s); simpl; [|exists s; auto 6].
    rewrite Hlen. simpl. exists (alert s MAX_REGIONS_NOTICE). auto 6.
Qed.

Lemma addRow_at_cap_witness :
  let r := Row.mk (lit "a") [] (Fin 1) (Fin 0) (Fin 1) COLORS_0 in
  let f := File.mk [] (lit "a.wav") 44 0 in
  let s := mkApp [f] 0 None (Fin 3) [r; r; r; r; r; r; r]
             (Some (WaveSurfer.mk (Fin 3))) (Some []) None false [] false None
             ∅ ∅ 0 [] [] in
  addRow s (lit "b") = Returned (alert s MAX_REGIONS_NOTICE).
Proof.
  intros r f s.
  apply (proj1 (addRow_at_cap s (lit "b") eq_refl)).
  - eexists. reflexivity.
  - reflexivity.
Defined.

(** ** The per-file cache *)

Lemma LS_key_inj k1 k2 : LS_PREFIX ++ k1 = LS_PREFIX ++ k2 -> k1 = k2.
Proof. apply app_inv_head. Qed.

Lemma clearAllRegions_cache s :
  fileRowsRef (clearAllRegions s) = fileRowsRef s
  /\ localStorage (clearAllRegions s) = localStorage s
  /\ wsRef (clearAllRegions s) = wsRef s.
Proof. unfold clearAllRegions. destruct (regionsRef s); auto. Qed.

Lemma restore_ext P s1 s2 key :
  fileRowsRef s1 = fileRowsRef s2 -> localStorage s1 = localStorage s2 ->
  restore P s1 key = restore P s2 key.
Proof.
  intros H1 H2. unfold restore, loadRowsLS. now rewrite H1, H2.
Qed.

(** What [loadFile] leaves for the [ready] handler is decided by
    [restore] alone. *)
Lemma loadFile_pending P s f :
  pendingRowsRef (state_of (loadFile P s f))
  = match restore P s (fileKey (Some f)) with
    | JArray (r :: l) => Some (r :: l)
    | _ => None
    end
  /\ seedOnReadyRef (state_of (loadFile P s f))
     = match restore P s (fileKey (Some f)) with
       | JArray (_ :: _) => false
       | _ => true
       end.
Proof.
  unfold loadFile.
  set (s1 := clearAllRegions (set_isRestoring s true)).
  assert (Hr : restore P s1 (fileKey (Some f)) = restore P s (fileKey (Some f))).
  { subst s1. apply restore_ext.
    - now rewrite (proj1 (clearAllRegions_cache _)).
    - now rewrite (proj1 (proj2 (clearAllRegions_cache _))). }
  rewrite Hr.
  destruct (restore P s (fileKey (Some f))) as [|[|r l]|]; cbn;
    destruct (wsRef s1); cbn; try destruct (acRef s1); cbn; auto.
Qed.

Lemma persistCurrent_cache P s cur :
  files s !! current s = Some cur ->
  fileRowsRef (persistCurrent P s) = <[fileKey (Some cur) := rows s]> (fileRowsRef s)
  /\ (localStorage (persistCurrent P s) = localStorage s
      \/ localStorage (persistCurrent P s)
         = <[LS_PREFIX ++ fileKey (Some cur) := Platform.JSON_stringify P (rows s)]>
             (localStorage s)).
Proof.
  intros Hcur. unfold persistCurrent, saveRowsLS. rewrite Hcur. cbn.
  destruct (Platform.fits P _); cbn; auto.
Qed.

(** C6: after [persistCurrent] for a file, the restore of [loadFile] for
    the key of that file finds the persisted list itself (every field of
    every segment equal), whatever the storage holds and whether or not
    the write to the storage succeeded; the restore for any other key
    finds what it found before; and [loadFile] hands the persisted list
    to the [ready] handler. *)
Theorem persist_then_restore (P : Platform.t) (s : App) (cur : File.t) :
  files s !! current s = Some cur ->
  let key := fileKey (Some cur) in
  let s' := persistCurrent P s in
  restore P s' key = JArray (rows s)
  /\ (forall other, other <> key -> restore P s' other = restore P s other)
  /\ (forall f, fileKey (Some f) = key ->
        pendingRowsRef (state_of (loadFile P s' f))
        = match rows s with [] => None | _ => Some (rows s) end).
Proof.
  intros Hcur key s'.
  destruct (persistCurrent_cache P s cur Hcur) as [Hmap Hls].
  fold key in Hmap, Hls. fold s' in Hmap, Hls.
  assert (Hsame : restore P s' key = JArray (rows s)).
  { unfold restore. rewrite Hmap, lookup_insert_eq. reflexivity. }
  split; [exact Hsame|]. split.
  - intros other Hne. unfold restore, loadRowsLS.
    rewrite Hmap, lookup_insert_ne by congruence.
    destruct Hls as [-> | ->]; [reflexivity|].
    rewrite lookup_insert_ne; [reflexivity|].
    intros Heq. apply LS_key_inj in Heq. congruence.
  - intros f Hf. rewrite (proj1 (loadFile_pending P s' f)), Hf, Hsame.
    destruct (rows s); reflexivity.
Qed.

Lemma persist_then_restore_witness :
  let r := Row.mk (lit "a") (lit "help") (Fin 1) (Fin 0) (Fin 1) COLORS_0 in
  let f := File.mk [] (lit "a.wav") 44 0 in
  let s := mkApp [f] 0 None (Fin 3) [r]
             (Some (WaveSurfer.mk (Fin 3))) (Some []) None false [r] false None
             ∅ ∅ 0 [] [] in
  restore example_platform (persistCurrent example_platform s) (fileKey (Some f))
  = JArray [r].
Proof.
  intros r f s.
  exact (proj1 (persist_then_restore example_platform s f eq_refl)).
Defined.

(** C7: [completeAndNext] removes the entry of the current file from the
    in-memory map and from the storage; the restore for its key then finds
    nothing, and a later [loadFile] of that file asks for the default
    segment to be seeded. *)
Theorem purge_then_restore (P : Platform.t) (s : App) :
  files s <> [] ->
  let key := fileKey (files s !! current s) in
  let s' := completeAndNext s in
  fileRowsRef s' !! key = None
  /\ localStorage s' !! (LS_PREFIX ++ key) = None
  /\ restore P s' key = JNull
  /\ (forall f, fileKey (Some f) = key ->
        seedOnReadyRef (state_of (loadFile P s' f)) = true
        /\ pendingRowsRef (state_of (loadFile P s' f)) = None).
Proof.
  intros Hfiles key s'.
  assert (Hmap : fileRowsRef s' = delete key (fileRowsRef s)
                 /\ localStorage s' = delete (LS_PREFIX ++ key) (localStorage s)).
  { subst s' key. unfold completeAndNext.
    destruct (files s) as [|f0 fs] eqn:Ef; [contradiction|].
    rewrite <- Ef. cbv zeta.
    destruct (remove_at _ _).
    - rewrite (proj1 (clearAllRegions_cache _)),
        (proj1 (proj2 (clearAllRegions_cache _))). split; reflexivity.
    - split; reflexivity. }
  destruct Hmap as [Hmap Hls].
  assert (Hmap' : fileRowsRef s' !! key = None)
    by (rewrite Hmap; apply lookup_delete_eq).
  assert (Hls' : localStorage s' !! (LS_PREFIX ++ key) = None)
    by (rewrite Hls; apply lookup_delete_eq).
  assert (Hrestore : restore P s' key = JNull).
  { unfold restore, loadRowsLS. rewrite Hmap', Hls'. reflexivity. }
  repeat split; auto.
  - rewrite (proj2 (loadFile_pending P s' f)), H, Hrestore. reflexivity.
  - rewrite (proj1 (loadFile_pending P s' f)), H, Hrestore. reflexivity.
Qed.

Lemma purge_then_restore_witness :
  let r := Row.mk (lit "a") (lit "help") (Fin 1) (Fin 0) (Fin 1) COLORS_0 in
  let f := File.mk [] (lit "a.wav") 44 0 in
  let s := mkApp [f] 0 None (Fin 3) [r]
             (Some (WaveSurfer.mk (Fin 3))) (Some []) None false [r] false None
             {[ fileKey (Some f) := [r] ]}
             {[ LS_PREFIX ++ fileKey (Some f) := lit "[]" ]} 0 [] [] in
  restore example_platform (completeAndNext s) (fileKey (Some f)) = JNull.
Proof.
  intros r f s.
  assert (H : files s <> []) by discriminate.
  exact (proj1 (proj2 (proj2 (purge_then_restore example_platform s H)))).
Defined.

(** ** At most seven segments *)

Section Cap.

Variable P : Platform.t.

Lemma within_cap_ext s s' :
  rows s' = rows s -> fileRowsRef s' = fileRowsRef s ->
  within_cap s -> within_cap s'.
Proof. unfold within_cap. intros -> ->. auto. Qed.

Lemma within_cap_rows s l :
  (List.length l <= MAX_REGIONS)%nat -> within_cap s -> within_cap (set_rows s l).
Proof. unfold within_cap. intros Hl [_ H]. split; [exact Hl | exact H]. Qed.

Lemma within_cap_clearAllRegions s : within_cap s -> within_cap (clearAllRegions s).
Proof.
  intros H. unfold clearAllRegions. destruct (regionsRef s); [|exact H].
  apply within_cap_rows; [simpl; lia|].
  revert H. apply within_cap_ext; reflexivity.
Qed.

Lemma within_cap_renderRowsToRegions s rowsToDraw :
  within_cap s -> within_cap (renderRowsToRegions s rowsToDraw).
Proof.
  intros H. unfold renderRowsToRegions. cbn [regionsRef set_isRestoring].
  destruct (regionsRef s) eqn:E.
  - apply within_cap_rows; [rewrite length_take; unfold MAX_REGIONS; lia|].
    eapply within_cap_ext; [| |apply (within_cap_clearAllRegions (set_isRestoring s true))];
      [reflexivity | reflexivity |].
    revert H. apply within_cap_ext; reflexivity.
  - revert H. apply within_cap_ext; reflexivity.
Qed.

Lemma within_cap_persistCurrent s : within_cap s -> within_cap (persistCurrent P s).
Proof.
  intros [Hrows Hmap]. unfold persistCurrent.
  destruct (files s !! current s) as [cur|]; [|split; assumption].
  unfold saveRowsLS. cbv zeta.
  cbn [localStorage set_fileRows].
  destruct (Platform.fits P _); (split; [exact Hrows|]);
    cbn [fileRowsRef set_localStorage set_fileRows warn];
    intros key cached Hk;
    (apply lookup_insert_Some in Hk as [[_ <-]|[_ Hk]]; [exact Hrows | eauto]).
Qed.

Lemma within_cap_loadFile s f : within_cap s -> within_cap (state_of (loadFile P s f)).
Proof.
  intros H. unfold loadFile.
  set (s1 := clearAllRegions (set_isRestoring s true)).
  assert (H1 : within_cap s1).
  { apply within_cap_clearAllRegions. revert H. apply within_cap_ext; reflexivity. }
  cbv zeta. cbn [wsRef set_pendingRows set_seedOnReady acRef].
  destruct (wsRef s1); [destruct (acRef s1)|]; cbn [state_of];
    revert H1; apply within_cap_ext; reflexivity.
Qed.

Lemma within_cap_on_ready s d id : within_cap s -> within_cap (on_ready s d id).
Proof.
  intros H. unfold on_ready. cbv zeta.
  set (s1 := set_duration _ d).
  assert (H1 : within_cap s1) by (revert H; apply within_cap_ext; reflexivity).
  destruct (pendingRowsRef s1) as [[|r l]|].
  - destruct (_ || _); [|exact H1].
    apply within_cap_renderRowsToRegions.
    revert H1; apply within_cap_ext; reflexivity.
  - apply within_cap_renderRowsToRegions.
    revert H1; apply within_cap_ext; reflexivity.
  - destruct (_ || _); [|exact H1].
    apply within_cap_renderRowsToRegions.
    revert H1; apply within_cap_ext; reflexivity.
Qed.

Lemma within_cap_addRow s id : within_cap s -> within_cap (state_of (addRow s id)).
Proof.
  intros H. unfold addRow.
  destruct (wsRef s); [|exact H].
  destruct (canAddRegion s); [|exact H]. cbn [negb].
  destruct (MAX_REGIONS <=? List.length (rows s))%nat eqn:E.
  - revert H. apply within_cap_ext; reflexivity.
  - apply Nat.leb_gt in E.
    destruct (regionsRef s); [|exact H]. cbn [state_of].
    apply within_cap_rows.
    + rewrite length_app. simpl. lia.
    + revert H. apply within_cap_ext; reflexivity.
Qed.

Lemma within_cap_updateRow s id patch :
  within_cap s -> within_cap (state_of (updateRow s id patch)).
Proof.
  intros H. unfold updateRow. cbv zeta.
  set (s1 := set_rows s _).
  assert (H1 : within_cap s1).
  { apply within_cap_rows; [|exact H]. rewrite length_map. apply H. }
  cbn [regionsRef]. fold s1.
  replace (regionsRef s1) with (regionsRef s) by reflexivity.
  destruct (regionsRef s); [|exact H1].
  destruct (find_region id l); [|exact H1].
  destruct (region_bounds _ _ _ _). cbn [state_of].
  revert H1. apply within_cap_ext; reflexivity.
Qed.

Lemma within_cap_removeRow s id : within_cap s -> within_cap (removeRow s id).
Proof.
  intros H. unfold removeRow. destruct id as [|c id]; [exact H|].
  assert (Hlen : (List.length
                    (List.filter (fun r => negb (bool_decide (Row.id r = c :: id))) (rows s))
                  <= MAX_REGIONS)%nat).
  { etransitivity; [apply List.filter_length_le|apply H]. }
  destruct (regionsRef s); (apply within_cap_rows; [exact Hlen|]);
    revert H; apply within_cap_ext; reflexivity.
Qed.

Lemma saveRow_same s r :
  rows (state_of (saveRow s r)) = rows s
  /\ fileRowsRef (state_of (saveRow s r)) = fileRowsRef s.
Proof.
  unfold saveRow.
  destruct (audioBuffer s), (files s !! current s), (acRef s); auto.
  destruct (sliceBuffer _ _ _ _); auto.
  destruct (audioBufferToWav _); auto.
Qed.

Lemma saveRows_same l : forall s,
  rows (state_of (saveRows s l)) = rows s
  /\ fileRowsRef (state_of (saveRows s l)) = fileRowsRef s.
Proof.
  induction l as [|r l IH]; intros s; simpl; [auto|].
  pose proof (saveRow_same s r) as [H1 H2].
  destruct (saveRow s r) as [s'|s']; simpl in *.
  - destruct (IH s') as [H3 H4]. rewrite H3, H4. auto.
  - auto.
Qed.

Lemma within_cap_completeAndNext s : within_cap s -> within_cap (completeAndNext s).
Proof.
  intros H. unfold completeAndNext. destruct (files s) eqn:Ef; [exact H|].
  rewrite <- Ef. cbv zeta.
  set (s1 := set_files _ _).
  assert (H1 : within_cap s1).
  { destruct H as [Hrows Hmap]. split; [exact Hrows|].
    intros key cached Hk. cbn in Hk.
    apply lookup_delete_Some in Hk as [_ Hk]. eauto. }
  destruct (remove_at _ _).
  - apply within_cap_clearAllRegions. revert H1. apply within_cap_ext; reflexivity.
  - revert H1. apply within_cap_ext; reflexivity.
Qed.

Lemma within_cap_handle s e : within_cap s -> within_cap (handle P s e).
Proof.
  intros H. destruct e; cbn [handle].
  - revert H. apply within_cap_ext; reflexivity.
  - unfold onPickFiles. destruct (List.filter _ _); [exact H|].
    destruct (files s); revert H; apply within_cap_ext; reflexivity.
  - unfold load_effect. destruct (files s !! current s); [|exact H].
    now apply within_cap_loadFile.
  - revert H. apply within_cap_ext; reflexivity.
  - now apply within_cap_on_ready.
  - revert H. apply within_cap_ext; reflexivity.
  - unfold on_region_updated. apply within_cap_rows.
    + rewrite length_map. apply H.
    + revert H. apply within_cap_ext; reflexivity.
  - revert H. apply within_cap_ext; reflexivity.
  - unfold persist_effect. destruct (isRestoringRef s); [exact H|].
    now apply within_cap_persistCurrent.
  - now apply within_cap_persistCurrent.
  - revert H. apply within_cap_ext; reflexivity.
  - now apply within_cap_addRow.
  - now apply within_cap_updateRow.
  - now apply within_cap_removeRow.
  - revert H. apply within_cap_ext; apply saveRow_same.
  - revert H. unfold saveAll. apply within_cap_ext; apply saveRows_same.
  - unfold nextFile. destruct (_ <? _)%nat; [|exact H].
    apply within_cap_persistCurrent in H.
    revert H. apply within_cap_ext; reflexivity.
  - unfold selectFile. apply within_cap_persistCurrent in H.
    revert H. apply within_cap_ext; reflexivity.
  - now apply within_cap_completeAndNext.
Qed.

End Cap.

(** C4: in every state that a session reaches, whatever the storage held
    at its start, the segment list has at most seven segments, and so has
    every list of the in-memory cache; [addRow] leaves at most seven
    segments, and [renderRowsToRegions] leaves at most seven segments
    whatever the list that it is given. *)
Theorem at_most_seven_segments (P : Platform.t) (storage : gmap jsstring jsstring)
    (s : App) :
  reachable P storage s ->
  (List.length (rows s) <= 7)%nat
  /\ (forall key cached, fileRowsRef s !! key = Some cached ->
        (List.length cached <= 7)%nat)
  /\ (forall id, (List.length (rows (state_of (addRow s id))) <= 7)%nat)
  /\ (forall rowsToDraw,
        (List.length (rows (renderRowsToRegions s rowsToDraw)) <= 7)%nat).
Proof.
  intros Hreach.
  assert (H : within_cap s).
  { induction Hreach as [|s e _ IH].
    - split; [simpl; unfold MAX_REGIONS; lia|].
      intros key cached Hk. cbn in Hk. rewrite lookup_empty in Hk. discriminate.
    - now apply within_cap_handle. }
  split; [apply H|]. split; [apply H|]. split.
  - intros id. apply (within_cap_addRow s id H).
  - intros rowsToDraw. apply (within_cap_renderRowsToRegions s rowsToDraw H).
Qed.

Lemma at_most_seven_segments_witness :
  (List.length
     (rows (handle example_platform
              (handle example_platform (initial ∅) Mount)
              (Ready (Fin 3) (lit "a")))) <= 7)%nat.
Proof.
  refine (proj1 (at_most_seven_segments example_platform ∅ _ _)).
  apply reachable_step, reachable_step, reachable_initial.
Defined.

(** ** The name of an exported file *)

Lemma lastIndexOf_from_absent i acc s c :
  c ∉ s -> lastIndexOf_from i acc s c = acc.
Proof.
  revert i acc. induction s as [|x s IH]; intros i acc Hc; simpl; [reflexivity|].
  rewrite not_elem_of_cons in Hc. destruct Hc as [Hx Hs].
  destruct (N.eqb_spec x c); [congruence|]. now apply IH.
Qed.

Lemma lastIndexOf_from_last i acc s1 s2 c :
  c ∉ s2 ->
  lastIndexOf_from i acc (s1 ++ c :: s2) c = i + Z.of_nat (List.length s1).
Proof.
  revert i acc. induction s1 as [|x s1 IH]; intros i acc Hc; simpl.
  - rewrite N.eqb_refl. rewrite lastIndexOf_from_absent by exact Hc. lia.
  - rewrite IH by exact Hc. lia.
Qed.

(** [baseName] drops the last extension of a name, unless nothing comes
    before it. *)
Lemma baseName_stem stem ext :
  stem <> [] -> 46%N ∉ ext -> baseName (stem ++ 46%N :: ext) = stem.
Proof.
  intros Hstem Hext. unfold baseName, lastIndexOf.
  rewrite lastIndexOf_from_last by exact Hext.
  destruct stem as [|x stem]; [contradiction|].
  destruct (Z.ltb_spec 0 (0 + Z.of_nat (List.length (x :: stem)))) as [_|H];
    [|simpl in H; lia].
  unfold slice0. rewrite Z.add_0_l, Nat2Z.id.
  now rewrite take_app_length.
Qed.

Lemma baseName_no_stem ext : 46%N ∉ ext -> baseName (46%N :: ext) = 46%N :: ext.
Proof.
  intros Hext. unfold baseName, lastIndexOf.
  pose proof (lastIndexOf_from_last 0 (-1) [] ext 46%N Hext) as H.
  rewrite app_nil_l in H. rewrite H. reflexivity.
Qed.

Lemma baseName_no_dot name : 46%N ∉ name -> baseName name = name.
Proof.
  intros H. unfold baseName, lastIndexOf.
  now rewrite lastIndexOf_from_absent.
Qed.

Lemma skip_spaces_length s : (List.length (skip_spaces s) <= List.length s)%nat.
Proof.
  induction s as [|c s IH]; simpl; [lia|]. destruct (is_space c); simpl; lia.
Qed.

Lemma replace_spaces_from_true s :
  replace_spaces_from true s = replace_spaces_from false (skip_spaces s).
Proof.
  induction s as [|c s IH]; simpl; [reflexivity|].
  destruct (is_space c) eqn:E; [exact IH|]. simpl. now rewrite E.
Qed.

(** The replacement of the source, which looks at one character at a
    time, is the replacement of whole runs. *)
Lemma replace_spaces_runs fuel s :
  (List.length s <= fuel)%nat -> replace_spaces s = replace_runs fuel s.
Proof.
  unfold replace_spaces. revert s.
  induction fuel as [|fuel IH]; intros s Hlen.
  - destruct s; [reflexivity | simpl in Hlen; lia].
  - destruct s as [|c s]; [reflexivity|]. simpl in *.
    destruct (is_space c).
    + rewrite replace_spaces_from_true. f_equal. apply IH.
      pose proof (skip_spaces_length s). lia.
    + f_equal. apply IH. lia.
Qed.

Lemma replace_spaces_from_no_space b s :
  Forall (fun c => is_space c = false) (replace_spaces_from b s).
Proof.
  revert b. induction s as [|c s IH]; intros b; simpl; [constructor|].
  destruct (is_space c) eqn:E.
  - destruct b; [apply IH|]. constructor; [reflexivity | apply IH].
  - constructor; [exact E | apply IH].
Qed.

Lemma replace_spaces_from_id s :
  Forall (fun c => is_space c = false) s -> replace_spaces_from false s = s.
Proof.
  induction 1 as [|c s Hc _ IH]; simpl; [reflexivity|]. now rewrite Hc, IH.
Qed.

Lemma download_name_spec fileName r :
  download_name fileName r
  = baseName fileName ++ lit "_" ++ sanitized_label (Row.label r) ++ lit ".wav".
Proof.
  unfold download_name, sanitized_label, str_or.
  destruct (Row.label r) as [|c l].
  - now rewrite (replace_spaces_runs (List.length (lit "seg"))).
  - now rewrite (replace_spaces_runs (List.length (c :: l))).
Qed.

(** C9: when the file is decoded and the slice and its encoding succeed,
    [saveRow] offers exactly one download, named
    [{baseName}_{label}.wav]: the base name is the file name without its
    last extension, the label is [seg] when it is empty, and every run of
    white space of the label is replaced with one underscore (so that no
    white space is left, and a label without white space is kept).  In
    every other case [saveRow] offers no download. *)
Theorem saveRow_download_name (s : App) (r : Row.t) (ab : AudioBuffer.t)
    (f : File.t) :
  audioBuffer s = Some ab ->
  files s !! current s = Some f ->
  let name := baseName (File.name f) ++ lit "_"
              ++ sanitized_label (Row.label r) ++ lit ".wav" in
  (forall ctx sliced blob,
     acRef s = Some ctx ->
     sliceBuffer ctx ab (Row.start r)
       (Math_min (add (Row.start r) (Row.maxLen r)) (Row.end_ r)) = Some sliced ->
     audioBufferToWav sliced = Some blob ->
     saveRow s r = Returned (download s name blob))
  /\ (downloads (state_of (saveRow s r)) = downloads s
      \/ exists blob, downloads (state_of (saveRow s r)) = downloads s ++ [(name, blob)])
  /\ (Row.label r = [] -> sanitized_label (Row.label r) = lit "seg")
  /\ Forall (fun c => is_space c = false) (sanitized_label (Row.label r))
  /\ (Row.label r <> [] -> Forall (fun c => is_space c = false) (Row.label r) ->
      sanitized_label (Row.label r) = Row.label r)
  /\ (forall stem ext, stem <> [] -> 46%N ∉ ext ->
        File.name f = stem ++ 46%N :: ext -> baseName (File.name f) = stem).
Proof.
  intros Hab Hf name.
  assert (Hname : download_name (File.name f) r = name) by apply download_name_spec.
  assert (Hsan : forall l, l <> [] -> sanitized_label l = replace_spaces l).
  { intros [|c l] Hl; [contradiction|]. unfold sanitized_label.
    now rewrite (replace_spaces_runs (List.length (c :: l))). }
  split; [|split; [|split; [|split; [|split]]]].
  - intros ctx sliced blob Hctx Hslice Hwav. unfold saveRow.
    now rewrite Hab, Hf, Hctx, Hslice, Hwav, Hname.
  - unfold saveRow. rewrite Hab, Hf.
    destruct (acRef s); [|now left].
    destruct (sliceBuffer _ _ _ _); [|now left].
    destruct (audioBufferToWav _) as [blob|]; [|now left].
    right. exists blob. now rewrite Hname.
  - intros ->. reflexivity.
  - destruct (Row.label r) as [|c l] eqn:E.
    + repeat constructor.
    + rewrite Hsan by discriminate. apply replace_spaces_from_no_space.
  - intros Hne Hall. rewrite Hsan by exact Hne. now apply replace_spaces_from_id.
  - intros stem ext Hstem Hext ->. now apply baseName_stem.
Qed.

Lemma saveRow_download_name_witness :
  let r := Row.mk (lit "a") (lit "  help   me ") (Fin 1) (Fin 0) (Fin 1) COLORS_0 in
  let f := File.mk [] (lit "take.1.wav") 52 0 in
  let ab := AudioBuffer.mk 1 (Fin 4) 8
              [[Fin 0; Fin (1 # 2); Fin 1; Fin (-1); Fin 0; Fin 0; Fin 0; Fin 0]] in
  let s := mkApp [f] 0 (Some ab) (Fin 2) [r]
             (Some (WaveSurfer.mk (Fin 2))) (Some [region_of_row r])
             (Some AudioContext.webaudio) false [r] false None ∅ ∅ 0 [] [] in
  exists blob, saveRow s r = Returned (download s (lit "take.1__help_me_.wav") blob).
Proof.
  intros r f ab s.
  destruct (audioBufferToWav (AudioBuffer.mk 1 (Fin 4) 4
              [[Fin 0; Fin (1 # 2); Fin 1; Fin (-1)]])) as [blob|] eqn:E;
    [|discriminate E].
  exists blob.
  exact (proj1 (saveRow_download_name s r ab f eq_refl eq_refl)
           AudioContext.webaudio _ blob eq_refl eq_refl E).
Defined.

(** ** The WAV encoder *)

(** *** Writing into a [DataView] *)

Lemma set_bytes_middle pre old post bs :
  List.length old = List.length bs ->
  set_bytes (pre ++ old ++ post) (List.length pre) bs = Some (pre ++ bs ++ post).
Proof.
  intros Hlen. unfold set_bytes.
  rewrite !length_app, Hlen.
  destruct (Nat.leb_spec (List.length pre + List.length bs)
              (List.length pre + (List.length bs + List.length post))) as [_|H]; [|lia].
  f_equal.
  rewrite <- (Nat.add_0_r (List.length pre)) at 1.
  rewrite list_inserts_app_r. f_equal.
  apply list_inserts_0_r. now symmetry.
Qed.

Lemma writeString_bytes str : forall pre old post,
  List.length old = List.length str ->
  writeString (pre ++ old ++ post) (List.length pre) str
  = Some (pre ++ char_bytes str ++ post).
Proof.
  induction str as [|c str IH]; intros pre old post Hlen.
  - destruct old; [reflexivity|discriminate].
  - destruct old as [|o old]; [discriminate|]. simpl in Hlen.
    cbn [writeString]. unfold setUint8.
    rewrite (set_bytes_middle pre [o] (old ++ post) [_]) by reflexivity.
    change (pre ++ [to_uint 8 (of_Z (Z.of_N c))] ++ old ++ post)
      with (pre ++ [to_uint 8 (of_Z (Z.of_N c))] ++ (old ++ post)).
    rewrite (app_assoc pre [_] (old ++ post)).
    replace (S (List.length pre))
      with (List.length (pre ++ [to_uint 8 (of_Z (Z.of_N c))]))
      by (rewrite length_app; simpl; lia).
    rewrite IH by lia. rewrite <- app_assoc. reflexivity.
Qed.

Lemma le_bytes_2 v : le_bytes 2 v = [byte_at v 0; byte_at v 1].
Proof. reflexivity. Qed.

Lemma le_bytes_4 v : le_bytes 4 v = [byte_at v 0; byte_at v 1; byte_at v 2; byte_at v 3].
Proof. reflexivity. Qed.

(** The thirteen writes of the header fill the first 44 bytes of the
    buffer; [K] is the rest of the function. *)
Lemma header_writes {X} (numChannels : nat) (sampleRate : num) (len : nat)
    (rest : list Z) (K : list Z -> option X) :
  (do view <- writeString (replicate 44 0 ++ rest) 0 (lit "RIFF");
   do view <- setUint32 view 4 (add (Fin 36) (mul (of_nat len) (Fin 2))) true;
   do view <- writeString view 8 (lit "WAVE");
   do view <- writeString view 12 (lit "fmt ");
   do view <- setUint32 view 16 (Fin 16) true;
   do view <- setUint16 view 20 (Fin 1) true;
   do view <- setUint16 view 22 (of_nat numChannels) true;
   do view <- setUint32 view 24 sampleRate true;
   do view <- setUint32 view 28 (mul (mul sampleRate (of_nat numChannels)) (Fin 2)) true;
   do view <- setUint16 view 32 (mul (of_nat numChannels) (Fin 2)) true;
   do view <- setUint16 view 34 (Fin 16) true;
   do view <- writeString view 36 (lit "data");
   do view <- setUint32 view 40 (mul (of_nat len) (Fin 2)) true;
   K view)
  = K (wav_header numChannels sampleRate len ++ rest).
Proof.
  unfold wav_header, setUint32, setUint16, ordered.
  rewrite !le_bytes_4, !le_bytes_2.
  generalize (to_uint 32 (add (Fin 36) (mul (of_nat len) (Fin 2)))).
  generalize (to_uint 32 (Fin 16)). generalize (to_uint 16 (Fin 1)).
  generalize (to_uint 16 (of_nat numChannels)).
  generalize (to_uint 32 (mul (mul sampleRate (of_nat numChannels)) (Fin 2))).
  generalize (to_uint 32 sampleRate).
  generalize (to_uint 16 (mul (of_nat numChannels) (Fin 2))).
  generalize (to_uint 16 (Fin 16)).
  generalize (to_uint 32 (mul (of_nat len) (Fin 2))).
  intros z1 z2 z3 z4 z5 z6 z7 z8 z9.
  reflexivity.
Qed.

Lemma set_bytes_at pre old post bs off :
  List.length pre = off -> List.length old = List.length bs ->
  set_bytes (pre ++ old ++ post) off bs = Some (pre ++ bs ++ post).
Proof. intros <-. apply set_bytes_middle. Qed.

(** The conversion loop appends two bytes for every sample. *)
Lemma write_samples_loop interleaved m : forall k pre,
  List.length pre = (44 + 2 * k)%nat ->
  for_each (seq k m) (write_sample interleaved)
    (pre ++ replicate (2 * m) 0, (44 + 2 * k)%nat)
  = Some (pre ++ List.flat_map
                   (fun i => le_bytes 2 (to_uint 16 (scaled_sample (sample_at interleaved i))))
                   (seq k m),
          (44 + 2 * (k + m))%nat).
Proof.
  induction m as [|m IH]; intros k pre Hpre.
  - cbn [seq for_each List.flat_map]. rewrite Nat.add_0_r, Nat.mul_0_r. reflexivity.
  - cbn [seq for_each write_sample].
    fold (scaled_sample (sample_at interleaved k)). unfold setInt16, ordered.
    replace (2 * S m)%nat with (2 + 2 * m)%nat by lia.
    change (replicate (2 + 2 * m) 0) with ([0; 0] ++ replicate (2 * m) 0).
    rewrite (set_bytes_at pre [0; 0] _ _ _ Hpre) by reflexivity.
    rewrite app_assoc.
    replace (44 + 2 * k + 2)%nat with (44 + 2 * S k)%nat by lia.
    rewrite IH by (rewrite length_app; simpl; lia).
    cbn [List.flat_map]. rewrite <- !app_assoc.
    replace (S k + m)%nat with (k + S m)%nat by lia. reflexivity.
Qed.

Lemma map_sample_at (l : list num) :
  List.map (sample_at l) (seq 0 (List.length l)) = l.
Proof.
  induction l as [|x l IH] using rev_ind; [reflexivity|].
  rewrite length_app. simpl. rewrite Nat.add_1_r, seq_S, map_app. simpl.
  f_equal.
  - transitivity (List.map (sample_at l) (seq 0 (List.length l))); [|exact IH].
    apply map_ext_in. intros i Hi. apply in_seq in Hi.
    unfold sample_at. rewrite lookup_app_l by lia. reflexivity.
  - unfold sample_at. rewrite lookup_app_r by lia.
    rewrite Nat.sub_diag. reflexivity.
Qed.

Lemma flat_map_seq_payload (l : list num) :
  List.flat_map (fun i => le_bytes 2 (to_uint 16 (scaled_sample (sample_at l i))))
                (seq 0 (List.length l))
  = wav_payload l.
Proof.
  unfold wav_payload.
  transitivity (List.flat_map (fun x => le_bytes 2 (to_uint 16 (scaled_sample x)))
                  (List.map (sample_at l) (seq 0 (List.length l))));
    [|now rewrite map_sample_at].
  rewrite !flat_map_concat_map, List.map_map. reflexivity.
Qed.

Lemma wav_header_length numChannels sampleRate len :
  List.length (wav_header numChannels sampleRate len) = 44%nat.
Proof. reflexivity. Qed.

(** The encoder in closed form, for the interleaved samples. *)
Lemma audioBufferToWav_closed ab interleaved :
  interleave ab = Some interleaved ->
  audioBufferToWav ab
  = Some (Blob.mk (wav_header (AudioBuffer.numberOfChannels ab)
                     (AudioBuffer.sampleRate ab) (List.length interleaved)
                   ++ wav_payload interleaved)
                  (lit "audio/wav")).
Proof.
  intros Hi. unfold audioBufferToWav. rewrite Hi. cbn [bind]. cbv zeta.
  change (replicate (44 + List.length interleaved * 2) 0)
    with (replicate 44 0 ++ replicate (List.length interleaved * 2) 0).
  rewrite (header_writes (AudioBuffer.numberOfChannels ab) (AudioBuffer.sampleRate ab)
             (List.length interleaved) (replicate (List.length interleaved * 2) 0)).
  rewrite (Nat.mul_comm (List.length interleaved) 2).
  rewrite (write_samples_loop interleaved (List.length interleaved) 0 _
             (wav_header_length _ _ _)).
  cbn [bind fst]. now rewrite flat_map_seq_payload.
Qed.

(** *** Reading numbers back *)

Lemma le_value_map_seq v n : forall k,
  le_value (List.map (byte_at v) (seq k n)) = (v / 256 ^ Z.of_nat k) mod 256 ^ Z.of_nat n.
Proof.
  induction n as [|n IH]; intros k.
  - simpl. now rewrite Z.mod_1_r.
  - cbn [seq List.map le_value]. rewrite IH. unfold byte_at.
    rewrite (Nat2Z.inj_succ n), (Nat2Z.inj_succ k), !Z.pow_succ_r by lia.
    rewrite (Z.rem_mul_r _ 256 (256 ^ Z.of_nat n)) by lia.
    rewrite (Z.mul_comm 256 (256 ^ Z.of_nat k)).
    rewrite Z.div_div by lia. reflexivity.
Qed.

Lemma le_value_le_bytes n v :
  0 <= v < 256 ^ Z.of_nat n -> le_value (le_bytes n v) = v.
Proof.
  intros Hv. unfold le_bytes.
  change (fun k : nat => (v / 256 ^ Z.of_nat k) mod 256) with (byte_at v).
  rewrite le_value_map_seq. simpl (256 ^ Z.of_nat 0).
  rewrite Z.div_1_r. now apply Z.mod_small.
Qed.

Lemma Qtrunc_inject a z : (a == inject_Z z)%Q -> Qtrunc a = z.
Proof.
  destruct a as [n d]. unfold Qeq, Qtrunc. simpl. intros H.
  rewrite Z.mul_1_r in H. subst n. apply Z.quot_mul. lia.
Qed.

Lemma to_uint_inject w a z :
  (a == inject_Z z)%Q -> 0 <= z < 2 ^ w -> to_uint w (Fin a) = z.
Proof.
  intros Ha Hz. unfold to_uint. rewrite (Qtrunc_inject a z Ha).
  now apply Z.mod_small.
Qed.

Lemma Qtrunc_bounds a lo hi :
  lo <= 0 <= hi -> (inject_Z lo <= a)%Q -> (a <= inject_Z hi)%Q ->
  lo <= Qtrunc a <= hi.
Proof.
  destruct a as [n d]. unfold Qle, Qtrunc. simpl. rewrite !Z.mul_1_r.
  intros Hz Hlo Hhi.
  pose proof (Z.quot_rem' n (Z.pos d)) as Hqr.
  destruct (Z.le_gt_cases 0 n) as [Hn|Hn].
  - pose proof (Z.rem_bound_pos n (Z.pos d) Hn ltac:(lia)).
    pose proof (Z.quot_pos n (Z.pos d) Hn ltac:(lia)). nia.
  - assert (Hq : Z.quot n (Z.pos d) <= 0) by (apply Z.quot_le_upper_bound; lia).
    pose proof (Z.rem_nonpos n (Z.pos d) ltac:(lia) ltac:(lia)).
    pose proof (Z.rem_bound_abs n (Z.pos d) ltac:(lia)). nia.
Qed.

(** The sample that the encoder writes is the sample of the
    specification, in the range of a signed 16-bit integer. *)
Lemma scaled_sample_pcm16 x :
  to_uint 16 (scaled_sample x) = pcm16 x mod 2 ^ 16
  /\ -32768 <= pcm16 x <= 32767.
Proof.
  destruct x as [| |q|]; try (split; [reflexivity | simpl; lia]).
  assert (Heq : scaled_sample (Fin q)
                = Fin (if Qltb (Qclamp q) 0 then Qclamp q * 32768 else Qclamp q * 32767)%Q).
  { unfold scaled_sample, Qclamp.
    cbv beta iota zeta delta [Math_min Math_max lt mul].
    destruct (Qltb q 1); destruct (Qltb (-1) _); destruct (Qltb _ 0); reflexivity. }
  rewrite Heq. split; [reflexivity|].
  unfold pcm16. cbv zeta.
  assert (Hc : (-1 <= Qclamp q)%Q /\ (Qclamp q <= 1)%Q).
  { unfold Qclamp. split_Qltb; lra. }
  destruct Hc as [Hc1 Hc2].
  destruct (Qltb (Qclamp q) 0) eqn:E.
  - apply Qltb_lt in E.
    apply (Qtrunc_bounds _ (-32768) 32767); [lia | |];
      change (inject_Z (-32768)) with (-32768)%Q;
      change (inject_Z 32767) with 32767%Q; lra.
  - apply Qltb_ge in E.
    apply (Qtrunc_bounds _ (-32768) 32767); [lia | |];
      change (inject_Z (-32768)) with (-32768)%Q;
      change (inject_Z 32767) with 32767%Q; lra.
Qed.

(** A signed 16-bit integer is read back from its two bytes. *)
Lemma int16_read_back t :
  -32768 <= t <= 32767 ->
  (let u := le_value (le_bytes 2 (t mod 2 ^ 16)) in
   if u <? 32768 then u else u - 65536) = t.
Proof.
  intros Ht. cbv zeta.
  rewrite le_value_le_bytes by (apply Z.mod_pos_bound; lia).
  change (2 ^ 16) with 65536.
  destruct (Z.ltb_spec (t mod 65536) 32768) as [H|H].
  - destruct (Z.le_gt_cases 0 t) as [Hp|Hn].
    + rewrite Z.mod_small in * by lia. reflexivity.
    + rewrite <- (Z.mod_add t 1 65536) in H by lia.
      rewrite Z.mod_small in H by lia. lia.
  - destruct (Z.le_gt_cases 0 t) as [Hp|Hn].
    + rewrite Z.mod_small in H by lia. lia.
    + rewrite <- (Z.mod_add t 1 65536) by lia.
      rewrite Z.mod_small by lia. lia.
Qed.

Lemma wav_payload_length l : List.length (wav_payload l) = (2 * List.length l)%nat.
Proof.
  unfold wav_payload. induction l as [|x l IH]; [reflexivity|].
  cbn [List.flat_map]. rewrite length_app, IH. simpl. lia.
Qed.

Lemma wav_payload_lookup l : forall k x,
  l !! k = Some x ->
  take 2 (drop (2 * k) (wav_payload l)) = le_bytes 2 (to_uint 16 (scaled_sample x)).
Proof.
  induction l as [|y l IH]; intros k x Hk; [discriminate|].
  destruct k as [|k].
  - injection Hk as ->. unfold wav_payload. cbn [List.flat_map].
    rewrite le_bytes_2. reflexivity.
  - replace (2 * S k)%nat with (2 + 2 * k)%nat by lia.
    unfold wav_payload. cbn [List.flat_map]. rewrite le_bytes_2.
    change (drop (2 + 2 * k) ([?a; ?b] ++ ?r)) with (drop (2 * k) r).
    apply (IH k x Hk).
Qed.

(** *** Interleaving *)

Lemma interleave_index_inj (c i ch i' ch' : nat) :
  (ch < c)%nat -> (ch' < c)%nat ->
  (i * c + ch = i' * c + ch')%nat -> i = i' /\ ch = ch'.
Proof.
  intros H1 H2 H.
  assert (i = i') by nia. subst i'. split; [reflexivity | lia].
Qed.

Section InterleaveChannel.

Variables (numChannels ch : nat) (data : list num).

Lemma foldl_store_length frames : forall acc,
  List.length (foldl (store_sample numChannels ch data) acc frames) = List.length acc.
Proof.
  induction frames as [|i frames IH]; intros acc; simpl; [reflexivity|].
  rewrite IH. apply length_insert.
Qed.

Lemma foldl_store_other frames j : forall acc,
  (forall i, i ∈ frames -> (i * numChannels + ch)%nat <> j) ->
  foldl (store_sample numChannels ch data) acc frames !! j = acc !! j.
Proof.
  induction frames as [|i frames IH]; intros acc Hj; simpl; [reflexivity|].
  rewrite IH by (intros i' Hi'; apply Hj; now constructor).
  apply list_lookup_insert_ne. apply Hj. constructor.
Qed.

Lemma foldl_store_written frames i : forall acc,
  (ch < numChannels)%nat ->
  i ∈ frames -> (i * numChannels + ch < List.length acc)%nat ->
  foldl (store_sample numChannels ch data) acc frames !! (i * numChannels + ch)%nat = Some (sample_at data i).
Proof.
  intros acc Hch. revert acc.
  induction frames as [|i0 frames IH]; intros acc Hi Hlen; [inversion Hi|].
  simpl. destruct (decide (i ∈ frames)) as [Hin|Hnin].
  - apply IH; [exact Hin|]. unfold store_sample. now rewrite length_insert.
  - apply elem_of_cons in Hi as [->|Hi]; [|contradiction].
    rewrite foldl_store_other.
    + now apply list_lookup_insert_eq.
    + intros i' Hi' Heq.
      apply (interleave_index_inj numChannels) in Heq as [-> _]; auto.
Qed.

End InterleaveChannel.

Lemma interleave_channel_length c n ch data acc :
  List.length (interleave_channel c n ch data acc) = List.length acc.
Proof. apply foldl_store_length. Qed.

Lemma interleave_channel_other c n ch data acc j :
  (forall i, (i < n)%nat -> (i * c + ch)%nat <> j) ->
  interleave_channel c n ch data acc !! j = acc !! j.
Proof.
  intros H. apply foldl_store_other. intros i Hi. apply H.
  apply list_elem_of_In, in_seq in Hi. lia.
Qed.

Lemma interleave_channel_written c n ch data acc i :
  (ch < c)%nat -> (i < n)%nat -> (i * c + ch < List.length acc)%nat ->
  interleave_channel c n ch data acc !! (i * c + ch)%nat = Some (sample_at data i).
Proof.
  intros Hch Hi Hlen. apply foldl_store_written; auto.
  apply list_elem_of_In, in_seq. lia.
Qed.

(** The loop over a list of channels: every sample of these channels is
    at its place, and nothing else has changed. *)
Lemma interleave_loop ab c n chs : forall acc,
  NoDup chs ->
  (forall ch, ch ∈ chs -> (ch < c)%nat /\ is_Some (AudioBuffer.channels ab !! ch)) ->
  (n * c <= List.length acc)%nat ->
  exists acc',
    for_each chs
      (fun interleaved ch =>
         match AudioBuffer.getChannelData ab ch with
         | Some data => Some (interleave_channel c n ch data interleaved)
         | None => None
         end) acc = Some acc'
    /\ List.length acc' = List.length acc
    /\ (forall ch i data, ch ∈ chs -> (i < n)%nat ->
          AudioBuffer.channels ab !! ch = Some data ->
          acc' !! (i * c + ch)%nat = Some (sample_at data i))
    /\ (forall j, (forall ch i, ch ∈ chs -> (i < n)%nat -> (i * c + ch)%nat <> j) ->
          acc' !! j = acc !! j).
Proof.
  induction chs as [|ch0 chs IH]; intros acc Hnd Hchs Hlen.
  - exists acc. repeat split; auto. intros ch i data Hch. inversion Hch.
  - apply NoDup_cons in Hnd as [Hnotin Hnd].
    destruct (Hchs ch0 ltac:(constructor)) as [Hch0 [data0 Hdata0]].
    cbn [for_each]. unfold AudioBuffer.getChannelData at 1. rewrite Hdata0.
    set (acc1 := interleave_channel c n ch0 data0 acc).
    assert (Hlen1 : List.length acc1 = List.length acc)
      by apply interleave_channel_length.
    destruct (IH acc1 Hnd) as (acc' & Hrun & Hlen' & Hwritten & Hother).
    { intros ch Hch. apply Hchs. now constructor. }
    { lia. }
    exists acc'. split; [exact Hrun|]. split; [lia|]. split.
    + intros ch i data Hch Hi Hdata.
      apply elem_of_cons in Hch as [->|Hch]; [|now apply Hwritten].
      rewrite Hother.
      * replace data with data0 by congruence.
        apply interleave_channel_written; auto. nia.
      * intros ch' i' Hch' Hi' Heq.
        apply (interleave_index_inj c) in Heq as [_ ->];
          [contradiction | apply Hchs; now constructor | exact Hch0].
    + intros j Hj. rewrite Hother.
      * apply interleave_channel_other. intros i Hi. apply Hj; [constructor|exact Hi].
      * intros ch i Hch Hi. apply Hj; [now constructor | exact Hi].
Qed.

(** The interleaved array of a well-formed buffer: frame [i] of channel
    [ch] is at index [i * numChannels + ch]. *)
Lemma interleave_spec ab :
  AudioBuffer.wf ab ->
  exists interleaved,
    interleave ab = Some interleaved
    /\ List.length interleaved
       = (AudioBuffer.length ab * AudioBuffer.numberOfChannels ab)%nat
    /\ forall ch i data,
         (ch < AudioBuffer.numberOfChannels ab)%nat ->
         (i < AudioBuffer.length ab)%nat ->
         AudioBuffer.channels ab !! ch = Some data ->
         interleaved !! (i * AudioBuffer.numberOfChannels ab + ch)%nat
         = Some (sample_at data i).
Proof.
  intros (Hpos & Hchannels & Hframes & _ & _). unfold interleave.
  destruct (interleave_loop ab (AudioBuffer.numberOfChannels ab) (AudioBuffer.length ab)
              (seq 0 (AudioBuffer.numberOfChannels ab))
              (replicate (AudioBuffer.length ab * AudioBuffer.numberOfChannels ab) (Fin 0)))
    as (acc' & Hrun & Hlen & Hwritten & _).
  - apply NoDup_ListNoDup, seq_NoDup.
  - intros ch Hch. apply list_elem_of_In, in_seq in Hch. split; [lia|].
    apply lookup_lt_is_Some. lia.
  - rewrite length_replicate. lia.
  - exists acc'. split; [exact Hrun|]. split.
    + now rewrite Hlen, length_replicate.
    + intros ch i data Hch Hi Hdata. apply Hwritten; auto.
      apply list_elem_of_In, in_seq. lia.
Qed.

(** *** The layout of the file *)

Lemma getUint_header n hdr rest off v :
  (off + n <= List.length hdr)%nat ->
  take n (drop off hdr) = le_bytes n v ->
  0 <= v < 256 ^ Z.of_nat n ->
  getUint n (hdr ++ rest) off true = Some v.
Proof.
  intros Hoff Hbytes Hv. unfold getUint, get_bytes.
  rewrite length_app.
  destruct (Nat.leb_spec (off + n) (List.length hdr + List.length rest)) as [_|H]; [|lia].
  rewrite drop_app_le by lia. rewrite take_app_le by (rewrite length_drop; lia).
  rewrite Hbytes. cbn [ordered]. now rewrite le_value_le_bytes.
Qed.

Lemma wav_header_fields c sr len :
  let hdr := wav_header c sr len in
  take 4 hdr = char_bytes (lit "RIFF")
  /\ take 4 (drop 4 hdr) = le_bytes 4 (to_uint 32 (add (Fin 36) (mul (of_nat len) (Fin 2))))
  /\ take 4 (drop 8 hdr) = char_bytes (lit "WAVE")
  /\ take 4 (drop 12 hdr) = char_bytes (lit "fmt ")
  /\ take 4 (drop 16 hdr) = le_bytes 4 (to_uint 32 (Fin 16))
  /\ take 2 (drop 20 hdr) = le_bytes 2 (to_uint 16 (Fin 1))
  /\ take 2 (drop 22 hdr) = le_bytes 2 (to_uint 16 (of_nat c))
  /\ take 4 (drop 24 hdr) = le_bytes 4 (to_uint 32 sr)
  /\ take 4 (drop 28 hdr) = le_bytes 4 (to_uint 32 (mul (mul sr (of_nat c)) (Fin 2)))
  /\ take 2 (drop 32 hdr) = le_bytes 2 (to_uint 16 (mul (of_nat c) (Fin 2)))
  /\ take 2 (drop 34 hdr) = le_bytes 2 (to_uint 16 (Fin 16))
  /\ take 4 (drop 36 hdr) = char_bytes (lit "data")
  /\ take 4 (drop 40 hdr) = le_bytes 4 (to_uint 32 (mul (of_nat len) (Fin 2))).
Proof.
  cbv zeta. unfold wav_header.
  generalize (to_uint 32 (add (Fin 36) (mul (of_nat len) (Fin 2)))).
  generalize (to_uint 32 (Fin 16)). generalize (to_uint 16 (Fin 1)).
  generalize (to_uint 16 (of_nat c)).
  generalize (to_uint 32 (mul (mul sr (of_nat c)) (Fin 2))).
  generalize (to_uint 32 sr).
  generalize (to_uint 16 (mul (of_nat c) (Fin 2))).
  generalize (to_uint 16 (Fin 16)).
  generalize (to_uint 32 (mul (of_nat len) (Fin 2))).
  intros z1 z2 z3 z4 z5 z6 z7 z8 z9.
  repeat split; reflexivity.
Qed.

Lemma to_uint_of_Z w z : 0 <= z < 2 ^ w -> to_uint w (of_Z z) = z.
Proof. intros H. apply to_uint_inject; [reflexivity | exact H]. Qed.

Lemma to_uint_riff_size n :
  0 <= 36 + n * 2 < 2 ^ 32 ->
  to_uint 32 (add (Fin 36) (mul (of_Z n) (Fin 2))) = 36 + n * 2.
Proof.
  intros H. apply to_uint_inject; [|exact H].
  unfold of_Z. rewrite inject_Z_plus, inject_Z_mult. reflexivity.
Qed.

Lemma to_uint_twice w n :
  0 <= n * 2 < 2 ^ w -> to_uint w (mul (of_Z n) (Fin 2)) = n * 2.
Proof.
  intros H. apply to_uint_inject; [|exact H].
  unfold of_Z. rewrite inject_Z_mult. reflexivity.
Qed.

Lemma to_uint_byte_rate r c :
  0 <= r * c * 2 < 2 ^ 32 ->
  to_uint 32 (mul (mul (of_Z r) (of_Z c)) (Fin 2)) = r * c * 2.
Proof.
  intros H. apply to_uint_inject; [|exact H].
  unfold of_Z. rewrite !inject_Z_mult. reflexivity.
Qed.

(** C1: for a buffer of [C] channels, rate [R] and [N] frames whose header
    values fit their fields, [audioBufferToWav] returns [44 + 2*N*C]
    bytes; the header holds, little-endian, the RIFF size [36 + 2*N*C],
    the fmt chunk size 16, the format 1, [C], [R], the byte rate
    [R*C*2], the block align [C*2], 16 bits per sample and the data size
    [2*N*C], next to the four tags; and the two bytes at
    [44 + 2*(i*C + ch)] are the signed 16-bit integer, little-endian, of
    frame [i] of channel [ch], clamped to [-1, 1] and scaled by 32768
    when negative and by 32767 otherwise. *)
Theorem audioBufferToWav_layout (ab : AudioBuffer.t) (R : Z) :
  AudioBuffer.wf ab ->
  AudioBuffer.sampleRate ab = of_Z R ->
  let C := Z.of_nat (AudioBuffer.numberOfChannels ab) in
  let N := Z.of_nat (AudioBuffer.length ab) in
  36 + 2 * N * C < 2 ^ 32 ->
  R * C * 2 < 2 ^ 32 ->
  C * 2 < 2 ^ 16 ->
  exists bytes,
    audioBufferToWav ab = Some (Blob.mk bytes (lit "audio/wav"))
    /\ Z.of_nat (List.length bytes) = 44 + 2 * N * C
    /\ take 4 bytes = [82; 73; 70; 70]
    /\ getUint32 bytes 4 true = Some (36 + 2 * N * C)
    /\ take 4 (drop 8 bytes) = [87; 65; 86; 69]
    /\ take 4 (drop 12 bytes) = [102; 109; 116; 32]
    /\ getUint32 bytes 16 true = Some 16
    /\ getUint16 bytes 20 true = Some 1
    /\ getUint16 bytes 22 true = Some C
    /\ getUint32 bytes 24 true = Some R
    /\ getUint32 bytes 28 true = Some (R * C * 2)
    /\ getUint16 bytes 32 true = Some (C * 2)
    /\ getUint16 bytes 34 true = Some 16
    /\ take 4 (drop 36 bytes) = [100; 97; 116; 97]
    /\ getUint32 bytes 40 true = Some (2 * N * C)
    /\ forall ch i data x,
         AudioBuffer.channels ab !! ch = Some data -> data !! i = Some x ->
         getInt16 bytes (44 + 2 * (i * AudioBuffer.numberOfChannels ab + ch)) true
         = Some (pcm16 x).
Proof.
  intros Hwf Hrate C N Hsize Hbyte Hblock.
  destruct (interleave_spec ab Hwf) as (interleaved & Hi & Hlen & Hat).
  destruct Hwf as (Hpos & Hchannels & Hframes & _ & r & Hr & Hrpos).
  assert (HR : 0 < R).
  { rewrite Hrate in Hr. injection Hr as <-.
    unfold Qlt in Hrpos. simpl in Hrpos. lia. }
  assert (HlenZ : Z.of_nat (List.length interleaved) = N * C).
  { rewrite Hlen, Nat2Z.inj_mul. reflexivity. }
  assert (HNC : 0 <= N * C) by (subst N C; nia).
  assert (HC : 0 < C) by (subst C; lia).
  change (2 ^ 32) with 4294967296 in Hsize, Hbyte.
  change (2 ^ 16) with 65536 in Hblock.
  assert (HRC : R <= R * C) by nia.
  assert (HC1 : C <= C * 2) by lia.
  exists (wav_header (AudioBuffer.numberOfChannels ab) (AudioBuffer.sampleRate ab)
            (List.length interleaved) ++ wav_payload interleaved).
  pose proof (wav_header_fields (AudioBuffer.numberOfChannels ab)
                (AudioBuffer.sampleRate ab) (List.length interleaved)) as Hf.
  cbv zeta in Hf.
  pose proof (wav_header_length (AudioBuffer.numberOfChannels ab)
                (AudioBuffer.sampleRate ab) (List.length interleaved)) as Hh.
  destruct Hf as (F0 & F4 & F8 & F12 & F16 & F20 & F22 & F24 & F28 & F32 & F34 & F36 & F40).
  assert (Htag : forall off tag,
             (off + 4 <= 44)%nat ->
             take 4 (drop off (wav_header (AudioBuffer.numberOfChannels ab)
                                 (AudioBuffer.sampleRate ab) (List.length interleaved)))
             = tag ->
             take 4 (drop off (wav_header (AudioBuffer.numberOfChannels ab)
                                 (AudioBuffer.sampleRate ab) (List.length interleaved)
                               ++ wav_payload interleaved)) = tag).
  { intros off tag Hoff <-. rewrite drop_app_le by lia.
    apply take_app_le. rewrite length_drop. lia. }
  assert (Hfield : forall n off v,
             (off + n <= 44)%nat ->
             take n (drop off (wav_header (AudioBuffer.numberOfChannels ab)
                                 (AudioBuffer.sampleRate ab) (List.length interleaved)))
             = le_bytes n v ->
             0 <= v < 256 ^ Z.of_nat n ->
             getUint n (wav_header (AudioBuffer.numberOfChannels ab)
                          (AudioBuffer.sampleRate ab) (List.length interleaved)
                        ++ wav_payload interleaved) off true = Some v).
  { intros n off v Hoff Hbytes Hv. apply getUint_header; [rewrite Hh; lia|auto..]. }
  unfold getUint32, getUint16.
  split; [now apply audioBufferToWav_closed|].
  split; [rewrite length_app, Hh, wav_payload_length; lia|].
  split; [apply (Htag 0%nat); [lia | exact F0]|].
  split.
  { unfold of_nat in F4. rewrite to_uint_riff_size in F4 by (rewrite HlenZ; simpl; lia).
    rewrite HlenZ in F4. replace (36 + N * C * 2) with (36 + 2 * N * C) in F4 by lia.
    apply (Hfield 4%nat 4%nat _ ltac:(lia) F4).
    change (256 ^ Z.of_nat 4) with 4294967296. lia. }
  split; [apply (Htag 8%nat); [lia | exact F8]|].
  split; [apply (Htag 12%nat); [lia | exact F12]|].
  split; [apply (Hfield 4%nat 16%nat _ ltac:(lia) F16); vm_compute; split; [discriminate | reflexivity]|].
  split; [apply (Hfield 2%nat 20%nat _ ltac:(lia) F20); vm_compute; split; [discriminate | reflexivity]|].
  split.
  { unfold of_nat in F22. fold C in F22. rewrite (to_uint_of_Z 16 C) in F22 by (simpl; lia).
    apply (Hfield 2%nat 22%nat _ ltac:(lia) F22).
    change (256 ^ Z.of_nat 2) with 65536. lia. }
  split.
  { assert (Hsr : to_uint 32 (AudioBuffer.sampleRate ab) = R)
      by (rewrite Hrate; apply to_uint_of_Z; simpl; lia).
    rewrite Hsr in F24.
    apply (Hfield 4%nat 24%nat _ ltac:(lia) F24).
    change (256 ^ Z.of_nat 4) with 4294967296. lia. }
  split.
  { assert (Hbr : to_uint 32 (mul (mul (AudioBuffer.sampleRate ab)
                                      (of_nat (AudioBuffer.numberOfChannels ab))) (Fin 2))
                  = R * C * 2)
      by (rewrite Hrate; apply to_uint_byte_rate; simpl; lia).
    rewrite Hbr in F28.
    apply (Hfield 4%nat 28%nat _ ltac:(lia) F28).
    change (256 ^ Z.of_nat 4) with 4294967296. lia. }
  split.
  { unfold of_nat in F32. fold C in F32. rewrite (to_uint_twice 16 C) in F32 by (simpl; lia).
    apply (Hfield 2%nat 32%nat _ ltac:(lia) F32).
    change (256 ^ Z.of_nat 2) with 65536. lia. }
  split; [apply (Hfield 2%nat 34%nat _ ltac:(lia) F34); vm_compute; split; [discriminate | reflexivity]|].
  split; [apply (Htag 36%nat); [lia | exact F36]|].
  split.
  { unfold of_nat in F40. rewrite to_uint_twice in F40 by (rewrite HlenZ; simpl; lia).
    rewrite HlenZ in F40. replace (N * C * 2) with (2 * N * C) in F40 by lia.
    apply (Hfield 4%nat 40%nat _ ltac:(lia) F40).
    change (256 ^ Z.of_nat 4) with 4294967296. lia. }
  intros ch i data x Hdata Hx.
  assert (Hch : (ch < AudioBuffer.numberOfChannels ab)%nat).
  { rewrite <- Hchannels. now apply lookup_lt_Some in Hdata. }
  assert (Hi' : (i < AudioBuffer.length ab)%nat).
  { rewrite Forall_forall in Hframes.
    rewrite <- (Hframes data); [now apply lookup_lt_Some in Hx|].
    apply list_elem_of_lookup. eauto. }
  pose proof (Hat ch i data Hch Hi' Hdata) as Hk.
  unfold sample_at in Hk. rewrite Hx in Hk.
  set (k := (i * AudioBuffer.numberOfChannels ab + ch)%nat) in *.
  assert (Hklen : (k < List.length interleaved)%nat) by now apply lookup_lt_Some in Hk.
  unfold getInt16, getUint, get_bytes.
  rewrite length_app, Hh, wav_payload_length.
  destruct (Nat.leb_spec (44 + 2 * k + 2) (44 + 2 * List.length interleaved)) as [_|H];
    [|lia].
  rewrite drop_app_ge by lia. rewrite Hh.
  replace (44 + 2 * k - 44)%nat with (2 * k)%nat by lia.
  rewrite (wav_payload_lookup interleaved k x Hk). cbn [ordered].
  destruct (scaled_sample_pcm16 x) as [-> Hrange].
  f_equal. apply (int16_read_back (pcm16 x) Hrange).
Qed.

Lemma audioBufferToWav_layout_witness :
  let ab := AudioBuffer.mk 2 (of_Z 44100) 3
              [[Fin (1 # 2); Fin (-1 # 2); Fin 2]; [Fin (-3); Fin 0; Fin (1 # 3)]] in
  exists bytes,
    audioBufferToWav ab = Some (Blob.mk bytes (lit "audio/wav"))
    /\ Z.of_nat (List.length bytes) = 56
    /\ getUint32 bytes 24 true = Some 44100
    /\ getInt16 bytes 46 true = Some (-32768).
Proof.
  intros ab.
  destruct (audioBufferToWav_layout ab 44100) as (bytes & H & Hlen & Hrest).
  - split; [simpl; lia|]. split; [reflexivity|].
    split; [repeat constructor|]. split; [reflexivity|].
    exists 44100%Q. split; reflexivity.
  - reflexivity.
  - reflexivity.
  - reflexivity.
  - reflexivity.
  - exists bytes. split; [exact H|]. split; [exact Hlen|].
    destruct Hrest as (_ & _ & _ & _ & _ & _ & _ & Hrate & _ & _ & _ & _ & _ & Hpcm).
    split; [exact Hrate|].
    exact (Hpcm 1%nat 0%nat [Fin (-3); Fin 0; Fin (1 # 3)] (Fin (-3)) eq_refl eq_refl).
Defined.

(** ** The buffer slicer *)

(** *** Arithmetic on integral numbers *)

Lemma Qltb_inject a b : Qltb (inject_Z a) (inject_Z b) = (a <? b)%Z.
Proof.
  destruct (Z.ltb_spec a b) as [H|H].
  - apply Qltb_lt. now rewrite <- Zlt_Qlt.
  - apply Qltb_ge. now rewrite <- Zle_Qle.
Qed.

Lemma Qltb_comp a a' b b' :
  (a == a')%Q -> (b == b')%Q -> Qltb a b = Qltb a' b'.
Proof.
  intros Ha Hb. destruct (Qltb a' b') eqn:E.
  - apply Qltb_lt in E. apply Qltb_lt. now rewrite Ha, Hb.
  - apply Qltb_ge in E. apply Qltb_ge. now rewrite Ha, Hb.
Qed.

Lemma Math_max_zn a b : Math_max (zn a) (zn b) = zn (Z.max a b).
Proof.
  unfold Math_max, zn, lt. rewrite Qltb_inject.
  destruct (Z.ltb_spec a b); [rewrite Z.max_r by lia | rewrite Z.max_l by lia];
    reflexivity.
Qed.

Lemma Math_min_zn a b : Math_min (zn a) (zn b) = zn (Z.min a b).
Proof.
  unfold Math_min, zn, lt. rewrite Qltb_inject.
  destruct (Z.ltb_spec b a); [rewrite Z.min_r by lia | rewrite Z.min_l by lia];
    reflexivity.
Qed.

Lemma to_unsigned_long_frames a b :
  a - b < 2 ^ 32 ->
  to_unsigned_long (Math_max (Fin 0) (sub (zn a) (zn b))) = Z.to_nat (Z.max 0 (a - b)).
Proof.
  intros Hlt. unfold to_unsigned_long, sub, neg, add, zn, Math_max, lt.
  assert (Heq : (inject_Z a + - inject_Z b == inject_Z (a - b))%Q).
  { unfold Z.sub. rewrite inject_Z_plus, inject_Z_opp. reflexivity. }
  rewrite (Qltb_comp 0 (inject_Z 0) _ (inject_Z (a - b))) by (reflexivity || exact Heq).
  rewrite Qltb_inject.
  destruct (Z.ltb_spec 0 (a - b)) as [H|H].
  - rewrite (to_uint_inject 32 _ (a - b) Heq) by lia. now rewrite Z.max_r by lia.
  - rewrite (to_uint_inject 32 0 0) by (reflexivity || lia).
    now rewrite Z.max_l by lia.
Qed.

Lemma rel_index_zn a len :
  0 <= a -> rel_index (zn a) len = Z.to_nat (Z.min a (Z.of_nat len)).
Proof.
  intros Ha. unfold rel_index, zn. rewrite (Qtrunc_inject _ a) by reflexivity.
  destruct (Z.ltb_spec a 0); [lia | reflexivity].
Qed.

Lemma clamp_index_zn a len :
  clamp_index (zn a) len = Z.to_nat (Z.max 0 (Z.min a (Z.of_nat len))).
Proof. unfold clamp_index, zn. now rewrite Qfloor_Z. Qed.

Lemma clamp_index_le x len : (clamp_index x len <= len)%nat.
Proof. destruct x; simpl; lia. Qed.

(** What [sliceBuffer] computes from two integral positions [x] and [y]
    (the floors of the two products): the relative index of [start], the
    frame count after its conversion, and the relative index of [end]
    when there is a frame. *)
Lemma slice_indices x y len :
  integral x -> integral y -> Z.of_nat len < 2 ^ 32 ->
  let start := Math_max (Fin 0) x in
  let end_ := Math_min y (of_nat len) in
  let frames := Math_max (Fin 0) (sub end_ start) in
  rel_index start len = clamp_index x len
  /\ to_unsigned_long frames = (clamp_index y len - clamp_index x len)%nat
  /\ ((clamp_index x len < clamp_index y len)%nat ->
      rel_index end_ len = clamp_index y len).
Proof.
  intros Hx Hy Hlen. cbv zeta.
  assert (Hstart :
    (exists a, Math_max (Fin 0) x = zn a /\ 0 <= a
               /\ clamp_index x len = Z.to_nat (Z.min a (Z.of_nat len)))
    \/ (Math_max (Fin 0) x = PInf /\ clamp_index x len = len)).
  { change (Fin 0) with (zn 0).
    destruct Hx as [->|[->|[a ->]]].
    - left. exists 0. repeat split; [lia | cbn; lia].
    - right. split; reflexivity.
    - left. exists (Z.max 0 a). rewrite Math_max_zn, clamp_index_zn.
      repeat split; lia. }
  assert (Hend :
    (Math_min y (of_nat len) = NInf /\ clamp_index y len = 0%nat)
    \/ (exists b, Math_min y (of_nat len) = zn b /\ b <= Z.of_nat len
                   /\ clamp_index y len = Z.to_nat (Z.max 0 b))).
  { change (of_nat len) with (zn (Z.of_nat len)).
    destruct Hy as [->|[->|[b ->]]].
    - left. split; reflexivity.
    - right. exists (Z.of_nat len). repeat split; [lia | cbn; lia].
    - right. exists (Z.min b (Z.of_nat len)). rewrite Math_min_zn, clamp_index_zn.
      repeat split; lia. }
  destruct Hstart as [(a & -> & Ha & ->)|[-> ->]];
    destruct Hend as [[-> ->]|(b & -> & Hb & ->)].
  - split; [now apply rel_index_zn|]. split; [reflexivity | lia].
  - rewrite to_unsigned_long_frames by lia.
    split; [now apply rel_index_zn|]. split; [lia|].
    intros H. rewrite rel_index_zn by lia. lia.
  - split; [reflexivity|]. split; [reflexivity | lia].
  - split; [reflexivity|]. split; [|lia].
    change (to_unsigned_long (Math_max (Fin 0) (sub (zn b) PInf))) with 0%nat. lia.
Qed.

Lemma floor_mul_integral t r :
  is_nan t = false -> (0 < r)%Q -> integral (Math_floor (mul t (Fin r))).
Proof.
  intros Ht Hr. destruct t as [| |a|]; try discriminate Ht.
  - left. cbn. unfold Qsgn.
    assert (H : 0 < Qnum r) by (unfold Qlt in Hr; simpl in Hr; lia).
    destruct (Qnum r); try lia. reflexivity.
  - right. right. eexists. reflexivity.
  - right. left. cbn. unfold Qsgn.
    assert (H : 0 < Qnum r) by (unfold Qlt in Hr; simpl in Hr; lia).
    destruct (Qnum r); try lia. reflexivity.
Qed.

(** *** Copying the channels *)

Lemma subarray_range data start end_ first last :
  rel_index start (List.length data) = first ->
  rel_index end_ (List.length data) = last ->
  subarray data start end_ = take (last - first) (drop first data).
Proof. intros <- <-. reflexivity. Qed.

Lemma copy_loop ab start end_ chs : forall out,
  NoDup chs ->
  (forall ch, ch ∈ chs ->
     is_Some (AudioBuffer.channels ab !! ch)
     /\ is_Some (AudioBuffer.channels out !! ch)) ->
  exists out',
    for_each chs (copy_channel ab start end_) out = Some out'
    /\ AudioBuffer.numberOfChannels out' = AudioBuffer.numberOfChannels out
    /\ AudioBuffer.sampleRate out' = AudioBuffer.sampleRate out
    /\ AudioBuffer.length out' = AudioBuffer.length out
    /\ List.length (AudioBuffer.channels out') = List.length (AudioBuffer.channels out)
    /\ (forall ch data old, ch ∈ chs ->
          AudioBuffer.channels ab !! ch = Some data ->
          AudioBuffer.channels out !! ch = Some old ->
          AudioBuffer.channels out' !! ch
          = Some (list_inserts 0 (subarray data start end_) old))
    /\ (forall ch, ch ∉ chs ->
          AudioBuffer.channels out' !! ch = AudioBuffer.channels out !! ch).
Proof.
  induction chs as [|ch0 chs IH]; intros out Hnd Hchs.
  - exists out. repeat split; auto. intros ch data old Hch. inversion Hch.
  - apply NoDup_cons in Hnd as [Hnotin Hnd].
    destruct (Hchs ch0 ltac:(constructor)) as [[data0 Hdata0] [old0 Hold0]].
    cbn [for_each]. unfold copy_channel at 1, AudioBuffer.getChannelData.
    rewrite Hdata0. cbn [bind]. unfold AudioBuffer.copyToChannel. rewrite Hold0.
    set (out1 := AudioBuffer.mk _ _ _ _).
    destruct (IH out1 Hnd) as (out' & Hrun & Hc & Hr & Hl & Hlen & Hwritten & Hother).
    { intros ch Hch. destruct (Hchs ch ltac:(now constructor)) as [H1 H2].
      split; [exact H1|]. subst out1. cbn.
      apply lookup_lt_is_Some. rewrite length_insert.
      now apply lookup_lt_is_Some. }
    exists out'. split; [exact Hrun|].
    split; [exact Hc|]. split; [exact Hr|]. split; [exact Hl|].
    split; [rewrite Hlen; subst out1; cbn; apply length_insert|]. split.
    + intros ch data old Hch Hdata Hold.
      apply elem_of_cons in Hch as [->|Hch].
      * rewrite (Hother ch0 Hnotin). subst out1. cbn.
        replace data with data0 by congruence.
        replace old with old0 by congruence.
        apply list_lookup_insert_eq. now apply lookup_lt_Some in Hold0.
      * apply Hwritten; [exact Hch | exact Hdata|].
        subst out1. cbn. rewrite list_lookup_insert_ne; [exact Hold|].
        intros ->. contradiction.
    + intros ch Hch. rewrite not_elem_of_cons in Hch. destruct Hch as [Hne Hch].
      rewrite (Hother ch Hch). subst out1. cbn.
      now apply list_lookup_insert_ne.
Qed.

(** *** The slice *)

(** The run of [sliceBuffer] when the context serves the request. *)
Lemma sliceBuffer_run ctx ab s e :
  AudioBuffer.wf ab -> is_nan s = false -> is_nan e = false ->
  let first := frame_index ab s in
  let frames := (frame_index ab e - first)%nat in
  AudioContext.createBuffer ctx (AudioBuffer.numberOfChannels ab) frames
    (AudioBuffer.sampleRate ab)
  = Some (AudioBuffer.silent (AudioBuffer.numberOfChannels ab) frames
            (AudioBuffer.sampleRate ab)) ->
  sliceBuffer ctx ab s e = Some (sliced ab first frames).
Proof.
  intros (Hpos & Hchannels & Hframes & Hlen & r & Hr & Hrpos) Hs He.
  pose proof (floor_mul_integral s r Hs Hrpos) as Hx.
  pose proof (floor_mul_integral e r He Hrpos) as Hy.
  destruct (slice_indices _ _ (AudioBuffer.length ab) Hx Hy Hlen) as (Hstart & Hcount & Hend).
  unfold sliceBuffer, frame_index. rewrite Hr.
  set (start := Math_max (Fin 0) (Math_floor (mul s (Fin r)))) in *.
  set (end_ := Math_min (Math_floor (mul e (Fin r))) (of_nat (AudioBuffer.length ab))) in *.
  rewrite Hcount.
  set (first := clamp_index (Math_floor (mul s (Fin r))) (AudioBuffer.length ab)) in *.
  set (frames := (clamp_index (Math_floor (mul e (Fin r))) (AudioBuffer.length ab) - first)%nat).
  cbv zeta. intros Hctx. rewrite Hctx. cbn [bind].
  destruct (copy_loop ab start end_ (seq 0 (AudioBuffer.numberOfChannels ab))
              (AudioBuffer.silent (AudioBuffer.numberOfChannels ab) frames (Fin r)))
    as (out' & Hrun & Hc & Hrate & Hl & Hlen' & Hwritten & _).
  { apply NoDup_ListNoDup, seq_NoDup. }
  { intros ch Hch. apply list_elem_of_In, in_seq in Hch.
    split; apply lookup_lt_is_Some; cbn; rewrite ?length_replicate; lia. }
  rewrite Hrun. f_equal.
  destruct out' as [c' r' l' chans'].
  cbn [AudioBuffer.numberOfChannels AudioBuffer.sampleRate AudioBuffer.length
       AudioBuffer.channels AudioBuffer.silent] in Hc, Hrate, Hl, Hlen', Hwritten.
  unfold sliced. rewrite Hr. subst c' r' l'. f_equal.
  rewrite length_replicate in Hlen'.
  apply list_eq. intros ch. rewrite list_lookup_fmap.
  destruct (AudioBuffer.channels ab !! ch) as [data|] eqn:Hdata.
  - assert (Hch : (ch < AudioBuffer.numberOfChannels ab)%nat).
    { rewrite <- Hchannels. now apply lookup_lt_Some in Hdata. }
    assert (Hdlen : List.length data = AudioBuffer.length ab).
    { rewrite Forall_forall in Hframes. apply Hframes.
      apply list_elem_of_lookup. eauto. }
    rewrite (Hwritten ch data (replicate frames (Fin 0))); [|
      apply list_elem_of_In, in_seq; lia | exact Hdata |
      apply lookup_replicate_2; exact Hch].
    cbn [fmap option_fmap option_map]. f_equal.
    destruct (Nat.eq_dec frames 0%nat) as [Hz|Hnz].
    + rewrite Hz. cbn. apply list_inserts_nil.
    + rewrite (subarray_range data start end_ first (first + frames));
        [|rewrite Hdlen; exact Hstart | rewrite Hdlen, Hend; subst frames; lia].
      replace (first + frames - first)%nat with frames by lia.
      rewrite <- (app_nil_r (replicate frames (Fin 0))).
      rewrite list_inserts_0_r; [apply app_nil_r|].
      rewrite length_take, length_drop, length_replicate, Hdlen.
      pose proof (clamp_index_le (Math_floor (mul e (Fin r))) (AudioBuffer.length ab)).
      subst frames first. lia.
  - cbn. apply lookup_ge_None. rewrite Hlen'.
    apply lookup_ge_None in Hdata. lia.
Qed.

(** For a range that holds at least one frame, [sliceBuffer] returns the
    slice of the specification: [endFrame - startFrame] frames of every
    channel, from [startFrame] on, at the rate of the source. *)
Theorem sliceBuffer_frames ctx ab s e :
  AudioContext.allocates ctx ->
  AudioBuffer.wf ab -> is_nan s = false -> is_nan e = false ->
  (frame_index ab s < frame_index ab e)%nat ->
  sliceBuffer ctx ab s e
  = Some (sliced ab (frame_index ab s) (frame_index ab e - frame_index ab s)).
Proof.
  intros Hctx Hwf Hs He Hlt. apply sliceBuffer_run; auto.
  destruct Hwf as (Hpos & _ & _ & _ & r & Hr & Hrpos).
  rewrite Hr. apply Hctx; [exact Hpos | lia | reflexivity | now apply Qltb_lt].
Qed.

Lemma webaudio_allocates : AudioContext.allocates AudioContext.webaudio.
Proof.
  intros c n r Hc Hn Hfin Hr. unfold AudioContext.webaudio.
  cbn [AudioContext.createBuffer].
  apply Nat.ltb_lt in Hc, Hn. rewrite Hc, Hn, Hfin, Hr. reflexivity.
Qed.

Lemma sliceBuffer_frames_witness :
  sliceBuffer AudioContext.webaudio
    (AudioBuffer.mk 2 (Fin 4) 8
       [[Fin 0; Fin 1; Fin 2; Fin 3; Fin 4; Fin 5; Fin 6; Fin 7];
        [Fin 0; Fin (-1); Fin (-2); Fin (-3); Fin (-4); Fin (-5); Fin (-6); Fin (-7)]])
    (Fin (1 # 2)) (Fin (5 # 4))
  = Some (AudioBuffer.mk 2 (Fin 4) 3
            [[Fin 2; Fin 3; Fin 4]; [Fin (-2); Fin (-3); Fin (-4)]]).
Proof.
  apply (sliceBuffer_frames AudioContext.webaudio
           (AudioBuffer.mk 2 (Fin 4) 8
              [[Fin 0; Fin 1; Fin 2; Fin 3; Fin 4; Fin 5; Fin 6; Fin 7];
               [Fin 0; Fin (-1); Fin (-2); Fin (-3); Fin (-4); Fin (-5); Fin (-6);
                Fin (-7)]])
           (Fin (1 # 2)) (Fin (5 # 4))).
  - apply webaudio_allocates.
  - split; [simpl; lia|]. split; [reflexivity|].
    split; [repeat constructor|]. split; [reflexivity|].
    exists 4%Q. split; reflexivity.
  - reflexivity.
  - reflexivity.
  - vm_compute. lia.
Defined.

(** The example of the specification: one second cut out of a buffer of
    ten seconds at 44100 Hz has 44100 frames. *)
Lemma sliceBuffer_ten_seconds ctx ab :
  AudioContext.allocates ctx -> AudioBuffer.wf ab ->
  AudioBuffer.sampleRate ab = of_Z 44100 ->
  Z.of_nat (AudioBuffer.length ab) = 441000 ->
  exists out, sliceBuffer ctx ab (Fin 2) (Fin 3) = Some out
              /\ Z.of_nat (AudioBuffer.length out) = 44100
              /\ out = sliced ab (Z.to_nat 88200) (Z.to_nat 44100).
Proof.
  intros Hctx Hwf Hrate Hlen.
  assert (H2 : frame_index ab (Fin 2) = Z.to_nat 88200).
  { unfold frame_index. rewrite Hrate.
    change (Math_floor (mul (Fin 2) (of_Z 44100))) with (zn 88200).
    rewrite clamp_index_zn, Hlen. reflexivity. }
  assert (H3 : frame_index ab (Fin 3) = Z.to_nat 132300).
  { unfold frame_index. rewrite Hrate.
    change (Math_floor (mul (Fin 3) (of_Z 44100))) with (zn 132300).
    rewrite clamp_index_zn, Hlen. reflexivity. }
  exists (sliced ab (Z.to_nat 88200) (Z.to_nat 44100)).
  split; [|split; [|reflexivity]].
  - rewrite (sliceBuffer_frames ctx ab (Fin 2) (Fin 3) Hctx Hwf eq_refl eq_refl);
      rewrite H2, H3; [|lia].
    replace (Z.to_nat 132300 - Z.to_nat 88200)%nat with (Z.to_nat 44100) by lia.
    reflexivity.
  - unfold sliced. cbn [AudioBuffer.length]. lia.
Qed.



(** * Further properties of the handlers and the codecs *)

(** ** More on the colors *)

Lemma with_color_same r : with_color r (Row.color r) = r.
Proof. destruct r. reflexivity. Qed.

Lemma ensureUniqueColors_from_id (used : gset jsstring) l :
  NoDup (List.map Row.color l) ->
  (forall r, r ∈ l -> Row.color r ∈ COLORS /\ Row.color r ∉ used) ->
  ensureUniqueColors_from used l = l.
Proof.
  revert used. induction l as [|r l IH]; intros used Hnd Hl; [reflexivity|].
  cbn [List.map] in Hnd. apply NoDup_cons in Hnd as [Hr Hnd].
  destruct (Hl r ltac:(constructor)) as [Hin Hfree].
  cbn [ensureUniqueColors_from]. cbv zeta.
  rewrite (unique_color_keep used r Hin Hfree), with_color_same. f_equal.
  apply IH; [exact Hnd|].
  intros r' Hr'. destruct (Hl r' ltac:(now constructor)) as [Hin' Hfree'].
  split; [exact Hin'|]. intros Hc.
  apply elem_of_union in Hc as [Hc|Hc]; [|contradiction].
  apply elem_of_singleton in Hc. apply Hr. rewrite <- Hc.
  apply list_elem_of_fmap. exists r'. auto.
Qed.

Lemma ensureUniqueColors_keeps (rowsArr : list Row.t) :
  NoDup (List.map Row.color rowsArr) ->
  (forall r, r ∈ rowsArr -> Row.color r ∈ COLORS) ->
  ensureUniqueColors rowsArr = rowsArr.
Proof.
  intros Hnd Hin. apply ensureUniqueColors_from_id; [exact Hnd|].
  intros r Hr. split; [now apply Hin | apply not_elem_of_empty].
Qed.

(** X1: [ensureUniqueColors] changes nothing in a list whose colors are
    colors of the palette, no two of them equal. *)
Theorem ensureUniqueColors_fixed (rowsArr : list Row.t) :
  NoDup (List.map Row.color rowsArr) ->
  (forall r, r ∈ rowsArr -> Row.color r ∈ COLORS) ->
  ensureUniqueColors rowsArr = rowsArr.
Proof.
  intros Hnd Hin. unfold ensureUniqueColors.
  apply ensureUniqueColors_from_id; [exact Hnd|].
  intros r Hr. split; [now apply Hin | apply not_elem_of_empty].
Qed.

Lemma ensureUniqueColors_fixed_witness :
  let rowsArr := [ Row.mk (lit "a") [] (Fin 1) (Fin 0) (Fin 1) (lit "#3b82f655");
                   Row.mk (lit "b") [] (Fin 1) (Fin 0) (Fin 1) (lit "#22c55e55") ] in
  ensureUniqueColors rowsArr = rowsArr.
Proof.
  intros rowsArr. apply ensureUniqueColors_fixed.
  - apply (bool_decide_unpack _). vm_compute. exact I.
  - intros r Hr. apply list_elem_of_In in Hr.
    destruct Hr as [<-|[<-|[]]]; apply (bool_decide_unpack _); vm_compute; exact I.
Defined.





(** X3: Applying [ensureUniqueColors] twice to at most seven segments gives
    what applying it once gives. *)
Theorem ensureUniqueColors_idempotent (rowsArr : list Row.t) :
  (List.length rowsArr <= 7)%nat ->
  ensureUniqueColors (ensureUniqueColors rowsArr) = ensureUniqueColors rowsArr.
Proof.
  intros Hlen. apply ensureUniqueColors_keeps.
  - apply ensureUniqueColors_from_NoDup. rewrite size_empty. simpl. lia.
  - intros r. apply ensureUniqueColors_from_palette.
Qed.

Lemma ensureUniqueColors_idempotent_witness :
  ensureUniqueColors (ensureUniqueColors [example_row; example_row])
  = ensureUniqueColors [example_row; example_row].
Proof.
  apply (ensureUniqueColors_idempotent [example_row; example_row]).
  repeat constructor.
Defined.

(** ** A file is left and opened again *)

(** Reduction of the fields of a state under the setters. *)
Ltac app_simpl :=
  cbn [files current audioBuffer duration rows wsRef regionsRef acRef
       seedOnReadyRef rowsShadowRef isRestoringRef pendingRowsRef fileRowsRef
       localStorage warnings alerts downloads
       set_rows set_regions set_isRestoring set_files set_current
       set_audioBuffer set_duration set_ws set_ac set_seedOnReady
       set_rowsShadow set_pendingRows set_fileRows set_localStorage
       warn alert download state_of] in *.


Lemma persistCurrent_frame P s :
  rows (persistCurrent P s) = rows s
  /\ regionsRef (persistCurrent P s) = regionsRef s
  /\ wsRef (persistCurrent P s) = wsRef s
  /\ files (persistCurrent P s) = files s
  /\ current (persistCurrent P s) = current s
  /\ duration (persistCurrent P s) = duration s
  /\ rowsShadowRef (persistCurrent P s) = rowsShadowRef s
  /\ alerts (persistCurrent P s) = alerts s
  /\ downloads (persistCurrent P s) = downloads s.
Proof.
  unfold persistCurrent, saveRowsLS.
  destruct (files s !! current s); [|repeat split].
  cbv zeta. destruct (Platform.fits P _); repeat split.
Qed.




(** X5: The default segment: when the cache holds no segment for a file (no
    entry, an unreadable entry, or an empty list), [loadFile] and the
    next [ready] end with exactly one segment, from 0 to the least of one
    second and the duration, with an empty label, the default length
    and the first color, and with its region. *)
Theorem first_load_seeds (P : Platform.t) (s : App) (f : File.t)
    (regs : list Region.t) (ws : WaveSurfer.t) (d : num) (id : jsstring) :
  regionsRef s = Some regs -> wsRef s = Some ws ->
  (forall r l, restore P s (fileKey (Some f)) <> JArray (r :: l)) ->
  let seeded := Row.mk id [] (Fin 1) (Fin 0) (Math_min (Fin 1) d) COLORS_0 in
  let ready := on_ready (state_of (loadFile P s f)) d id in
  rows ready = [seeded]
  /\ regionsRef ready = Some [region_of_row seeded]
  /\ seedOnReadyRef ready = false
  /\ duration ready = d.
Proof.
  intros Hregs Hws Hnone seeded ready. subst ready.
  unfold loadFile.
  set (s1 := clearAllRegions (set_isRestoring s true)).
  assert (Hr : restore P s1 (fileKey (Some f)) = restore P s (fileKey (Some f))).
  { subst s1. apply restore_ext.
    - now rewrite (proj1 (clearAllRegions_cache _)).
    - now rewrite (proj1 (proj2 (clearAllRegions_cache _))). }
  assert (Hws1 : wsRef s1 = Some ws).
  { subst s1. now rewrite (proj2 (proj2 (clearAllRegions_cache _))). }
  assert (Hregs1 : regionsRef s1 = Some []).
  { subst s1. unfold clearAllRegions. app_simpl. rewrite Hregs. reflexivity. }
  cbv zeta. rewrite Hr.
  assert (Hgoal : forall s2, regionsRef s2 = Some [] ->
            pendingRowsRef s2 = None -> seedOnReadyRef s2 = true ->
            let s3 := on_ready s2 d id in
            rows s3 = [seeded] /\ regionsRef s3 = Some [region_of_row seeded]
            /\ seedOnReadyRef s3 = false /\ duration s3 = d).
  { intros s2 Hr2 Hp2 Hseed. unfold on_ready. cbv zeta. app_simpl.
    rewrite Hp2, Hseed. cbn [orb].
    unfold renderRowsToRegions, clearAllRegions. app_simpl. rewrite Hr2.
    app_simpl. repeat split. }
  destruct (restore P s (fileKey (Some f))) as [|[|r l]|] eqn:E;
    try (exfalso; apply (Hnone r l); reflexivity);
    app_simpl; rewrite Hws1; destruct (acRef s1); apply Hgoal; app_simpl; auto.
Qed.

Lemma first_load_seeds_witness :
  rows (on_ready (state_of (loadFile example_platform example_state example_file2))
          (Fin (1 # 2)) (lit "c"))
  = [Row.mk (lit "c") [] (Fin 1) (Fin 0) (Fin (1 # 2)) COLORS_0].
Proof.
  refine (proj1 (first_load_seeds example_platform example_state example_file2
                   _ _ (Fin (1 # 2)) (lit "c") eq_refl eq_refl _)).
  intros r l. vm_compute. discriminate.
Defined.

(** ** Dragging a region *)







(** ** Patching a segment twice *)

Ltac num_cases :=
  unfold_num; split_Qltb; unfold_num;
  try solve [ reflexivity | exact I | discriminate | contradiction | lra | tauto
            | exfalso; lra ].

Lemma Math_min_absorb a b : Math_min a (Math_min a b) = Math_min a b.
Proof. destruct a, b; num_cases. Qed.

Lemma Math_min_idem_l a b : Math_min (Math_min a b) b = Math_min a b.
Proof. destruct a, b; num_cases. Qed.

Lemma clamp_len_idem A x :
  Math_min A (Math_max MIN_LEN (Math_min A (Math_max MIN_LEN x)))
  = Math_min A (Math_max MIN_LEN x).
Proof. destruct A, x; num_cases. Qed.

(** X7: Patching a segment a second time with the same patch changes
    nothing. *)
Theorem applyPatch_idempotent (dur : num) (id : jsstring) (patch : Patch.t)
    (r : Row.t) :
  applyPatch dur id patch (applyPatch dur id patch r) = applyPatch dur id patch r.
Proof.
  destruct (bool_decide (Row.id r = id)) eqn:Eid.
  2:{ assert (H : applyPatch dur id patch r = r)
        by (unfold applyPatch; rewrite Eid; reflexivity).
      now rewrite !H. }
  set (maxAllowed := Math_min MAX_LEN (add dur (Fin 1))).
  set (maxLen := Math_min maxAllowed
                   (Math_max MIN_LEN (nullish (Patch.maxLen patch) (Row.maxLen r)))).
  set (latestStart := Math_max (Fin 0) (sub dur maxLen)).
  set (start := if isFinite dur
                then Math_min (nullish (Patch.start patch) (Row.start r)) latestStart
                else nullish (Patch.start patch) (Row.start r)).
  set (end_ := Math_min (add start maxLen)
                 (if isFinite dur then dur else nullish (Patch.end_ patch) (Row.end_ r))).
  assert (H1 : applyPatch dur id patch r
               = Row.mk (nullish (Patch.id patch) (Row.id r))
                   (nullish (Patch.label patch) (Row.label r))
                   maxLen start end_
                   (nullish (Patch.color patch) (Row.color r)))
    by (unfold applyPatch; rewrite Eid; reflexivity).
  rewrite H1. unfold applyPatch.
  cbn [Row.id Row.label Row.maxLen Row.start Row.end_ Row.color].
  destruct (bool_decide (nullish (Patch.id patch) (Row.id r) = id)); cbn [negb];
    [|reflexivity].
  cbv zeta. fold maxAllowed.
  assert (Hm : Math_min maxAllowed
                 (Math_max MIN_LEN (nullish (Patch.maxLen patch) maxLen)) = maxLen).
  { destruct (Patch.maxLen patch); cbn [nullish]; [reflexivity|].
    subst maxLen. cbn [nullish]. apply clamp_len_idem. }
  rewrite Hm. fold latestStart.
  assert (Hs : (if isFinite dur
                then Math_min (nullish (Patch.start patch) start) latestStart
                else nullish (Patch.start patch) start) = start).
  { subst start. destruct (Patch.start patch); cbn [nullish]; [reflexivity|].
    destruct (isFinite dur); [apply Math_min_idem_l | reflexivity]. }
  rewrite Hs.
  assert (He : Math_min (add start maxLen)
                 (if isFinite dur then dur else nullish (Patch.end_ patch) end_) = end_).
  { subst end_. destruct (isFinite dur); [reflexivity|].
    destruct (Patch.end_ patch); cbn [nullish]; [reflexivity|].
    apply Math_min_absorb. }
  rewrite He.
  destruct (Patch.id patch), (Patch.label patch), (Patch.color patch); reflexivity.
Qed.

(** X8: Once [updateRow] has bounded a segment, a patch without numbers (a
    label) changes no number of it. *)
Theorem applyPatch_label_only (dur : num) (id : jsstring) (p q : Patch.t)
    (r : Row.t) :
  Row.id r = id -> Patch.id p = None ->
  Patch.maxLen q = None -> Patch.start q = None -> Patch.end_ q = None ->
  let r' := applyPatch dur id p r in
  let r'' := applyPatch dur id q r' in
  Row.maxLen r'' = Row.maxLen r' /\ Row.start r'' = Row.start r'
  /\ Row.end_ r'' = Row.end_ r'
  /\ Row.label r'' = nullish (Patch.label q) (Row.label r').
Proof.
  intros Hid Hpid Hqm Hqs Hqe r' r''.
  set (maxAllowed := Math_min MAX_LEN (add dur (Fin 1))).
  set (maxLen := Math_min maxAllowed
                   (Math_max MIN_LEN (nullish (Patch.maxLen p) (Row.maxLen r)))).
  set (latestStart := Math_max (Fin 0) (sub dur maxLen)).
  set (start := if isFinite dur
                then Math_min (nullish (Patch.start p) (Row.start r)) latestStart
                else nullish (Patch.start p) (Row.start r)).
  set (end_ := Math_min (add start maxLen)
                 (if isFinite dur then dur else nullish (Patch.end_ p) (Row.end_ r))).
  assert (H1 : r' = Row.mk id (nullish (Patch.label p) (Row.label r))
                   maxLen start end_ (nullish (Patch.color p) (Row.color r))).
  { subst r'. unfold applyPatch. rewrite bool_decide_eq_true_2 by exact Hid.
    rewrite Hpid, Hid. reflexivity. }
  subst r''. rewrite H1. unfold applyPatch.
  cbn [Row.id Row.label Row.maxLen Row.start Row.end_ Row.color].
  rewrite bool_decide_eq_true_2 by reflexivity. cbn [negb]. cbv zeta.
  rewrite Hqm, Hqs, Hqe. cbn [nullish Row.maxLen Row.start Row.end_ Row.label].
  fold maxAllowed.
  assert (Hm : Math_min maxAllowed (Math_max MIN_LEN maxLen) = maxLen)
    by apply clamp_len_idem.
  rewrite Hm. fold latestStart.
  assert (Hs : (if isFinite dur then Math_min start latestStart else start) = start).
  { subst start. destruct (isFinite dur); [apply Math_min_idem_l | reflexivity]. }
  rewrite Hs.
  assert (He : Math_min (add start maxLen) (if isFinite dur then dur else end_) = end_).
  { subst end_. destruct (isFinite dur); [reflexivity | apply Math_min_absorb]. }
  rewrite He. repeat split.
Qed.

Lemma applyPatch_label_only_witness :
  let p := Patch.mk None None (Some (Fin 9)) (Some (Fin 1)) None None in
  let q := Patch.mk None (Some (lit "hi")) None None None None in
  let r' := applyPatch (Fin 2) (lit "a") p example_row in
  Row.start (applyPatch (Fin 2) (lit "a") q r') = Row.start r'.
Proof.
  intros p q r'.
  exact (proj1 (proj2 (applyPatch_label_only (Fin 2) (lit "a") p q example_row
                         eq_refl eq_refl eq_refl eq_refl eq_refl))).
Defined.

(** ** The segment and its region after [updateRow] *)










(** ** Region and segment after a drag *)



(** ** Adding and removing a segment *)

Lemma size_colors_le (l : list Row.t) :
  (size (list_to_set (List.map Row.color l) : gset jsstring) <= List.length l)%nat.
Proof.
  rewrite <- (length_map Row.color). generalize (List.map Row.color l) as cs.
  induction cs as [|c cs IH]; [rewrite list_to_set_nil, size_empty; lia|].
  rewrite list_to_set_cons, size_union_alt, size_singleton. cbn [List.length].
  assert (H : (size ((list_to_set cs : gset jsstring) ∖ {[c]}) <= size (list_to_set cs : gset jsstring))%nat).
  { apply subseteq_size. apply subseteq_difference_l. reflexivity. }
  lia.
Qed.

(** X11: Below the cap, in a loaded file, [addRow] appends exactly one
    segment: it starts at 0, ends at the least of one second and the
    duration of the player, has an empty label and the default length, and
    bears a color of the palette that no segment of the shadow list bears;
    a region with the same bounds and color is appended, and no notice is
    raised.  When the shadow list is the list of segments and their colors
    are different, they stay different. *)
Theorem addRow_appends (s : App) (id : jsstring) (ws : WaveSurfer.t)
    (regs : list Region.t) :
  wsRef s = Some ws -> regionsRef s = Some regs ->
  canAddRegion s = true ->
  (List.length (rows s) < 7)%nat ->
  (List.length (rowsShadowRef s) < 7)%nat ->
  exists s' r reg,
    addRow s id = Returned s'
    /\ rows s' = rows s ++ [r]
    /\ regionsRef s' = Some (regs ++ [reg])
    /\ alerts s' = alerts s
    /\ Row.id r = id /\ Row.label r = [] /\ Row.maxLen r = Fin 1
    /\ Row.start r = Fin 0
    /\ Row.end_ r = Math_min (Fin 1) (WaveSurfer.getDuration ws)
    /\ (Row.color r ∈ COLORS)
    /\ (Row.color r ∉ List.map Row.color (rowsShadowRef s))
    /\ Region.id reg = id /\ Region.start reg = Row.start r
    /\ Region.end_ reg = Row.end_ r /\ Region.color reg = Row.color r
    /\ (rowsShadowRef s = rows s -> NoDup (List.map Row.color (rows s)) ->
        NoDup (List.map Row.color (rows s'))).
Proof.
  intros Hws Hregs Hcan Hlen Hshadow.
  unfold addRow. rewrite Hws, Hcan. cbn [negb].
  destruct (Nat.leb_spec MAX_REGIONS (List.length (rows s))) as [H|_];
    [unfold MAX_REGIONS in H; lia|].
  cbv zeta. rewrite Hregs.
  assert (Hfresh : pickColor (Some (rowsShadowRef s))
                   ∉ List.map Row.color (rowsShadowRef s)).
  { unfold pickColor. intros Hin.
    apply (first_free_fresh (list_to_set (List.map Row.color (rowsShadowRef s)))).
    - pose proof (size_colors_le (rowsShadowRef s)). lia.
    - apply elem_of_list_to_set. exact Hin. }
  eexists. eexists. eexists. split; [reflexivity|]. app_simpl.
  cbn [Row.id Row.label Row.maxLen Row.start Row.end_ Row.color
       Region.id Region.start Region.end_ Region.color].
  repeat (split; [reflexivity|]).
  split; [apply first_free_in|]. split; [exact Hfresh|].
  repeat (split; [reflexivity|]).
  intros Heq Hnd. rewrite map_app. cbn [List.map Row.color].
  apply NoDup_app. split; [exact Hnd|]. split; [|apply NoDup_singleton].
  intros c Hc Hc'. apply list_elem_of_singleton in Hc'. subst c.
  rewrite Heq in Hfresh, Hc. contradiction.
Qed.

Lemma addRow_appends_witness :
  exists s', addRow example_state (lit "c") = Returned s'.
Proof.
  destruct (addRow_appends example_state (lit "c") (WaveSurfer.mk (Fin 2))
              (List.map region_of_row example_rows) eq_refl eq_refl eq_refl)
    as (s' & _ & _ & Hrun & _).
  - repeat constructor.
  - repeat constructor.
  - exists s'. exact Hrun.
Defined.

Lemma filter_none_id id (l : list Row.t) :
  id ∉ List.map Row.id l ->
  List.filter (fun r => negb (bool_decide (Row.id r = id))) l = l.
Proof.
  induction l as [|r l IH]; intros Hnot; [reflexivity|].
  cbn [List.map] in Hnot. apply not_elem_of_cons in Hnot as [Hne Hnot].
  cbn [List.filter]. rewrite bool_decide_eq_false_2 by congruence.
  cbn [negb]. now rewrite IH.
Qed.

Lemma remove_region_none id (l : list Region.t) :
  id ∉ List.map Region.id l -> remove_region id l = l.
Proof.
  induction l as [|r l IH]; intros Hnot; [reflexivity|].
  cbn [List.map] in Hnot. apply not_elem_of_cons in Hnot as [Hne Hnot].
  cbn [remove_region]. rewrite bool_decide_eq_false_2 by congruence.
  now rewrite IH.
Qed.

Lemma remove_region_last id (l : list Region.t) reg :
  id ∉ List.map Region.id l -> Region.id reg = id ->
  remove_region id (l ++ [reg]) = l.
Proof.
  intros Hnot Hid. induction l as [|r l IH].
  - cbn. now rewrite bool_decide_eq_true_2.
  - cbn [List.map] in Hnot. apply not_elem_of_cons in Hnot as [Hne Hnot].
    cbn. rewrite bool_decide_eq_false_2 by congruence. now rewrite IH.
Qed.

(** X12: A segment that [addRow] has added under a fresh, non-empty id is
    taken back by [removeRow]: the segments and the regions are those of
    before, whatever [addRow] did (at the cap and before the file is
    loaded it adds nothing, and there is nothing to remove). *)
Theorem removeRow_undoes_addRow (s : App) (id : jsstring) :
  id <> [] ->
  id ∉ List.map Row.id (rows s) ->
  (forall regs, regionsRef s = Some regs -> id ∉ List.map Region.id regs) ->
  let s' := removeRow (state_of (addRow s id)) id in
  rows s' = rows s /\ regionsRef s' = regionsRef s.
Proof.
  intros Hid Hrows Hregs s'. subst s'.
  unfold removeRow. destruct id as [|c id]; [contradiction|].
  set (i := c :: id) in *.
  unfold addRow.
  destruct (wsRef s) as [ws|]; cbn [state_of].
  2:{ destruct (regionsRef s) as [regs|] eqn:E; app_simpl; rewrite ?E;
      rewrite filter_none_id by exact Hrows;
      rewrite ?remove_region_none by (now apply Hregs); auto. }
  destruct (negb (canAddRegion s)); cbn [state_of].
  { destruct (regionsRef s) as [regs|] eqn:E; app_simpl; rewrite ?E;
      rewrite filter_none_id by exact Hrows;
      rewrite ?remove_region_none by (now apply Hregs); auto. }
  destruct (MAX_REGIONS <=? List.length (rows s))%nat; cbn [state_of].
  { destruct (regionsRef s) as [regs|] eqn:E; app_simpl; rewrite ?E;
      rewrite filter_none_id by exact Hrows;
      rewrite ?remove_region_none by (now apply Hregs); auto. }
  cbv zeta. destruct (regionsRef s) as [regs|] eqn:E; cbn [state_of]; app_simpl.
  - rewrite List.filter_app, filter_none_id by exact Hrows.
    cbn [List.filter Row.id]. rewrite bool_decide_eq_true_2 by reflexivity.
    cbn [negb]. rewrite app_nil_r. split; [reflexivity|].
    rewrite remove_region_last; [reflexivity | now apply Hregs | reflexivity].
  - rewrite E. app_simpl. rewrite filter_none_id by exact Hrows. auto.
Qed.

Lemma removeRow_undoes_addRow_witness :
  rows (removeRow (state_of (addRow example_state (lit "c"))) (lit "c")) = example_rows.
Proof.
  refine (proj1 (removeRow_undoes_addRow example_state (lit "c") _ _ _)).
  - discriminate.
  - apply (bool_decide_unpack _). vm_compute. exact I.
  - intros regs Hregs. injection Hregs as <-.
    apply (bool_decide_unpack _). vm_compute. exact I.
Defined.

Lemma remove_region_ids id (l : list Region.t) :
  NoDup (List.map Region.id l) ->
  List.map Region.id (remove_region id l)
  = List.filter (fun i => negb (bool_decide (i = id))) (List.map Region.id l).
Proof.
  induction l as [|r l IH]; intros Hnd; [reflexivity|].
  cbn [List.map] in Hnd. apply NoDup_cons in Hnd as [Hnot Hnd].
  cbn [remove_region List.map List.filter].
  destruct (bool_decide (Region.id r = id)) eqn:E; cbn [negb].
  - apply bool_decide_eq_true in E. subst id.
    symmetry. clear IH Hnd. induction (List.map Region.id l) as [|i0 ids IH]; [reflexivity|].
    apply not_elem_of_cons in Hnot as [Hne Hnot].
    cbn [List.filter]. rewrite bool_decide_eq_false_2 by congruence.
    cbn [negb]. now rewrite IH.
  - cbn [List.map]. now rewrite IH.
Qed.

Lemma filter_rows_ids id (l : list Row.t) :
  List.map Row.id (List.filter (fun r => negb (bool_decide (Row.id r = id))) l)
  = List.filter (fun i => negb (bool_decide (i = id))) (List.map Row.id l).
Proof.
  induction l as [|r l IH]; [reflexivity|].
  cbn [List.map List.filter].
  destruct (bool_decide (Row.id r = id)); cbn [negb List.map]; now rewrite IH.
Qed.

(** X13: [removeRow] keeps the regions in step with the segments: when the
    regions bear the ids of the segments, in the same order and without
    repetition, they still do after the removal; no segment with the
    removed id is left, and every other segment stays. *)
Theorem removeRow_in_step (s : App) (id : jsstring) (regs : list Region.t) :
  id <> [] ->
  regionsRef s = Some regs ->
  List.map Region.id regs = List.map Row.id (rows s) ->
  NoDup (List.map Row.id (rows s)) ->
  let s' := removeRow s id in
  exists regs',
    regionsRef s' = Some regs'
    /\ List.map Region.id regs' = List.map Row.id (rows s')
    /\ NoDup (List.map Row.id (rows s'))
    /\ (id ∉ List.map Row.id (rows s'))
    /\ (forall r, r ∈ rows s -> Row.id r <> id -> r ∈ rows s')
    /\ (forall r, r ∈ rows s' -> r ∈ rows s).
Proof.
  intros Hid Hregs Hstep Hnd s'. subst s'. unfold removeRow.
  destruct id as [|c id]; [contradiction|]. set (i := c :: id) in *.
  rewrite Hregs. app_simpl. eexists. split; [reflexivity|].
  split; [rewrite remove_region_ids, filter_rows_ids, Hstep by (now rewrite Hstep);
          reflexivity|].
  split.
  { rewrite filter_rows_ids. apply NoDup_ListNoDup, List.NoDup_filter.
    now apply NoDup_ListNoDup. }
  split.
  { rewrite filter_rows_ids. intros Hin. apply list_elem_of_In, filter_In in Hin.
    destruct Hin as [_ Hin]. rewrite bool_decide_eq_true_2 in Hin by reflexivity.
    discriminate. }
  split.
  - intros r Hr Hne. apply list_elem_of_In, filter_In. split.
    + now apply list_elem_of_In.
    + now rewrite bool_decide_eq_false_2.
  - intros r Hr. apply list_elem_of_In, filter_In in Hr. apply list_elem_of_In, Hr.
Qed.

Lemma removeRow_in_step_witness :
  exists regs', regionsRef (removeRow example_state (lit "a")) = Some regs'.
Proof.
  destruct (removeRow_in_step example_state (lit "a")
              (List.map region_of_row example_rows))
    as (regs' & Hregs & _).
  - discriminate.
  - reflexivity.
  - reflexivity.
  - apply (bool_decide_unpack _). vm_compute. exact I.
  - exists regs'. exact Hregs.
Defined.

(** ** Invariants of a session *)

Lemma remove_at_elem (i : nat) (l : list File.t) f :
  f ∈ remove_at i l -> f ∈ l.
Proof.
  unfold remove_at. intros H. apply elem_of_app in H as [H|H].
  - apply (subseteq_take i l), H.
  - apply (subseteq_drop (S i) l), H.
Qed.

(** X14: Only files whose name ends in [.wav] (in upper or lower case) are
    ever in the file list. *)
Theorem reachable_files_are_wav (P : Platform.t) (storage : gmap jsstring jsstring)
    (s : App) :
  reachable P storage s ->
  Forall (fun f => is_wav (File.name f) = true) (files s).
Proof.
  induction 1 as [|s e Hreach IH]; [constructor|].
  destruct e; cbn [handle]; try exact IH.
  - unfold onPickFiles.
    destruct (List.filter _ selected) as [|f0 picked] eqn:E; [exact IH|].
    assert (Hnew : Forall (fun f => is_wav (File.name f) = true) (files s ++ f0 :: picked)).
    { apply Forall_app. split; [exact IH|]. rewrite <- E.
      apply Forall_forall. intros f Hf. apply list_elem_of_In, filter_In in Hf. apply Hf. }
    destruct (files s); exact Hnew.
  - unfold load_effect. destruct (files s !! current s) as [f|]; [|exact IH].
    unfold loadFile, clearAllRegions. cbv zeta. app_simpl.
    destruct (regionsRef s); app_simpl; destruct (wsRef s); app_simpl;
      try exact IH; destruct (acRef s); exact IH.
  - unfold on_ready, renderRowsToRegions, clearAllRegions. cbv zeta. app_simpl.
    destruct (pendingRowsRef s) as [[|r l]|]; app_simpl;
      repeat match goal with
        | |- context [match ?x with _ => _ end] => destruct x; app_simpl
        | |- context [if ?x then _ else _] => destruct x; app_simpl
        end; exact IH.
  - unfold persist_effect, persistCurrent, saveRowsLS.
    destruct (isRestoringRef s); [exact IH|].
    destruct (files s !! current s); [|exact IH]. cbv zeta.
    destruct (Platform.fits P _); exact IH.
  - now rewrite (proj1 (proj2 (proj2 (proj2 (persistCurrent_frame P s))))).
  - unfold addRow. destruct (wsRef s); [|exact IH].
    destruct (negb (canAddRegion s)); [exact IH|].
    destruct (MAX_REGIONS <=? _)%nat; [exact IH|]. cbv zeta.
    destruct (regionsRef s); exact IH.
  - unfold updateRow. cbv zeta. app_simpl. destruct (regionsRef s) as [l|]; [|exact IH].
    destruct (find_region id l); [|exact IH].
    destruct (region_bounds _ _ _ _). exact IH.
  - unfold removeRow. destruct id; [exact IH|]. destruct (regionsRef s); exact IH.
  - unfold saveRow. destruct (audioBuffer s); [|exact IH].
    destruct (files s !! current s); [|exact IH].
    destruct (acRef s); [|exact IH].
    destruct (sliceBuffer _ _ _ _); [|exact IH].
    destruct (audioBufferToWav _); exact IH.
  - unfold saveAll. generalize (rows s) as l. revert IH. generalize s as s0.
    intros s0 IH l. revert s0 IH. induction l as [|r l IHl]; intros s0 IH; [exact IH|].
    cbn [saveRows].
    assert (Hsame : files (state_of (saveRow s0 r)) = files s0).
    { unfold saveRow. destruct (audioBuffer s0); [|reflexivity].
      destruct (files s0 !! current s0); [|reflexivity].
      destruct (acRef s0); [|reflexivity].
      destruct (sliceBuffer _ _ _ _); [|reflexivity].
      destruct (audioBufferToWav _); reflexivity. }
    destruct (saveRow s0 r) as [s1|s1]; cbn [state_of] in *.
    + apply IHl. now rewrite Hsame.
    + now rewrite Hsame.
  - unfold nextFile. destruct (_ <? _)%nat; [|exact IH]. app_simpl.
    now rewrite (proj1 (proj2 (proj2 (proj2 (persistCurrent_frame P s))))).
  - unfold selectFile. app_simpl.
    now rewrite (proj1 (proj2 (proj2 (proj2 (persistCurrent_frame P s))))).
  - unfold completeAndNext. destruct (files s) as [|f0 fs] eqn:E; [rewrite E; constructor|].
    cbv zeta. unfold deleteRowsLS, clearAllRegions. app_simpl. rewrite ?E.
    assert (Hrem : Forall (fun f => is_wav (File.name f) = true)
                     (remove_at (current s) (f0 :: fs))).
    { apply Forall_forall. intros f Hf. apply remove_at_elem in Hf.
      rewrite Forall_forall in IH. now apply IH. }
    destruct (remove_at (current s) (f0 :: fs)) eqn:E2; app_simpl.
    + destruct (regionsRef s); app_simpl; constructor.
    + exact Hrem.
Qed.

Lemma reachable_files_are_wav_witness :
  Forall (fun f => is_wav (File.name f) = true)
    (files (handle example_platform (initial ∅)
              (PickFiles [example_file; example_notes; example_file2]))).
Proof.
  apply (reachable_files_are_wav example_platform ∅).
  apply reachable_step, reachable_initial.
Defined.

Ltac crush_matches :=
  repeat match goal with
    | |- context [match ?x with _ => _ end] => destruct x eqn:?; app_simpl
    end.

Ltac refs_done IH :=
  solve [ exact IH | discriminate | congruence
        | intros ?; exfalso; apply IH; congruence
        | intros ?; apply IH; congruence ].

Lemma saveRow_refs s r :
  wsRef (state_of (saveRow s r)) = wsRef s
  /\ regionsRef (state_of (saveRow s r)) = regionsRef s.
Proof.
  unfold saveRow. destruct (audioBuffer s); [|auto].
  destruct (files s !! current s); [|auto].
  destruct (acRef s); [|auto].
  destruct (sliceBuffer _ _ _ _); [|auto].
  destruct (audioBufferToWav _); auto.
Qed.

Lemma saveRows_refs l : forall s,
  wsRef (state_of (saveRows s l)) = wsRef s
  /\ regionsRef (state_of (saveRows s l)) = regionsRef s.
Proof.
  induction l as [|r l IH]; intros s; [auto|].
  cbn [saveRows]. destruct (saveRow_refs s r) as [H1 H2].
  destruct (saveRow s r) as [s1|s1]; cbn [state_of] in *.
  - destruct (IH s1) as [H3 H4]. split; congruence.
  - auto.
Qed.

Lemma mounted_together_handle P s e :
  mounted_together s -> mounted_together (handle P s e).
Proof.
  unfold mounted_together. intros IH.
  destruct e; cbn [handle]; try exact IH.
  - unfold mount. app_simpl. discriminate.
  - unfold onPickFiles. crush_matches; refs_done IH.
  - unfold load_effect, loadFile, clearAllRegions. cbv zeta. app_simpl.
    crush_matches; refs_done IH.
  - unfold on_ready, renderRowsToRegions, clearAllRegions. cbv zeta. app_simpl.
    crush_matches; refs_done IH.
  - unfold on_region_updated. cbv zeta. app_simpl.
    destruct (regionsRef s); [discriminate | exact IH].
  - unfold persist_effect. destruct (isRestoringRef s); [exact IH|].
    destruct (persistCurrent_frame P s) as (_ & -> & -> & _). exact IH.
  - destruct (persistCurrent_frame P s) as (_ & -> & -> & _). exact IH.
  - unfold addRow. cbv zeta. crush_matches; refs_done IH.
  - unfold updateRow. cbv zeta. app_simpl. crush_matches; refs_done IH.
  - unfold removeRow. crush_matches; refs_done IH.
  - destruct (saveRow_refs s r) as [-> ->]. exact IH.
  - unfold saveAll. destruct (saveRows_refs (rows s) s) as [-> ->]. exact IH.
  - unfold nextFile. destruct (_ <? _)%nat; [|exact IH]. app_simpl.
    destruct (persistCurrent_frame P s) as (_ & -> & -> & _). exact IH.
  - unfold selectFile. app_simpl.
    destruct (persistCurrent_frame P s) as (_ & -> & -> & _). exact IH.
  - unfold completeAndNext, deleteRowsLS, clearAllRegions. cbv zeta. app_simpl.
    crush_matches; refs_done IH.
Qed.

(** X15: In every state of a session, [addRow] returns; once the player is
    created, [updateRow] returns as well and [loadFile] gets as far as
    the decoding: none of them meets a missing player or missing
    regions. *)
Theorem reachable_handlers_return (P : Platform.t) (storage : gmap jsstring jsstring)
    (s : App) :
  reachable P storage s ->
  (forall id, exists s', addRow s id = Returned s')
  /\ (wsRef s <> None ->
      (forall id patch, exists s', updateRow s id patch = Returned s')
      /\ (forall f, exists s', loadFile P s f = Returned s')).
Proof.
  intros Hreach.
  assert (Hinv : mounted_together s).
  { induction Hreach as [|s e _ IH]; [intros H; now elim H|].
    now apply mounted_together_handle. }
  unfold mounted_together in Hinv. split.
  - intros id. unfold addRow. destruct (wsRef s) as [ws|] eqn:Ews; [|eauto].
    destruct (negb (canAddRegion s)); [eauto|].
    destruct (MAX_REGIONS <=? _)%nat; [eauto|]. cbv zeta.
    destruct (regionsRef s) eqn:E; [eauto|]. exfalso. now apply Hinv.
  - intros Hws. specialize (Hinv Hws). split.
    + intros id patch. unfold updateRow. cbv zeta. app_simpl.
      destruct (regionsRef s) as [l|]; [|contradiction].
      destruct (find_region id l); [|eauto].
      destruct (region_bounds _ _ _ _). eauto.
    + intros f. unfold loadFile, clearAllRegions. cbv zeta. app_simpl.
      destruct (regionsRef s); [|contradiction]. app_simpl.
      destruct (wsRef s); [|contradiction]. eauto.
Qed.

Lemma reachable_handlers_return_witness :
  exists s',
    addRow (handle example_platform (initial ∅) Mount) (lit "a") = Returned s'.
Proof.
  refine (proj1 (reachable_handlers_return example_platform ∅ _ _) (lit "a")).
  apply reachable_step, reachable_initial.
Defined.

(** ** Completing a file *)

Lemma remove_at_lookup_lt (i j : nat) (l : list File.t) :
  (j < i)%nat -> (i < List.length l)%nat -> remove_at i l !! j = l !! j.
Proof.
  intros Hj Hi. unfold remove_at.
  rewrite lookup_app_l by (rewrite length_take; lia).
  apply lookup_take_lt. exact Hj.
Qed.

Lemma remove_at_lookup_ge (i j : nat) (l : list File.t) :
  (i <= j)%nat -> (i < List.length l)%nat -> remove_at i l !! j = l !! S j.
Proof.
  intros Hj Hi. unfold remove_at.
  rewrite lookup_app_r by (rewrite length_take; lia).
  rewrite length_take, lookup_drop. f_equal. lia.
Qed.

Lemma remove_at_length (i : nat) (l : list File.t) :
  (i < List.length l)%nat -> List.length (remove_at i l) = (List.length l - 1)%nat.
Proof.
  intros Hi. unfold remove_at. rewrite length_app, length_take, length_drop. lia.
Qed.

(** X16: [completeAndNext] takes the open file, and only it, out of the list:
    the files before it keep their place and the files after it move up by
    one.  The file that followed becomes the open file; after the last
    file of the list, it is the file that preceded; after the only file,
    the list is empty and the segments and regions are cleared.  The
    cached segments of every other file are kept, in memory and in the
    storage. *)
Theorem completeAndNext_files (s : App) :
  (current s < List.length (files s))%nat ->
  let s' := completeAndNext s in
  let n := List.length (files s) in
  List.length (files s') = (n - 1)%nat
  /\ (forall j, (j < current s)%nat -> files s' !! j = files s !! j)
  /\ (forall j, (current s <= j)%nat -> files s' !! j = files s !! S j)
  /\ ((S (current s) < n)%nat ->
      current s' = current s /\ files s' !! current s' = files s !! S (current s))
  /\ ((S (current s) = n)%nat -> (1 < n)%nat ->
      S (current s') = current s
      /\ files s' !! current s' = files s !! (current s - 1)%nat)
  /\ ((n = 1)%nat ->
      files s' = [] /\ current s' = 0%nat
      /\ (regionsRef s <> None -> rows s' = [] /\ regionsRef s' = Some []))
  /\ ((1 < n)%nat -> rows s' = rows s /\ regionsRef s' = regionsRef s)
  /\ (forall key, key <> fileKey (files s !! current s) ->
        fileRowsRef s' !! key = fileRowsRef s !! key
        /\ localStorage s' !! (LS_PREFIX ++ key) = localStorage s !! (LS_PREFIX ++ key)).
Proof.
  intros Hcur s' n.
  pose proof (remove_at_length (current s) (files s) Hcur) as Hlen.
  assert (Hs' : files s' = remove_at (current s) (files s)
                /\ current s' = (if bool_decide (n = 1%nat) then 0
                                 else Nat.min (current s) (n - 2))%nat
                /\ fileRowsRef s' = delete (fileKey (files s !! current s)) (fileRowsRef s)
                /\ localStorage s'
                   = delete (LS_PREFIX ++ fileKey (files s !! current s)) (localStorage s)
                /\ ((1 < n)%nat -> rows s' = rows s /\ regionsRef s' = regionsRef s)
                /\ (n = 1%nat -> regionsRef s <> None ->
                    rows s' = [] /\ regionsRef s' = Some [])).
  { subst s' n. unfold completeAndNext.
    destruct (files s) as [|f0 fs] eqn:E; [simpl in Hcur; lia|]. rewrite <- E in *.
    cbv zeta. unfold deleteRowsLS. app_simpl.
    destruct (remove_at (current s) (files s)) as [|g gs] eqn:E2.
    - assert (Hn : List.length (files s) = 1%nat) by (cbn in Hlen; lia).
      rewrite bool_decide_eq_true_2 by exact Hn.
      unfold clearAllRegions. app_simpl.
      destruct (regionsRef s) eqn:Er; app_simpl; rewrite ?E2;
        repeat split; auto; try lia; try congruence.
    - rewrite <- E2 in *. app_simpl.
      assert (Hn : List.length (files s) <> 1%nat) by (rewrite E2 in Hlen; cbn in Hlen; lia).
      rewrite bool_decide_eq_false_2 by exact Hn. rewrite Hlen.
      repeat split; auto; lia. }
  destruct Hs' as (Hfiles & Hcurrent & Hmap & Hls & Hkeep & Hclear).
  split; [now rewrite Hfiles|].
  split; [intros j Hj; rewrite Hfiles; now apply remove_at_lookup_lt|].
  split; [intros j Hj; rewrite Hfiles; now apply remove_at_lookup_ge|].
  split.
  { intros Hnext. rewrite Hcurrent, bool_decide_eq_false_2 by lia.
    rewrite Nat.min_l by lia. split; [reflexivity|].
    rewrite Hfiles. apply remove_at_lookup_ge; [lia | exact Hcur]. }
  split.
  { intros Hlast Hmany. rewrite Hcurrent, bool_decide_eq_false_2 by lia.
    rewrite Nat.min_r by lia. split; [lia|].
    rewrite Hfiles, remove_at_lookup_lt by lia. f_equal. lia. }
  split.
  { intros Hone. rewrite Hcurrent, bool_decide_eq_true_2 by exact Hone.
    split; [|split; [reflexivity | now apply Hclear]].
    apply length_zero_iff_nil. rewrite Hfiles, Hlen. fold n. lia. }
  split; [exact Hkeep|].
  intros key Hkey. rewrite Hmap, Hls. split.
  - now apply lookup_delete_ne.
  - apply lookup_delete_ne. intros Heq. apply LS_key_inj in Heq. congruence.
Qed.

Lemma completeAndNext_files_witness :
  List.length (files (completeAndNext example_state)) = 1%nat.
Proof.
  refine (proj1 (completeAndNext_files example_state _)).
  repeat constructor.
Defined.

(** ** Going to the next file *)

(** X17: [nextFile] moves to the following file and keeps the segments of the
    file that it leaves: they are what [loadFile] finds for that file
    afterwards.  On the last file of the list it does nothing. *)
Theorem nextFile_keeps_rows (P : Platform.t) (s : App) (f : File.t) :
  files s !! current s = Some f ->
  let s' := nextFile P s in
  ((S (current s) < List.length (files s))%nat ->
     current s' = S (current s) /\ files s' = files s /\ rows s' = rows s
     /\ restore P s' (fileKey (Some f)) = JArray (rows s)
     /\ pendingRowsRef (state_of (loadFile P s' f))
        = match rows s with [] => None | _ => Some (rows s) end)
  /\ ((S (current s) = List.length (files s))%nat -> s' = s).
Proof.
  intros Hf s'. subst s'. unfold nextFile. split.
  - intros Hnext.
    destruct (Nat.ltb_spec (current s) (List.length (files s) - 1)) as [_|H]; [|lia].
    app_simpl.
    destruct (persistCurrent_frame P s) as (Hrows & _ & _ & Hfiles & Hcur & _).
    destruct (persistCurrent_cache P s f Hf) as [Hmap _].
    split; [rewrite Hcur; lia|]. split; [exact Hfiles|]. split; [exact Hrows|].
    set (s1 := set_current _ _).
    assert (Hrestore : restore P s1 (fileKey (Some f)) = JArray (rows s)).
    { unfold restore. subst s1. app_simpl. rewrite Hmap, lookup_insert_eq. reflexivity. }
    split; [exact Hrestore|].
    rewrite (proj1 (loadFile_pending P s1 f)), Hrestore. destruct (rows s); reflexivity.
  - intros Hlast.
    destruct (Nat.ltb_spec (current s) (List.length (files s) - 1)) as [H|_]; [lia|].
    reflexivity.
Qed.

Lemma nextFile_keeps_rows_witness :
  current (nextFile example_platform example_state) = 1%nat.
Proof.
  refine (proj1 (proj1 (nextFile_keeps_rows example_platform example_state
                          example_file eq_refl) _)).
  repeat constructor.
Defined.

(** ** Exporting the segments *)

Lemma example_buffer_wf : AudioBuffer.wf example_buffer.
Proof.
  split; [repeat constructor|]. split; [reflexivity|].
  split; [repeat constructor|]. split; [reflexivity|].
  exists 4%Q. split; reflexivity.
Qed.













(** ** The durable storage *)

(** X20: What a later session finds for a file.  [s2] is a state whose
    in-memory cache has no entry for the file and whose storage is the
    one that [persistCurrent] left.  When the write fitted and the parser
    reads the written text back, [loadFile] schedules the persisted
    segments; when the parser rejects the text, the entry is ignored and
    a default segment will be seeded; when the write did not fit, a
    warning is logged, the storage is as before, and the later session
    finds what the storage held before. *)
Theorem restore_in_later_session (P : Platform.t) (s s2 : App) (cur : File.t) :
  files s !! current s = Some cur ->
  let key := fileKey (Some cur) in
  let s' := persistCurrent P s in
  let text := Platform.JSON_stringify P (rows s) in
  let written := <[LS_PREFIX ++ key := text]> (localStorage s) in
  fileRowsRef s2 !! key = None ->
  localStorage s2 = localStorage s' ->
  text <> [] ->
  (Platform.fits P written = true ->
     warnings s' = warnings s
     /\ (Platform.JSON_parse P text = Some (JArray (rows s)) ->
         restore P s2 key = JArray (rows s)
         /\ (rows s <> [] ->
             pendingRowsRef (state_of (loadFile P s2 cur)) = Some (rows s)
             /\ seedOnReadyRef (state_of (loadFile P s2 cur)) = false))
     /\ (Platform.JSON_parse P text = None ->
         restore P s2 key = JNull
         /\ pendingRowsRef (state_of (loadFile P s2 cur)) = None
         /\ seedOnReadyRef (state_of (loadFile P s2 cur)) = true))
  /\ (Platform.fits P written = false ->
      warnings s' = S (warnings s)
      /\ localStorage s' = localStorage s
      /\ restore P s2 key = loadRowsLS P s key).
Proof.
  intros Hcur key s' text written Hmem Hls Htext.
  assert (Hs' : localStorage s' = (if Platform.fits P written then written
                                   else localStorage s)
                /\ warnings s' = (if Platform.fits P written then warnings s
                                  else S (warnings s))).
  { subst s'. unfold persistCurrent, saveRowsLS. rewrite Hcur. cbv zeta. app_simpl.
    fold key. fold text. fold written. destruct (Platform.fits P written); auto. }
  destruct Hs' as [Hstore Hwarn].
  assert (Hrestore : restore P s2 key
                     = match localStorage s' !! (LS_PREFIX ++ key) with
                       | Some [] | None => JNull
                       | Some str => match Platform.JSON_parse P str with
                                     | Some v => v
                                     | None => JNull
                                     end
                       end).
  { unfold restore, loadRowsLS. now rewrite Hmem, Hls. }
  pose proof (loadFile_pending P s2 cur) as [Hpending Hseed]. fold key in Hpending, Hseed.
  split; intros Hfits; rewrite Hfits in Hstore, Hwarn.
  - split; [exact Hwarn|].
    assert (Hread : restore P s2 key = match Platform.JSON_parse P text with
                                        | Some v => v
                                        | None => JNull
                                        end).
    { rewrite Hrestore, Hstore. subst written. rewrite lookup_insert_eq.
      destruct text; [contradiction | reflexivity]. }
    split.
    + intros Hparse. rewrite Hparse in Hread. split; [exact Hread|].
      intros Hne. rewrite Hpending, Hseed, Hread.
      destruct (rows s); [contradiction | auto].
    + intros Hparse. rewrite Hparse in Hread. split; [exact Hread|].
      rewrite Hpending, Hseed, Hread. auto.
  - split; [exact Hwarn|]. split; [exact Hstore|].
    rewrite Hrestore, Hstore. reflexivity.
Qed.

Lemma restore_in_later_session_witness :
  pendingRowsRef
    (state_of (loadFile example_reader
                 (initial (localStorage (persistCurrent example_reader example_state)))
                 example_file))
  = Some example_rows.
Proof.
  destruct (restore_in_later_session example_reader example_state
              (initial (localStorage (persistCurrent example_reader example_state)))
              example_file eq_refl eq_refl eq_refl)
    as [Hfits _].
  - discriminate.
  - destruct (Hfits eq_refl) as (_ & Hparse & _).
    destruct (Hparse eq_refl) as [_ Hload].
    apply Hload. discriminate.
Defined.

(** ** The key of a file *)

Lemma lit_inj a b : lit a = lit b -> a = b.
Proof.
  unfold lit. intros H.
  rewrite <- (string_of_list_ascii_of_string a), <- (string_of_list_ascii_of_string b).
  f_equal. revert H. generalize (list_ascii_of_string a) (list_ascii_of_string b).
  intros la. induction la as [|x la IH]; intros [|y lb] H; try discriminate H; auto.
  cbn [List.map] in H. injection H as Hxy Hrest.
  f_equal; [|now apply IH].
  rewrite <- (ascii_N_embedding x), <- (ascii_N_embedding y). now f_equal.
Qed.

Lemma to_int_proper z : Z.to_int z <> Decimal.Pos Decimal.Nil /\ Z.to_int z <> Decimal.Neg Decimal.Nil.
Proof.
  split; intros H;
    (assert (Hz : z = 0) by (rewrite <- (DecimalZ.of_to z), H; reflexivity));
    subst z; discriminate H.
Qed.

Lemma Z_toString_inj a b : Z_toString a = Z_toString b -> a = b.
Proof.
  unfold Z_toString. intros H. apply lit_inj in H.
  apply (f_equal NilZero.int_of_string) in H.
  destruct (to_int_proper a) as [Ha1 Ha2]. destruct (to_int_proper b) as [Hb1 Hb2].
  rewrite !NilZero.isi in H by assumption.
  injection H as H. apply (f_equal Z.of_int) in H. now rewrite !DecimalZ.of_to in H.
Qed.

Lemma uint_digits d c :
  c ∈ lit (NilEmpty.string_of_uint d) -> (48 <= c <= 57)%N.
Proof.
  unfold lit. induction d; cbn [NilEmpty.string_of_uint list_ascii_of_string List.map];
    intros H; try (inversion H; fail);
    apply elem_of_cons in H as [->|H]; try (now apply IHd); cbn; lia.
Qed.

Lemma Z_toString_chars z c :
  c ∈ Z_toString z -> (48 <= c <= 57)%N \/ c = 45%N.
Proof.
  unfold Z_toString. destruct (Z.to_int z) as [d|d]; cbn [NilZero.string_of_int].
  - unfold NilZero.string_of_uint. destruct d; try (left; eapply uint_digits; eassumption).
    unfold lit. cbn. intros H. apply list_elem_of_singleton in H. subst c. left. lia.
  - unfold lit at 1. cbn [list_ascii_of_string List.map]. intros H.
    apply elem_of_cons in H as [->|H]; [right; reflexivity|]. left. revert H.
    unfold NilZero.string_of_uint. destruct d; try apply uint_digits.
    unfold lit. cbn. intros H. apply list_elem_of_singleton in H. subst c. lia.
Qed.

Lemma Z_toString_no_bar z : 124%N ∉ Z_toString z.
Proof. intros H. apply Z_toString_chars in H. lia. Qed.

Lemma split_at_last (c : N) (a a' d d' : jsstring) :
  c ∉ d -> c ∉ d' -> a ++ c :: d = a' ++ c :: d' -> a = a' /\ d = d'.
Proof.
  intros Hd Hd'. revert a'. induction a as [|x a IH]; intros [|y a'] H.
  - injection H as H. auto.
  - cbn in H. injection H as Hx H. subst d. exfalso. apply Hd.
    apply elem_of_app. right. constructor.
  - cbn in H. injection H as Hx H. subst d'. exfalso. apply Hd'.
    apply elem_of_app. right. constructor.
  - cbn in H. injection H as Hx H. destruct (IH a' H) as [-> ->]. subst. auto.
Qed.

(** X21: Two files have the same key exactly when they agree on their path
    (their name, for a file without path), their size and their
    modification time: no other two files share the cached segments.  The
    key of a file is never the empty key of a missing file. *)
Theorem fileKey_injective (f g : File.t) :
  (fileKey (Some f) = fileKey (Some g) <->
   str_or (File.webkitRelativePath f) (File.name f)
   = str_or (File.webkitRelativePath g) (File.name g)
   /\ File.size f = File.size g
   /\ File.lastModified f = File.lastModified g)
  /\ fileKey (Some f) <> fileKey None.
Proof.
  split.
  - split.
    + unfold fileKey. change (lit "|") with [124%N]. cbn [app].
      intros H.
      assert (Hshape : forall p x y : jsstring,
                p ++ 124%N :: x ++ 124%N :: y = (p ++ 124%N :: x) ++ 124%N :: y)
        by (intros; now rewrite <- app_assoc).
      rewrite !Hshape in H.
      apply split_at_last in H as [H1 H2]; try apply Z_toString_no_bar.
      apply split_at_last in H1 as [H0 H1]; try apply Z_toString_no_bar.
      apply Z_toString_inj in H1, H2. auto.
    + intros (Hp & Hs & Hm). unfold fileKey. now rewrite Hp, Hs, Hm.
  - unfold fileKey. change (lit "|") with [124%N]. intros H.
    apply (f_equal (@List.length N)) in H. rewrite !length_app in H. cbn in H. lia.
Qed.

(** ** Slices side by side *)




Lemma Qfloor_le_0 q : (q <= 0)%Q -> Qfloor q <= 0.
Proof.
  intros H.
  assert (H' : Qfloor q <= Qfloor (inject_Z 0)) by (apply Qfloor_resp_le; exact H).
  now rewrite Qfloor_Z in H'.
Qed.

Lemma Qfloor_ge_Z q z : (inject_Z z <= q)%Q -> z <= Qfloor q.
Proof.
  intros H. rewrite <- (Qfloor_Z z). now apply Qfloor_resp_le.
Qed.

Lemma frame_index_fin ab r t :
  AudioBuffer.sampleRate ab = Fin r ->
  frame_index ab (Fin t)
  = Z.to_nat (Z.max 0 (Z.min (Qfloor (t * r)) (Z.of_nat (AudioBuffer.length ab)))).
Proof.
  intros Hr. unfold frame_index. rewrite Hr. cbn [mul Math_floor clamp_index].
  now rewrite Qfloor_Z.
Qed.

Lemma frame_index_inf ab r :
  AudioBuffer.sampleRate ab = Fin r -> (0 < r)%Q ->
  frame_index ab NInf = 0%nat /\ frame_index ab PInf = AudioBuffer.length ab.
Proof.
  intros Hr Hrpos. unfold frame_index. rewrite Hr. cbn [mul sgn]. unfold Qsgn.
  assert (H : 0 < Qnum r) by (unfold Qlt in Hrpos; simpl in Hrpos; lia).
  destruct (Qnum r); try lia. split; reflexivity.
Qed.

Lemma sliced_whole ab :
  AudioBuffer.wf ab -> sliced ab 0 (AudioBuffer.length ab) = ab.
Proof.
  intros (_ & _ & Hframes & _). destruct ab as [c r n chans].
  unfold sliced. cbn [AudioBuffer.numberOfChannels AudioBuffer.sampleRate
                      AudioBuffer.length AudioBuffer.channels] in *.
  f_equal. induction Hframes as [|d l Hd _ IH]; [reflexivity|].
  cbn [List.map]. rewrite IH. f_equal. rewrite drop_0. apply take_ge. lia.
Qed.

(** X23: A range that covers the whole buffer yields a copy of it: for a
    start at or before 0 and an end at or after the duration
    [length / sampleRate], [sliceBuffer] returns a buffer equal to its
    argument. *)
Theorem sliceBuffer_whole ctx ab (r : Q) s e :
  AudioContext.allocates ctx -> AudioBuffer.wf ab ->
  (0 < AudioBuffer.length ab)%nat ->
  AudioBuffer.sampleRate ab = Fin r ->
  le s (Fin 0) ->
  le (Fin (inject_Z (Z.of_nat (AudioBuffer.length ab)) / r)) e ->
  sliceBuffer ctx ab s e = Some ab.
Proof.
  intros Hctx Hwf Hlen Hr Hs He.
  assert (Hrpos : (0 < r)%Q).
  { destruct Hwf as (_ & _ & _ & _ & r' & Hr' & Hpos). congruence. }
  destruct (frame_index_inf ab r Hr Hrpos) as [Hninf Hpinf].
  assert (Hfirst : frame_index ab s = 0%nat).
  { destruct s as [| |a|]; try contradiction; [exact Hninf|].
    rewrite (frame_index_fin ab r a Hr). cbn in Hs.
    assert (H : Qfloor (a * r) <= 0) by (apply Qfloor_le_0; nra). lia. }
  assert (Hlast : frame_index ab e = AudioBuffer.length ab).
  { destruct e as [| |b|]; try contradiction; [|exact Hpinf].
    rewrite (frame_index_fin ab r b Hr). cbn in He.
    assert (H : Z.of_nat (AudioBuffer.length ab) <= Qfloor (b * r)).
    { apply Qfloor_ge_Z.
      assert (Hdiv : (inject_Z (Z.of_nat (AudioBuffer.length ab)) / r * r
                      == inject_Z (Z.of_nat (AudioBuffer.length ab)))%Q)
        by (field; lra).
      rewrite <- Hdiv. apply Qmult_le_compat_r; lra. }
    lia. }
  assert (Hnan : is_nan s = false /\ is_nan e = false).
  { destruct s, e; try contradiction; auto. }
  destruct Hnan as [Hns Hne].
  rewrite (sliceBuffer_run ctx ab s e Hwf Hns Hne).
  - rewrite Hfirst, Hlast, Nat.sub_0_r. f_equal. now apply sliced_whole.
  - rewrite Hfirst, Hlast, Nat.sub_0_r.
    destruct Hwf as (Hpos & _). rewrite Hr.
    apply Hctx; [exact Hpos | exact Hlen | reflexivity | now apply Qltb_lt].
Qed.

Lemma sliceBuffer_whole_witness :
  sliceBuffer AudioContext.webaudio example_buffer (Fin (-1)) (Fin 3)
  = Some example_buffer.
Proof.
  apply (sliceBuffer_whole AudioContext.webaudio example_buffer 4 (Fin (-1)) (Fin 3)
           webaudio_allocates example_buffer_wf).
  - repeat constructor.
  - reflexivity.
  - vm_compute. discriminate.
  - vm_compute. discriminate.
Defined.



(** ** The encoder on every buffer *)

Lemma to_uint_range w x : 0 < w -> 0 <= to_uint w x < 2 ^ w.
Proof.
  intros Hw. destruct x; cbn [to_uint]; try (split; [lia | apply Z.pow_pos_nonneg; lia]).
  apply Z.mod_pos_bound. apply Z.pow_pos_nonneg; lia.
Qed.

(** X25: Without any bound on the buffer, [audioBufferToWav] returns a file
    of [44 + 2 * N * C] bytes; a header field holds its value modulo the
    width of the field, and the sample rate and the byte rate are cut to
    integers first: a buffer whose sizes or rates exceed 32 bits, or
    whose rate is not an integer, is encoded with a header that no
    longer tells its sizes and rates. *)
Theorem audioBufferToWav_wraps (ab : AudioBuffer.t) (r : Q) :
  AudioBuffer.wf ab ->
  AudioBuffer.sampleRate ab = Fin r ->
  let C := Z.of_nat (AudioBuffer.numberOfChannels ab) in
  let N := Z.of_nat (AudioBuffer.length ab) in
  exists bytes,
    audioBufferToWav ab = Some (Blob.mk bytes (lit "audio/wav"))
    /\ Z.of_nat (List.length bytes) = 44 + 2 * N * C
    /\ getUint32 bytes 4 true = Some ((36 + 2 * N * C) mod 2 ^ 32)
    /\ getUint16 bytes 22 true = Some (C mod 2 ^ 16)
    /\ getUint32 bytes 24 true = Some (Qtrunc r mod 2 ^ 32)
    /\ getUint32 bytes 28 true = Some (Qtrunc (r * inject_Z C * 2) mod 2 ^ 32)
    /\ getUint16 bytes 32 true = Some ((C * 2) mod 2 ^ 16)
    /\ getUint32 bytes 40 true = Some ((2 * N * C) mod 2 ^ 32).
Proof.
  intros Hwf Hrate C N.
  destruct (interleave_spec ab Hwf) as (interleaved & Hi & Hlen & _).
  assert (HlenZ : Z.of_nat (List.length interleaved) = N * C).
  { rewrite Hlen, Nat2Z.inj_mul. reflexivity. }
  exists (wav_header (AudioBuffer.numberOfChannels ab) (AudioBuffer.sampleRate ab)
            (List.length interleaved) ++ wav_payload interleaved).
  pose proof (wav_header_fields (AudioBuffer.numberOfChannels ab)
                (AudioBuffer.sampleRate ab) (List.length interleaved)) as Hf.
  cbv zeta in Hf.
  pose proof (wav_header_length (AudioBuffer.numberOfChannels ab)
                (AudioBuffer.sampleRate ab) (List.length interleaved)) as Hh.
  destruct Hf as (_ & F4 & _ & _ & _ & _ & F22 & F24 & F28 & F32 & _ & _ & F40).
  assert (Hfield : forall (n : nat) w off x v,
             (off + n <= 44)%nat -> 8 * Z.of_nat n = w -> 0 < w ->
             take n (drop off (wav_header (AudioBuffer.numberOfChannels ab)
                                 (AudioBuffer.sampleRate ab) (List.length interleaved)))
             = le_bytes n (to_uint w x) ->
             to_uint w x = v ->
             getUint n (wav_header (AudioBuffer.numberOfChannels ab)
                          (AudioBuffer.sampleRate ab) (List.length interleaved)
                        ++ wav_payload interleaved) off true = Some v).
  { intros n w off x v Hoff Hw Hpos Hbytes <-.
    apply getUint_header; [rewrite Hh; lia | exact Hbytes |].
    replace (256 ^ Z.of_nat n) with (2 ^ w); [now apply to_uint_range|].
    subst w. change 256 with (2 ^ 8). rewrite <- Z.pow_mul_r by lia. reflexivity. }
  unfold getUint32, getUint16.
  split; [now apply audioBufferToWav_closed|].
  split; [rewrite length_app, Hh, wav_payload_length; lia|].
  split.
  { apply (Hfield 4%nat 32 4%nat _ _ ltac:(lia) eq_refl eq_refl F4).
    unfold of_nat, of_Z. cbn [mul add to_uint]. f_equal.
    apply Qtrunc_inject. rewrite HlenZ, inject_Z_plus, !inject_Z_mult.
    change (inject_Z 36) with 36%Q. change (inject_Z 2) with 2%Q. ring. }
  split.
  { apply (Hfield 2%nat 16 22%nat _ _ ltac:(lia) eq_refl eq_refl F22).
    unfold of_nat, of_Z. cbn [to_uint]. f_equal. now apply Qtrunc_inject. }
  split.
  { apply (Hfield 4%nat 32 24%nat _ _ ltac:(lia) eq_refl eq_refl F24).
    rewrite Hrate. reflexivity. }
  split.
  { apply (Hfield 4%nat 32 28%nat _ _ ltac:(lia) eq_refl eq_refl F28).
    rewrite Hrate. reflexivity. }
  split.
  { apply (Hfield 2%nat 16 32%nat _ _ ltac:(lia) eq_refl eq_refl F32).
    unfold of_nat, of_Z. cbn [mul to_uint]. f_equal.
    apply Qtrunc_inject. rewrite inject_Z_mult. reflexivity. }
  apply (Hfield 4%nat 32 40%nat _ _ ltac:(lia) eq_refl eq_refl F40).
  unfold of_nat, of_Z. cbn [mul to_uint]. f_equal.
  apply Qtrunc_inject. rewrite HlenZ, !inject_Z_mult.
  change (inject_Z 2) with 2%Q. ring.
Qed.

Lemma audioBufferToWav_wraps_witness :
  exists bytes,
    audioBufferToWav (AudioBuffer.mk 1 (Fin (88201 # 2)) 2 [[Fin 0; Fin 1]])
    = Some (Blob.mk bytes (lit "audio/wav"))
    /\ getUint32 bytes 24 true = Some 44100.
Proof.
  destruct (audioBufferToWav_wraps
              (AudioBuffer.mk 1 (Fin (88201 # 2)) 2 [[Fin 0; Fin 1]]) (88201 # 2))
    as (bytes & Hrun & _ & _ & _ & Hrate & _).
  - split; [repeat constructor|]. split; [reflexivity|].
    split; [repeat constructor|]. split; [reflexivity|].
    exists (88201 # 2)%Q. split; reflexivity.
  - reflexivity.
  - exists bytes. split; [exact Hrun | exact Hrate].
Defined.

Lemma Qtrunc_nonneg a : (0 <= a)%Q -> Qtrunc a = Qfloor a.
Proof.
  destruct a as [n d]. unfold Qle, Qtrunc, Qfloor. simpl. rewrite Z.mul_1_r.
  intros Hn. apply Z.quot_div_nonneg; lia.
Qed.

Lemma Qtrunc_opp a : Qtrunc (- a) = - Qtrunc a.
Proof. destruct a as [n d]. unfold Qtrunc. simpl. apply Z.quot_opp_l. lia. Qed.

Lemma Qtrunc_mono a b : (a <= b)%Q -> Qtrunc a <= Qtrunc b.
Proof.
  intros Hab.
  assert (Hneg : forall x, (x <= 0)%Q -> Qtrunc x = - Qfloor (- x)).
  { intros x Hx. rewrite <- (Qtrunc_nonneg (- x)) by lra. rewrite Qtrunc_opp. lia. }
  assert (Hf0 : forall x, (0 <= x)%Q -> 0 <= Qfloor x).
  { intros x Hx. apply (Qfloor_resp_le 0 x) in Hx. exact Hx. }
  destruct (Qlt_le_dec a 0) as [Ha|Ha]; destruct (Qlt_le_dec b 0) as [Hb|Hb].
  - rewrite !Hneg by lra.
    assert (H : Qfloor (- b) <= Qfloor (- a)) by (apply Qfloor_resp_le; lra). lia.
  - rewrite Hneg by lra. rewrite Qtrunc_nonneg by lra.
    pose proof (Hf0 (- a)%Q ltac:(lra)). pose proof (Hf0 b Hb). lia.
  - lra.
  - rewrite !Qtrunc_nonneg by lra. now apply Qfloor_resp_le.
Qed.

Lemma pcm16_range x : -32768 <= pcm16 x <= 32767.
Proof. apply scaled_sample_pcm16. Qed.

Lemma pcm16_mono x y : le x y -> pcm16 x <= pcm16 y.
Proof.
  intros Hle. pose proof (pcm16_range x). pose proof (pcm16_range y).
  destruct x as [| |a|], y as [| |b|]; try contradiction; try (cbn [pcm16] in *; lia).
  cbn [le] in Hle. unfold pcm16. cbv zeta. apply Qtrunc_mono.
  unfold Qclamp. split_Qltb; lra.
Qed.

Lemma pcm16_saturates x :
  (le (Fin 1) x -> pcm16 x = 32767) /\ (le x (Fin (-1)) -> pcm16 x = -32768)
  /\ (eqv x (Fin 0) -> pcm16 x = 0).
Proof.
  assert (Hval : forall q z, (q == inject_Z z)%Q -> Qtrunc q = z)
    by (intros; now apply Qtrunc_inject).
  destruct x as [| |a|]; cbn [le eqv]; repeat split; try tauto; try reflexivity;
    intros Ha; unfold pcm16; cbv zeta; apply Hval; unfold Qclamp;
    split_Qltb; try lra;
    repeat match goal with
      | |- (_ == inject_Z ?z)%Q =>
          let c := eval cbv in (inject_Z z) in change (inject_Z z) with c
      end; lra.
Qed.

Lemma wav_samples_read (ab : AudioBuffer.t) :
  AudioBuffer.wf ab ->
  exists bytes,
    audioBufferToWav ab = Some (Blob.mk bytes (lit "audio/wav"))
    /\ forall ch i data x,
         AudioBuffer.channels ab !! ch = Some data -> data !! i = Some x ->
         getInt16 bytes (44 + 2 * (i * AudioBuffer.numberOfChannels ab + ch)) true
         = Some (pcm16 x).
Proof.
  intros Hwf.
  destruct (interleave_spec ab Hwf) as (interleaved & Hi & Hlen & Hat).
  destruct Hwf as (Hpos & Hchannels & Hframes & _).
  pose proof (wav_header_length (AudioBuffer.numberOfChannels ab)
                (AudioBuffer.sampleRate ab) (List.length interleaved)) as Hh.
  eexists. split; [apply (audioBufferToWav_closed ab interleaved Hi)|].
  intros ch i data x Hdata Hx.
  assert (Hch : (ch < AudioBuffer.numberOfChannels ab)%nat).
  { rewrite <- Hchannels. now apply lookup_lt_Some in Hdata. }
  assert (Hi' : (i < AudioBuffer.length ab)%nat).
  { rewrite Forall_forall in Hframes.
    rewrite <- (Hframes data); [now apply lookup_lt_Some in Hx|].
    apply list_elem_of_lookup. eauto. }
  pose proof (Hat ch i data Hch Hi' Hdata) as Hk.
  unfold sample_at in Hk. rewrite Hx in Hk.
  set (k := (i * AudioBuffer.numberOfChannels ab + ch)%nat) in *.
  assert (Hklen : (k < List.length interleaved)%nat) by now apply lookup_lt_Some in Hk.
  unfold getInt16, getUint, get_bytes.
  rewrite length_app, Hh, wav_payload_length.
  destruct (Nat.leb_spec (44 + 2 * k + 2) (44 + 2 * List.length interleaved)) as [_|H];
    [|lia].
  rewrite drop_app_ge by lia. rewrite Hh.
  replace (44 + 2 * k - 44)%nat with (2 * k)%nat by lia.
  rewrite (wav_payload_lookup interleaved k x Hk). cbn [ordered].
  destruct (scaled_sample_pcm16 x) as [-> Hrange].
  f_equal. apply (int16_read_back (pcm16 x) Hrange).
Qed.

(** X26: The encoder keeps the order of the samples and clips: of two samples
    of a buffer, the greater one is written as the greater (or the same)
    16-bit integer; a sample of 1 or more is written as 32767, a sample
    of -1 or less as -32768, and silence as 0, so that no sample wraps
    around. *)
Theorem audioBufferToWav_keeps_order (ab : AudioBuffer.t) (ch1 ch2 i1 i2 : nat)
    (d1 d2 : list num) (x y : num) :
  AudioBuffer.wf ab ->
  AudioBuffer.channels ab !! ch1 = Some d1 -> d1 !! i1 = Some x ->
  AudioBuffer.channels ab !! ch2 = Some d2 -> d2 !! i2 = Some y ->
  le x y ->
  exists bytes a b,
    audioBufferToWav ab = Some (Blob.mk bytes (lit "audio/wav"))
    /\ getInt16 bytes (44 + 2 * (i1 * AudioBuffer.numberOfChannels ab + ch1)) true = Some a
    /\ getInt16 bytes (44 + 2 * (i2 * AudioBuffer.numberOfChannels ab + ch2)) true = Some b
    /\ -32768 <= a /\ a <= b /\ b <= 32767
    /\ (le (Fin 1) y -> b = 32767)
    /\ (le x (Fin (-1)) -> a = -32768)
    /\ (eqv x (Fin 0) -> a = 0).
Proof.
  intros Hwf Hd1 Hx Hd2 Hy Hle.
  destruct (wav_samples_read ab Hwf) as (bytes & Hrun & Hread).
  exists bytes, (pcm16 x), (pcm16 y).
  split; [exact Hrun|].
  split; [now apply (Hread ch1 i1 d1)|].
  split; [now apply (Hread ch2 i2 d2)|].
  pose proof (pcm16_range x). pose proof (pcm16_range y).
  split; [lia|]. split; [now apply pcm16_mono|]. split; [lia|].
  split; [apply pcm16_saturates|]. split; apply pcm16_saturates.
Qed.

Lemma audioBufferToWav_keeps_order_witness :
  exists bytes a b,
    audioBufferToWav example_buffer = Some (Blob.mk bytes (lit "audio/wav"))
    /\ getInt16 bytes 52 true = Some a
    /\ getInt16 bytes 46 true = Some b
    /\ a <= b.
Proof.
  destruct (audioBufferToWav_keeps_order example_buffer 0 0 4 1
              [Fin 0; Fin (1 # 2); Fin 1; Fin (-1); Fin (-2); Fin 0; Fin (1 # 4); Fin 3]
              [Fin 0; Fin (1 # 2); Fin 1; Fin (-1); Fin (-2); Fin 0; Fin (1 # 4); Fin 3]
              (Fin (-2)) (Fin (1 # 2)) example_buffer_wf eq_refl eq_refl eq_refl eq_refl)
    as (bytes & a & b & Hrun & Ha & Hb & _ & Hab & _).
  - vm_compute. discriminate.
  - exists bytes, a, b. auto.
Defined.

(** ** The clock of the player *)





(** ** The fields of a segment *)





(** ** Switching files *)

Lemma loadFile_isRestoring P s f :
  isRestoringRef (state_of (loadFile P s f)) = true.
Proof.
  unfold loadFile, clearAllRegions. cbv zeta. app_simpl.
  destruct (regionsRef s); app_simpl; destruct (wsRef s); app_simpl;
    try reflexivity; destruct (acRef s); reflexivity.
Qed.

Lemma load_effect_isRestoring P s :
  isRestoringRef s = true -> isRestoringRef (load_effect P s) = true.
Proof.
  intros H. unfold load_effect. destruct (files s !! current s); [|exact H].
  apply loadFile_isRestoring.
Qed.

(** X29: While a file is being opened, nothing is cached: after a click on a
    file of the list, after [nextFile] on a file that is not the last,
    and after [completeAndNext], the effect that loads the open file
    empties the list of segments, and the effect that caches the segments,
    when it runs next (before any animation frame), writes nothing,
    neither to the in-memory map nor to the storage.  Caching at that
    moment would store the empty list for the file that is being
    opened. *)
Theorem switching_files_caches_nothing (P : Platform.t) (s : App) (i : nat) :
  let quiet := fun s1 : App =>
    persist_effect P (load_effect P s1) = load_effect P s1 in
  quiet (selectFile P s i)
  /\ ((S (current s) < List.length (files s))%nat -> quiet (nextFile P s))
  /\ (files s <> [] -> quiet (completeAndNext s))
  /\ (forall f regs ws,
        files s !! i = Some f -> regionsRef s = Some regs -> wsRef s = Some ws ->
        let opened := load_effect P (selectFile P s i) in
        rows opened = []
        /\ fileRowsRef (persistCurrent P opened) !! fileKey (Some f) = Some []).
Proof.
  intros quiet.
  assert (Hquiet : forall s1, isRestoringRef s1 = true -> quiet s1).
  { intros s1 H. subst quiet. cbv beta. unfold persist_effect.
    now rewrite load_effect_isRestoring. }
  split; [apply Hquiet; reflexivity|].
  split.
  { intros Hnext. apply Hquiet. unfold nextFile.
    destruct (Nat.ltb_spec (current s) (List.length (files s) - 1)) as [_|H]; [|lia].
    reflexivity. }
  split.
  { intros Hfiles. apply Hquiet. unfold completeAndNext.
    destruct (files s) as [|f0 fs] eqn:E; [contradiction|].
    cbv zeta. unfold deleteRowsLS, clearAllRegions. app_simpl.
    destruct (remove_at _ _); app_simpl; [|reflexivity].
    destruct (regionsRef s); reflexivity. }
  intros f regs ws Hf Hregs Hws opened.
  destruct (persistCurrent_frame P s)
    as (_ & Hregs' & Hws' & Hfiles' & _).
  assert (Hopen : files opened = files s /\ current opened = i /\ rows opened = []).
  { subst opened. unfold load_effect, selectFile. app_simpl.
    rewrite Hfiles', Hf. unfold loadFile, clearAllRegions. cbv zeta. app_simpl.
    rewrite Hregs', Hregs. app_simpl. rewrite Hws', Hws.
    destruct (acRef _); app_simpl; auto. }
  destruct Hopen as (Hfiles & Hcur & Hrows).
  split; [exact Hrows|].
  assert (Hf' : files opened !! current opened = Some f) by now rewrite Hfiles, Hcur.
  rewrite (proj1 (persistCurrent_cache P opened f Hf')), lookup_insert_eq, Hrows.
  reflexivity.
Qed.

(** ** The samples of an exported segment *)


